(** * pg-migrate front-end: a shallow embedding of the React application

    The development follows the TypeScript sources of the desktop client:
    [App.tsx] (application state and handlers), [MigrationPanel.tsx],
    [ProgressBar.tsx] and [ConnectionForm.tsx].  React state is a record,
    every handler is a function on that record, and an asynchronous handler
    is split at its [await]: the part that runs up to the call of the
    backend, and the continuation that runs once the promise has settled. *)

From Stdlib Require Import Ascii String QArith SpecFloat.
From stdpp Require Import gmap strings list sorting pretty.
Close Scope Q_scope.

(** ** JavaScript primitives used by the sources *)

Module Js.

(** A JavaScript [number] that the sources only store, test, default and
    parse (a port, a batch size): the special values and, for the finite
    ones, an exact rational, with an unsigned zero.  No operation below
    rounds.  The numbers the sources compute with are doubles, see
    [Double]. *)
Inductive number :=
| NaN
| Infinity (negative : bool)
| Finite (q : Q).

Definition of_Z (z : Z) : number := Finite (inject_Z z).

Definition is_finite (n : number) : bool :=
  match n with Finite _ => true | _ => false end.

(** [ToBoolean] on numbers: [0] and [NaN] are falsy. *)
Definition truthy (n : number) : bool :=
  match n with
  | NaN => false
  | Infinity _ => true
  | Finite q => negb (Qeq_bool q 0)
  end.

(** [a || b] on numbers. *)
Definition or_else (a b : number) : number := if truthy a then a else b.

(** *** Doubles

    Where the sources divide, multiply and round, a [number] is an IEEE 754
    binary64 value and every operation rounds to the nearest value, ties
    to even, as the language prescribes: the operations are those of the
    specification of binary floating-point arithmetic in the standard
    library, at precision 53 and maximal exponent 1024. *)
Module Double.

Definition prec : Z := 53.
Definition emax : Z := 1024.

Definition t : Type := spec_float.

Definition NaN : t := S754_nan.
Definition Infinity (negative : bool) : t := S754_infinity negative.

(** The double of an integer literal or of an integer count. *)
Definition of_Z (z : Z) : t := binary_normalize prec emax z 0 false.

Definition is_NaN (x : t) : bool :=
  match x with S754_nan => true | _ => false end.

Definition is_infinite (x : t) : bool :=
  match x with S754_infinity _ => true | _ => false end.

Definition is_zero (x : t) : bool :=
  match x with S754_zero _ => true | _ => false end.

(** Neither NaN nor an infinity. *)
Definition is_finite (x : t) : bool :=
  match x with S754_zero _ | S754_finite _ _ _ => true | _ => false end.

(** [a > b]: false when either side is NaN. *)
Definition gt (a b : t) : bool := SFltb b a.

(** [a / b] and [a * b]. *)
Definition div (a b : t) : t := SFdiv prec emax a b.
Definition mul (a b : t) : t := SFmul prec emax a b.

(** [Math.round]: the nearest integer, ties towards plus infinity; NaN,
    the infinities, the zeros and the integers are returned as they are,
    and a negative value that rounds to zero gives the negative zero.
    For [m * 2^e] with [e < 0] the integer is
    [floor ((2 * m + 2^(-e)) / 2^(1 - e))]. *)
Definition Math_round (x : t) : t :=
  match x with
  | S754_finite s m e =>
      if (0 <=? e)%Z then x
      else
        let n := ((2 * cond_Zopp s (Z.pos m) + 2 ^ (- e)) `div` 2 ^ (1 - e))%Z in
        if (n =? 0)%Z then S754_zero s else of_Z n
  | _ => x
  end.

End Double.

(** Strings are sequences of code units below 256, the Latin-1 part of
    the UTF-16 code units of the language.  Among these the white space
    that [trim] and [parseInt] strip ([WhiteSpace] and [LineTerminator])
    is: tab, line feed, vertical tab, form feed, carriage return, space
    and the no-break space U+00A0. *)
Definition is_whitespace (c : ascii) : bool :=
  let n := nat_of_ascii c in
  (n =? 9)%nat || (n =? 10)%nat || (n =? 11)%nat || (n =? 12)%nat
  || (n =? 13)%nat || (n =? 32)%nat || (n =? 160)%nat.

Fixpoint trimStart (s : string) : string :=
  match s with
  | String c s' => if is_whitespace c then trimStart s' else s
  | EmptyString => EmptyString
  end.

Definition trimEnd (s : string) : string :=
  String.rev (trimStart (String.rev s)).

(** [String.prototype.trim]. *)
Definition trim (s : string) : string := trimEnd (trimStart s).

(** Value of a character as a digit of the given radix (10 or 16). *)
Definition digit_of (radix : Z) (c : ascii) : option Z :=
  let n := Z.of_nat (nat_of_ascii c) in
  let d :=
    if (48 <=? n)%Z && (n <=? 57)%Z then Some (n - 48)%Z
    else if (97 <=? n)%Z && (n <=? 122)%Z then Some (n - 87)%Z
    else if (65 <=? n)%Z && (n <=? 90)%Z then Some (n - 55)%Z
    else None in
  match d with
  | Some v => if (v <? radix)%Z then Some v else None
  | None => None
  end.

(** Longest prefix of digits, accumulated left to right; [None] when the
    prefix is empty. *)
Fixpoint digits_prefix (radix : Z) (acc : option Z) (s : string) : option Z :=
  match s with
  | String c s' =>
      match digit_of radix c with
      | Some v => digits_prefix radix (Some (default 0%Z acc * radix + v)%Z) s'
      | None => acc
      end
  | EmptyString => acc
  end.

(** [parseInt(s)] without a radix argument. *)
Definition parseInt (s : string) : number :=
  let s0 := trimStart s in
  let '(negative, s1) :=
    match s0 with
    | String "-" r => (true, r)
    | String "+" r => (false, r)
    | _ => (false, s0)
    end in
  let '(radix, s2) :=
    match s1 with
    | String "0" (String "x" r) | String "0" (String "X" r) => (16%Z, r)
    | _ => (10%Z, s1)
    end in
  match digits_prefix radix None s2 with
  | Some v => of_Z (if negative then - v else v)
  | None => NaN
  end.

(** [Array.prototype.join] on an array of strings. *)
Fixpoint join (sep : string) (l : list string) : string :=
  match l with
  | [] => ""
  | [x] => x
  | x :: rest => x +:+ sep +:+ join sep rest
  end.

(** A value thrown by a rejected promise, with its [String(...)]
    rendering: a string is itself, an [Error] object prints its name and
    message. *)
Inductive Thrown :=
| ThrownString (s : string)
| ThrownError (message : string).

Definition String_ (e : Thrown) : string :=
  match e with
  | ThrownString s => s
  | ThrownError m => if decide (m = "") then "Error" else "Error: " +:+ m
  end.

(** How an awaited promise settles. *)
Inductive Outcome (A : Type) :=
| Resolved (a : A)
| Rejected (e : Thrown).
Global Arguments Resolved {A} a.
Global Arguments Rejected {A} e.

End Js.

(** ** Types of [App.tsx] *)

Record ConnectionConfig := {
  cfg_host : string;
  cfg_port : Js.number;
  cfg_database : string;
  cfg_username : string;
  cfg_password : string;
}.

Record ConnectionStatus := {
  cs_id : string;
  cs_connected : bool;
  cs_database : string;
  cs_host : string;
  cs_error : option string;
}.

Inductive SchemaStatus := MATCH | MISSING_IN_TARGET | COLUMNS_MISMATCH | ERROR.

Record TableInfo := {
  ti_name : string;
  ti_schema : string;
  ti_row_count : Z;
  ti_size_bytes : Z;
  ti_status : option SchemaStatus;
  ti_statusDetails : option string;
}.

Record SchemaDiff := {
  sd_schema : string;
  sd_table : string;
  sd_status : SchemaStatus;
  sd_details : option string;
}.

(** The payload of a [migration-progress] event; the four counts are
    declared [number]. *)
Record MigrationProgress := {
  mp_table_name : string;
  mp_current_table : Js.Double.t;
  mp_total_tables : Js.Double.t;
  mp_rows_transferred : Js.Double.t;
  mp_total_rows : Js.Double.t;
  mp_status : string;
  mp_error : option string;
}.

Record MigrationOptions := {
  create_table_if_not_exists : bool;
  truncate_before_insert : bool;
  disable_constraints : bool;
  batch_size : Js.number;
}.

Record MigrationResult := {
  mr_success : bool;
  mr_tables_migrated : Z;
  mr_total_rows : Z;
  mr_errors : list string;
  mr_elapsed_ms : Z;
}.

Record SavedConnection := {
  sc_name : string;
  sc_config : ConnectionConfig;
}.

(** The object literal [{ schema: t.schema, name: t.name }]. *)
Record TableRef := {
  tr_schema : string;
  tr_name : string;
}.

(** The [request] argument of [start_migration]. *)
Record MigrationRequest := {
  source_connection_id : string;
  target_connection_id : string;
  req_tables : list TableRef;
  req_options : MigrationOptions;
  target_schema_override : option string;
}.

(** Commands of the backend, as passed to [invoke]. *)
Inductive Invocation :=
| connect_database (config : ConnectionConfig)
| disconnect_database (connectionId : string)
| get_tables (connectionId : string)
| get_schemas (connectionId : string)
| analyze_schema (sourceConnectionId targetConnectionId : string)
                 (tables : list TableRef)
| sort_tables_by_dependency (connectionId : string) (tables : list TableRef)
| start_migration (request : MigrationRequest)
| cancel_migration.

Global Instance SchemaStatus_eq_dec : EqDecision SchemaStatus.
Proof. solve_decision. Defined.
Global Instance ConnectionStatus_eq_dec : EqDecision ConnectionStatus.
Proof. solve_decision. Defined.
Global Instance TableRef_eq_dec : EqDecision TableRef.
Proof. solve_decision. Defined.

(** ** The state of the [App] component *)

Record AppState := {
  sourceConnection : option ConnectionStatus;
  targetConnection : option ConnectionStatus;
  sourceConfig : ConnectionConfig;
  targetConfig : ConnectionConfig;
  savedConnections : list SavedConnection;
  sourceTables : list TableInfo;
  targetTables : list TableInfo;
  targetSchemas : list string;
  selectedTables : gset string;
  isAnalyzing : bool;
  isSorting : bool;
  isMigrating : bool;
  progress : option MigrationProgress;
  lastResult : option MigrationResult;
  targetSchema : string;
  options : MigrationOptions;
}.

Definition defaultConfig : ConnectionConfig :=
  {| cfg_host := "localhost"; cfg_port := Js.of_Z 5432; cfg_database := "";
     cfg_username := "postgres"; cfg_password := "" |}.

Definition defaultOptions : MigrationOptions :=
  {| create_table_if_not_exists := true; truncate_before_insert := false;
     disable_constraints := true; batch_size := Js.of_Z 1000 |}.

(** The values of the [useState] calls; the saved connections come from
    local storage. *)
Definition initialState (saved : list SavedConnection) : AppState :=
  {| sourceConnection := None; targetConnection := None;
     sourceConfig := defaultConfig; targetConfig := defaultConfig;
     savedConnections := saved;
     sourceTables := []; targetTables := []; targetSchemas := [];
     selectedTables := ∅;
     isAnalyzing := false; isSorting := false; isMigrating := false;
     progress := None; lastResult := None; targetSchema := "";
     options := defaultOptions |}.

(** The state setters returned by [useState]. *)
Definition setSourceConnection (v : option ConnectionStatus) (s : AppState) : AppState :=
  {| sourceConnection := v; targetConnection := targetConnection s;
     sourceConfig := sourceConfig s; targetConfig := targetConfig s;
     savedConnections := savedConnections s;
     sourceTables := sourceTables s; targetTables := targetTables s;
     targetSchemas := targetSchemas s; selectedTables := selectedTables s;
     isAnalyzing := isAnalyzing s; isSorting := isSorting s;
     isMigrating := isMigrating s; progress := progress s;
     lastResult := lastResult s; targetSchema := targetSchema s;
     options := options s |}.

Definition setTargetConnection (v : option ConnectionStatus) (s : AppState) : AppState :=
  {| sourceConnection := sourceConnection s; targetConnection := v;
     sourceConfig := sourceConfig s; targetConfig := targetConfig s;
     savedConnections := savedConnections s;
     sourceTables := sourceTables s; targetTables := targetTables s;
     targetSchemas := targetSchemas s; selectedTables := selectedTables s;
     isAnalyzing := isAnalyzing s; isSorting := isSorting s;
     isMigrating := isMigrating s; progress := progress s;
     lastResult := lastResult s; targetSchema := targetSchema s;
     options := options s |}.

Definition setSourceConfig (v : ConnectionConfig) (s : AppState) : AppState :=
  {| sourceConnection := sourceConnection s; targetConnection := targetConnection s;
     sourceConfig := v; targetConfig := targetConfig s;
     savedConnections := savedConnections s;
     sourceTables := sourceTables s; targetTables := targetTables s;
     targetSchemas := targetSchemas s; selectedTables := selectedTables s;
     isAnalyzing := isAnalyzing s; isSorting := isSorting s;
     isMigrating := isMigrating s; progress := progress s;
     lastResult := lastResult s; targetSchema := targetSchema s;
     options := options s |}.

Definition setTargetConfig (v : ConnectionConfig) (s : AppState) : AppState :=
  {| sourceConnection := sourceConnection s; targetConnection := targetConnection s;
     sourceConfig := sourceConfig s; targetConfig := v;
     savedConnections := savedConnections s;
     sourceTables := sourceTables s; targetTables := targetTables s;
     targetSchemas := targetSchemas s; selectedTables := selectedTables s;
     isAnalyzing := isAnalyzing s; isSorting := isSorting s;
     isMigrating := isMigrating s; progress := progress s;
     lastResult := lastResult s; targetSchema := targetSchema s;
     options := options s |}.

Definition setSavedConnections (v : list SavedConnection) (s : AppState) : AppState :=
  {| sourceConnection := sourceConnection s; targetConnection := targetConnection s;
     sourceConfig := sourceConfig s; targetConfig := targetConfig s;
     savedConnections := v;
     sourceTables := sourceTables s; targetTables := targetTables s;
     targetSchemas := targetSchemas s; selectedTables := selectedTables s;
     isAnalyzing := isAnalyzing s; isSorting := isSorting s;
     isMigrating := isMigrating s; progress := progress s;
     lastResult := lastResult s; targetSchema := targetSchema s;
     options := options s |}.

Definition setSourceTables (v : list TableInfo) (s : AppState) : AppState :=
  {| sourceConnection := sourceConnection s; targetConnection := targetConnection s;
     sourceConfig := sourceConfig s; targetConfig := targetConfig s;
     savedConnections := savedConnections s;
     sourceTables := v; targetTables := targetTables s;
     targetSchemas := targetSchemas s; selectedTables := selectedTables s;
     isAnalyzing := isAnalyzing s; isSorting := isSorting s;
     isMigrating := isMigrating s; progress := progress s;
     lastResult := lastResult s; targetSchema := targetSchema s;
     options := options s |}.

Definition setTargetTables (v : list TableInfo) (s : AppState) : AppState :=
  {| sourceConnection := sourceConnection s; targetConnection := targetConnection s;
     sourceConfig := sourceConfig s; targetConfig := targetConfig s;
     savedConnections := savedConnections s;
     sourceTables := sourceTables s; targetTables := v;
     targetSchemas := targetSchemas s; selectedTables := selectedTables s;
     isAnalyzing := isAnalyzing s; isSorting := isSorting s;
     isMigrating := isMigrating s; progress := progress s;
     lastResult := lastResult s; targetSchema := targetSchema s;
     options := options s |}.

Definition setTargetSchemas (v : list string) (s : AppState) : AppState :=
  {| sourceConnection := sourceConnection s; targetConnection := targetConnection s;
     sourceConfig := sourceConfig s; targetConfig := targetConfig s;
     savedConnections := savedConnections s;
     sourceTables := sourceTables s; targetTables := targetTables s;
     targetSchemas := v; selectedTables := selectedTables s;
     isAnalyzing := isAnalyzing s; isSorting := isSorting s;
     isMigrating := isMigrating s; progress := progress s;
     lastResult := lastResult s; targetSchema := targetSchema s;
     options := options s |}.

Definition setSelectedTables (v : gset string) (s : AppState) : AppState :=
  {| sourceConnection := sourceConnection s; targetConnection := targetConnection s;
     sourceConfig := sourceConfig s; targetConfig := targetConfig s;
     savedConnections := savedConnections s;
     sourceTables := sourceTables s; targetTables := targetTables s;
     targetSchemas := targetSchemas s; selectedTables := v;
     isAnalyzing := isAnalyzing s; isSorting := isSorting s;
     isMigrating := isMigrating s; progress := progress s;
     lastResult := lastResult s; targetSchema := targetSchema s;
     options := options s |}.

Definition setIsAnalyzing (v : bool) (s : AppState) : AppState :=
  {| sourceConnection := sourceConnection s; targetConnection := targetConnection s;
     sourceConfig := sourceConfig s; targetConfig := targetConfig s;
     savedConnections := savedConnections s;
     sourceTables := sourceTables s; targetTables := targetTables s;
     targetSchemas := targetSchemas s; selectedTables := selectedTables s;
     isAnalyzing := v; isSorting := isSorting s;
     isMigrating := isMigrating s; progress := progress s;
     lastResult := lastResult s; targetSchema := targetSchema s;
     options := options s |}.

Definition setIsSorting (v : bool) (s : AppState) : AppState :=
  {| sourceConnection := sourceConnection s; targetConnection := targetConnection s;
     sourceConfig := sourceConfig s; targetConfig := targetConfig s;
     savedConnections := savedConnections s;
     sourceTables := sourceTables s; targetTables := targetTables s;
     targetSchemas := targetSchemas s; selectedTables := selectedTables s;
     isAnalyzing := isAnalyzing s; isSorting := v;
     isMigrating := isMigrating s; progress := progress s;
     lastResult := lastResult s; targetSchema := targetSchema s;
     options := options s |}.

Definition setIsMigrating (v : bool) (s : AppState) : AppState :=
  {| sourceConnection := sourceConnection s; targetConnection := targetConnection s;
     sourceConfig := sourceConfig s; targetConfig := targetConfig s;
     savedConnections := savedConnections s;
     sourceTables := sourceTables s; targetTables := targetTables s;
     targetSchemas := targetSchemas s; selectedTables := selectedTables s;
     isAnalyzing := isAnalyzing s; isSorting := isSorting s;
     isMigrating := v; progress := progress s;
     lastResult := lastResult s; targetSchema := targetSchema s;
     options := options s |}.

Definition setProgress (v : option MigrationProgress) (s : AppState) : AppState :=
  {| sourceConnection := sourceConnection s; targetConnection := targetConnection s;
     sourceConfig := sourceConfig s; targetConfig := targetConfig s;
     savedConnections := savedConnections s;
     sourceTables := sourceTables s; targetTables := targetTables s;
     targetSchemas := targetSchemas s; selectedTables := selectedTables s;
     isAnalyzing := isAnalyzing s; isSorting := isSorting s;
     isMigrating := isMigrating s; progress := v;
     lastResult := lastResult s; targetSchema := targetSchema s;
     options := options s |}.

Definition setLastResult (v : option MigrationResult) (s : AppState) : AppState :=
  {| sourceConnection := sourceConnection s; targetConnection := targetConnection s;
     sourceConfig := sourceConfig s; targetConfig := targetConfig s;
     savedConnections := savedConnections s;
     sourceTables := sourceTables s; targetTables := targetTables s;
     targetSchemas := targetSchemas s; selectedTables := selectedTables s;
     isAnalyzing := isAnalyzing s; isSorting := isSorting s;
     isMigrating := isMigrating s; progress := progress s;
     lastResult := v; targetSchema := targetSchema s;
     options := options s |}.

Definition setTargetSchema (v : string) (s : AppState) : AppState :=
  {| sourceConnection := sourceConnection s; targetConnection := targetConnection s;
     sourceConfig := sourceConfig s; targetConfig := targetConfig s;
     savedConnections := savedConnections s;
     sourceTables := sourceTables s; targetTables := targetTables s;
     targetSchemas := targetSchemas s; selectedTables := selectedTables s;
     isAnalyzing := isAnalyzing s; isSorting := isSorting s;
     isMigrating := isMigrating s; progress := progress s;
     lastResult := lastResult s; targetSchema := v;
     options := options s |}.

Definition setOptions (v : MigrationOptions) (s : AppState) : AppState :=
  {| sourceConnection := sourceConnection s; targetConnection := targetConnection s;
     sourceConfig := sourceConfig s; targetConfig := targetConfig s;
     savedConnections := savedConnections s;
     sourceTables := sourceTables s; targetTables := targetTables s;
     targetSchemas := targetSchemas s; selectedTables := selectedTables s;
     isAnalyzing := isAnalyzing s; isSorting := isSorting s;
     isMigrating := isMigrating s; progress := progress s;
     lastResult := lastResult s; targetSchema := targetSchema s;
     options := v |}.

(** ** Handlers of [App.tsx] *)

(** The selection key of a table, [`${t.schema}.${t.name}`]. *)
Definition tableKey (t : TableInfo) : string :=
  ti_schema t +:+ "." +:+ ti_name t.

Definition toRef (t : TableInfo) : TableRef :=
  {| tr_schema := ti_schema t; tr_name := ti_name t |}.

Definition refKey (r : TableRef) : string :=
  tr_schema r +:+ "." +:+ tr_name r.

(** [sourceTables.filter(t => selectedTables.has(key t)).map(toRef)], the
    list built by [handleMigrate] and by [handleSort]. *)
Definition selectedRefs (tables : list TableInfo) (selected : gset string)
  : list TableRef :=
  toRef <$> filter (λ t, tableKey t ∈ selected) tables.

(** [targetSchema.trim() || null]. *)
Definition schemaOverride (targetSchema : string) : option string :=
  let t := Js.trim targetSchema in
  if decide (t = "") then None else Some t.

(** [handleMigrate] up to its [await]: the two guards, the three state
    updates, and the [start_migration] request built from the state of the
    render the handler belongs to.  [None] is the early [return]. *)
Definition handleMigrate_begin (s : AppState) : option (AppState * Invocation) :=
  match sourceConnection s, targetConnection s with
  | Some src, Some tgt =>
      if decide (size (selectedTables s) = 0%nat) then None
      else
        let s' := setLastResult None (setProgress None (setIsMigrating true s)) in
        let tablesToMigrate := selectedRefs (sourceTables s) (selectedTables s) in
        Some (s', start_migration
                    {| source_connection_id := cs_id src;
                       target_connection_id := cs_id tgt;
                       req_tables := tablesToMigrate;
                       req_options := options s;
                       target_schema_override := schemaOverride (targetSchema s) |})
  | _, _ => None
  end.

(** The result recorded by the [catch] block of [handleMigrate]. *)
Definition failedResult (error : Js.Thrown) : MigrationResult :=
  {| mr_success := false; mr_tables_migrated := 0; mr_total_rows := 0;
     mr_errors := [Js.String_ error]; mr_elapsed_ms := 0 |}.

(** [handleMigrate] after its [await]: [targetId] is the [id] of the target
    connection the handler closed over.  The [try] branch stores the result
    and refreshes the target tables, the [catch] branch stores a failed
    result, and [finally] runs in both cases. *)
Definition handleMigrate_settle (targetId : string)
    (o : Js.Outcome MigrationResult) (s : AppState)
  : AppState * list Invocation :=
  let '(s1, calls) :=
    match o with
    | Js.Resolved result => (setLastResult (Some result) s, [get_tables targetId])
    | Js.Rejected error => (setLastResult (Some (failedResult error)) s, [])
    end in
  (setProgress None (setIsMigrating false s1), calls).

(** The listener registered for [migration-progress] events:
    [setProgress(event.payload)]. *)
Definition onMigrationProgress (payload : MigrationProgress) (s : AppState)
  : AppState :=
  setProgress (Some payload) s.

(** The list computed inside [handleSaveConnection]:
    [[...prev.filter(c => c.name !== newConnection.name), newConnection]]. *)
Definition saveConnection (newConnection : SavedConnection)
    (prev : list SavedConnection) : list SavedConnection :=
  filter (λ c, sc_name c ≠ sc_name newConnection) prev ++ [newConnection].

(** The list computed inside [handleDeleteConnection]:
    [prev.filter(c => c.name !== name)]. *)
Definition deleteConnection (name : string) (prev : list SavedConnection)
  : list SavedConnection :=
  filter (λ c, sc_name c ≠ name) prev.

(** Both handlers store the new list in the state and hand the same list to
    [persistConnections]; the second component is what is written to local
    storage. *)
Definition handleSaveConnection (newConnection : SavedConnection) (s : AppState)
  : AppState * list SavedConnection :=
  let updated := saveConnection newConnection (savedConnections s) in
  (setSavedConnections updated s, updated).

Definition handleDeleteConnection (name : string) (s : AppState)
  : AppState * list SavedConnection :=
  let updated := deleteConnection name (savedConnections s) in
  (setSavedConnections updated s, updated).

(** [handleSwap]: every setter receives a value read from the state of the
    current render. *)
Definition handleSwap (s : AppState) : AppState :=
  let tempConn := sourceConnection s in
  let tempConfig := sourceConfig s in
  let tempTables := sourceTables s in
  setSelectedTables ∅
    (setTargetTables tempTables
      (setSourceTables (targetTables s)
        (setTargetConfig tempConfig
          (setSourceConfig (targetConfig s)
            (setTargetConnection tempConn
              (setSourceConnection (targetConnection s) s)))))).

(** *** Sorting by dependency *)

Definition MAX_SAFE_INTEGER : Z := 2 ^ 53 - 1.

(** [sorted.forEach((t, i) => sortedMap.set(key t, i))], starting at index
    [i]: a later entry with the same key overwrites an earlier one. *)
Fixpoint fillSortedMap (i : nat) (sorted : list TableRef)
    (sortedMap : gmap string nat) : gmap string nat :=
  match sorted with
  | [] => sortedMap
  | t :: rest => fillSortedMap (S i) rest (<[refKey t := i]> sortedMap)
  end.

(** [sortedMap.has(key) ? sortedMap.get(key) : Number.MAX_SAFE_INTEGER]. *)
Definition sortIndex (sortedMap : gmap string nat) (t : TableInfo) : Z :=
  match sortedMap !! tableKey t with
  | Some i => Z.of_nat i
  | None => MAX_SAFE_INTEGER
  end.

(** The comparator given to [next.sort]. *)
Definition compareByIndex (sortedMap : gmap string nat) (a b : TableInfo) : Z :=
  let idxA := sortIndex sortedMap a in
  let idxB := sortIndex sortedMap b in
  if decide (idxA ≠ idxB) then idxA - idxB else 0.

(** [Array.prototype.sort] with a comparator.  The language fixes no
    algorithm but requires the sort to be stable, so for a consistent
    comparator the result is that of any stable sort; insertion from the
    right is the one used here. *)
Fixpoint sortInsert {A} (cmp : A → A → Z) (x : A) (l : list A) : list A :=
  match l with
  | [] => [x]
  | y :: l' => if (0 <? cmp x y)%Z then y :: sortInsert cmp x l' else x :: l
  end.

Fixpoint Array_sort {A} (cmp : A → A → Z) (l : list A) : list A :=
  match l with
  | [] => []
  | x :: l' => sortInsert cmp x (Array_sort cmp l')
  end.

(** The update passed to [setSourceTables] by [handleSort]. *)
Definition reorderBySorted (sorted : list TableRef) (prev : list TableInfo)
  : list TableInfo :=
  let sortedMap := fillSortedMap 0 sorted ∅ in
  Array_sort (compareByIndex sortedMap) prev.

(** [handleSort] up to its [await]. *)
Definition handleSort_begin (s : AppState) : option (AppState * Invocation) :=
  match sourceConnection s with
  | Some src =>
      if decide (size (selectedTables s) = 0%nat) then None
      else
        let selectedList := selectedRefs (sourceTables s) (selectedTables s) in
        Some (setIsSorting true s,
              sort_tables_by_dependency (cs_id src) selectedList)
  | None => None
  end.

(** [handleSort] after its [await]; a rejection is only logged. *)
Definition handleSort_settle (o : Js.Outcome (list TableRef)) (s : AppState)
  : AppState :=
  let s1 :=
    match o with
    | Js.Resolved sorted => setSourceTables (reorderBySorted sorted (sourceTables s)) s
    | Js.Rejected _ => s
    end in
  setIsSorting false s1.

(** *** Schema analysis *)

(** [diffs.find(d => d.schema === t.schema && d.table === t.name)]. *)
Definition findDiff (diffs : list SchemaDiff) (t : TableInfo) : option SchemaDiff :=
  snd <$> list_find (λ d, sd_schema d = ti_schema t ∧ sd_table d = ti_name t) diffs.

Definition annotate (diffs : list SchemaDiff) (t : TableInfo) : TableInfo :=
  match findDiff diffs t with
  | Some diffItem =>
      {| ti_name := ti_name t; ti_schema := ti_schema t;
         ti_row_count := ti_row_count t; ti_size_bytes := ti_size_bytes t;
         ti_status := Some (sd_status diffItem);
         ti_statusDetails := sd_details diffItem |}
  | None => t
  end.

Definition handleAnalyze_begin (s : AppState) : option (AppState * Invocation) :=
  match sourceConnection s, targetConnection s with
  | Some src, Some tgt =>
      let tablesToAnalyze := toRef <$> sourceTables s in
      Some (setIsAnalyzing true s,
            analyze_schema (cs_id src) (cs_id tgt) tablesToAnalyze)
  | _, _ => None
  end.

Definition handleAnalyze_settle (o : Js.Outcome (list SchemaDiff)) (s : AppState)
  : AppState :=
  let s1 :=
    match o with
    | Js.Resolved diffs => setSourceTables (annotate diffs <$> sourceTables s) s
    | Js.Rejected _ => s
    end in
  setIsAnalyzing false s1.

(** [handleCancel] asks the backend to stop; it touches no state. *)
Definition handleCancel : Invocation := cancel_migration.

(** *** Table lists and effects *)

Inductive Side := Source | Target.

Definition setTablesOf (side : Side) : list TableInfo → AppState → AppState :=
  match side with Source => setSourceTables | Target => setTargetTables end.

(** [fetchTables] after its [await]: the listing, or the empty list when the
    call fails. *)
Definition fetchTables_settle (side : Side) (o : Js.Outcome (list TableInfo))
    (s : AppState) : AppState :=
  match o with
  | Js.Resolved tables => setTablesOf side tables s
  | Js.Rejected _ => setTablesOf side [] s
  end.

(** [connection?.connected]. *)
Definition isConnected (c : option ConnectionStatus) : bool :=
  match c with Some st => cs_connected st | None => false end.

(** The effect that depends on [sourceConnection]. *)
Definition sourceEffect (s : AppState) : AppState * list Invocation :=
  match sourceConnection s with
  | Some c => if cs_connected c then (s, [get_tables (cs_id c)])
              else (setSourceTables [] s, [])
  | None => (setSourceTables [] s, [])
  end.

(** The effect that depends on [targetConnection]. *)
Definition targetEffect (s : AppState) : AppState * list Invocation :=
  match targetConnection s with
  | Some c => if cs_connected c then (s, [get_tables (cs_id c); get_schemas (cs_id c)])
              else (setTargetSchemas [] (setTargetTables [] s), [])
  | None => (setTargetSchemas [] (setTargetTables [] s), [])
  end.

(** ** [MigrationPanel.tsx] *)

(** The three uses of [handleOptionChange(key, value)] in the panel, each
    [onOptionsChange({ ...options, [key]: value })]. *)
Inductive OptionChange :=
| SetCreateTable (value : bool)
| SetTruncate (value : bool)
| SetBatchSize (value : Js.number).

Definition handleOptionChange (options : MigrationOptions) (c : OptionChange)
  : MigrationOptions :=
  match c with
  | SetCreateTable v =>
      {| create_table_if_not_exists := v;
         truncate_before_insert := truncate_before_insert options;
         disable_constraints := disable_constraints options;
         batch_size := batch_size options |}
  | SetTruncate v =>
      {| create_table_if_not_exists := create_table_if_not_exists options;
         truncate_before_insert := v;
         disable_constraints := disable_constraints options;
         batch_size := batch_size options |}
  | SetBatchSize v =>
      {| create_table_if_not_exists := create_table_if_not_exists options;
         truncate_before_insert := truncate_before_insert options;
         disable_constraints := disable_constraints options;
         batch_size := v |}
  end.

(** The [value] attributes of the [<option>] elements of the batch-size
    [<select>], in document order. *)
Definition batchSizeChoices : list Z := [100; 1000; 10000; 50000]%Z.

(** The string the DOM reports as [e.target.value] for a chosen option. *)
Definition optionValue (v : Z) : string := pretty v.

(** What the user can do in the panel besides the action button. *)
Inductive PanelInput :=
| ClickCreateTable
| ClickTruncate
| ChooseBatchSize (i : nat).

(** The options handed to [onOptionsChange]; [None] when the [<select>] has
    no such option. *)
Definition MigrationPanel_input (options : MigrationOptions) (i : PanelInput)
  : option MigrationOptions :=
  match i with
  | ClickCreateTable =>
      Some (handleOptionChange options
              (SetCreateTable (negb (create_table_if_not_exists options))))
  | ClickTruncate =>
      Some (handleOptionChange options
              (SetTruncate (negb (truncate_before_insert options))))
  | ChooseBatchSize k =>
      v ← batchSizeChoices !! k;
      Some (handleOptionChange options
              (SetBatchSize (Js.parseInt (optionValue v))))
  end.

(** The action button of the panel. *)
Inductive ActionButton :=
| CancelButton
| MigrateButton (disabled : bool) (count : option Z).

Definition MigrationPanel_action (isMigrating canMigrate : bool)
    (selectedCount : Z) : ActionButton :=
  if isMigrating then CancelButton
  else MigrateButton (negb canMigrate)
         (if (0 <? selectedCount)%Z then Some selectedCount else None).

(** ** [ProgressBar.tsx] *)

(** [total > 0 ? Math.round((part / total) * 100) : 0]. *)
Definition percentOf (part total : Js.Double.t) : Js.Double.t :=
  if Js.Double.gt total (Js.Double.of_Z 0)
  then Js.Double.Math_round
         (Js.Double.mul (Js.Double.div part total) (Js.Double.of_Z 100))
  else Js.Double.of_Z 0.

(** What the component shows for a snapshot.  Row counts are kept as
    numbers: their digit grouping depends on the locale. *)
Record ProgressDetails := {
  pd_complete : bool;
  pd_title : string;
  pd_current_table : Js.Double.t;
  pd_total_tables : Js.Double.t;
  pd_overallPercent : Js.Double.t;
  pd_table_name : string;
  pd_tablePercent : Js.Double.t;
  pd_rows_transferred : Js.Double.t;
  pd_total_rows : Js.Double.t;
  pd_status : string;
  pd_error : option string;
}.

Inductive ProgressBarView :=
| Preparing
| Showing (d : ProgressDetails).

(** [progress.error && ...]: an absent or empty error is not displayed. *)
Definition shownError (e : option string) : option string :=
  match e with
  | Some msg => if decide (msg = "") then None else Some msg
  | None => None
  end.

Definition ProgressBar (progress : option MigrationProgress) : ProgressBarView :=
  match progress with
  | None => Preparing
  | Some p =>
      let overallPercent := percentOf (mp_current_table p) (mp_total_tables p) in
      let tablePercent := percentOf (mp_rows_transferred p) (mp_total_rows p) in
      let complete := bool_decide (mp_status p = "Complete") in
      Showing
        {| pd_complete := complete;
           pd_title := if complete then "Migration complete"
                       else "Migrating: " +:+ mp_table_name p;
           pd_current_table := mp_current_table p;
           pd_total_tables := mp_total_tables p;
           pd_overallPercent := overallPercent;
           pd_table_name := mp_table_name p;
           pd_tablePercent := tablePercent;
           pd_rows_transferred := mp_rows_transferred p;
           pd_total_rows := mp_total_rows p;
           pd_status := mp_status p;
           pd_error := shownError (mp_error p) |}
  end.

(** ** What [App] renders *)

(** [(isMigrating || progress) && <ProgressBar progress={progress} />]. *)
Definition renderProgress (s : AppState) : option ProgressBarView :=
  if isMigrating s || bool_decide (is_Some (progress s))
  then Some (ProgressBar (progress s))
  else None.

(** The result banner.  The success text is kept as its three numbers (their
    formatting depends on the locale); the error text is
    [`Migration failed: ${errors.join(", ")}`]. *)
Inductive Banner :=
| NoBanner
| SuccessBanner (tables_migrated total_rows elapsed_ms : Z)
| ErrorBanner (text : string).

Definition resultBanner (r : MigrationResult) : Banner :=
  if mr_success r
  then SuccessBanner (mr_tables_migrated r) (mr_total_rows r) (mr_elapsed_ms r)
  else ErrorBanner ("Migration failed: " +:+ Js.join ", " (mr_errors r)).

(** [lastResult && !isMigrating && ...]. *)
Definition renderResult (s : AppState) : Banner :=
  match lastResult s with
  | Some r => if isMigrating s then NoBanner else resultBanner r
  | None => NoBanner
  end.

(** [canMigrate] as computed for the panel. *)
Definition canMigrate (s : AppState) : bool :=
  isConnected (sourceConnection s) && isConnected (targetConnection s)
  && bool_decide (0 < size (selectedTables s))%nat.

Definition renderAction (s : AppState) : ActionButton :=
  MigrationPanel_action (isMigrating s) (canMigrate s)
    (Z.of_nat (size (selectedTables s))).

(** ** [ConnectionForm.tsx] *)

Record FormState := {
  isConnecting : bool;
  formError : option string;
  showPassword : bool;
  showSaveDialog : bool;
  connectionName : string;
  showSavedList : bool;
}.

Definition setConnecting (v : bool) (e : option string) (f : FormState) : FormState :=
  {| isConnecting := v; formError := e; showPassword := showPassword f;
     showSaveDialog := showSaveDialog f; connectionName := connectionName f;
     showSavedList := showSavedList f |}.

(** The [onChange] handler of the port field:
    [e.target.value === "" ? 0 : parseInt(e.target.value)]. *)
Definition portOfInput (value : string) : Js.number :=
  if decide (value = "") then Js.of_Z 0 else Js.parseInt value.

(** [{ ...config, port: config.port || 5432 }]. *)
Definition finalConfig (config : ConnectionConfig) : ConnectionConfig :=
  {| cfg_host := cfg_host config;
     cfg_port := Js.or_else (cfg_port config) (Js.of_Z 5432);
     cfg_database := cfg_database config;
     cfg_username := cfg_username config;
     cfg_password := cfg_password config |}.

(** [handleConnect] up to its [await]. *)
Definition handleConnect_begin (config : ConnectionConfig) (f : FormState)
  : FormState * Invocation :=
  (setConnecting true None f, connect_database (finalConfig config)).

(** The calls a form makes on its parent. *)
Inductive FormCallback :=
| onConnect (status : ConnectionStatus)
| onSaveConnection (conn : SavedConnection).

(** [savedConnections.some(c => same host, database and username)]. *)
Definition alreadySaved (config : ConnectionConfig)
    (saved : list SavedConnection) : bool :=
  existsb (λ c, bool_decide (cfg_host (sc_config c) = cfg_host config
                             ∧ cfg_database (sc_config c) = cfg_database config
                             ∧ cfg_username (sc_config c) = cfg_username config))
          saved.

(** [handleConnect] after its [await]: the connection is reported to the
    parent and saved under [`${database} @ ${host}`] when it is new; the saved
    entry keeps the configuration as the user entered it.  [config] and
    [saved] are the props of the render in which Connect was clicked: the
    handler closed over them before the [await]. *)
Definition handleConnect_settle (config : ConnectionConfig)
    (saved : list SavedConnection) (o : Js.Outcome ConnectionStatus)
    (f : FormState) : FormState * list FormCallback :=
  match o with
  | Js.Resolved status =>
      let save :=
        if alreadySaved config saved then []
        else [onSaveConnection
                {| sc_name := cfg_database config +:+ " @ " +:+ cfg_host config;
                   sc_config := config |}] in
      (setConnecting false (formError f) f, onConnect status :: save)
  | Js.Rejected err =>
      (setConnecting false (Some (Js.String_ err)) f, [])
  end.

(** ** The application as a transition system

    The state of the running application is the state of [App], the content
    of local storage, and the promises of backend calls that have not settled
    yet, each with what its continuation closed over.  Every handler runs on
    the state of the latest render: React commits the updates of an event
    before the next event is delivered.  The effects of the first render
    find no connection and empty lists that are already empty. *)

Inductive Pending :=
| PendingMigration (targetId : string)
| PendingSort
| PendingAnalyze
| PendingTables (side : Side)
| PendingSchemas
| PendingCancel.

Inductive Response :=
| MigrationSettled (o : Js.Outcome MigrationResult)
| SortSettled (o : Js.Outcome (list TableRef))
| AnalyzeSettled (o : Js.Outcome (list SchemaDiff))
| TablesSettled (o : Js.Outcome (list TableInfo))
| SchemasSettled (o : Js.Outcome (list string))
| CancelSettled (o : Js.Outcome unit).

Record Sys := {
  app : AppState;
  stored : list SavedConnection;
  pending : list Pending;
}.

Definition initialSys (saved : list SavedConnection) : Sys :=
  {| app := initialState saved; stored := saved; pending := [] |}.

(** What can happen to the application: user input on the rendered
    controls, callbacks of the two connection forms, a progress event of the
    backend, and the settling of the [k]-th pending promise. *)
Inductive Event :=
| ProgressEvent (payload : MigrationProgress)
| ClickMigrate
| ClickCancel
| ClickSwap
| ClickSort
| ClickAnalyze
| SelectionChange (selected : gset string)
| PanelEvent (i : PanelInput)
| TargetSchemaChange (value : string)
| ConfigChange (side : Side) (config : ConnectionConfig)
| FormConnected (side : Side) (status : ConnectionStatus)
| FormDisconnected (side : Side)
| FormSave (conn : SavedConnection)
| FormDelete (name : string)
| Settled (k : nat) (r : Response).

(** The promise created by a call issued from a handler of [App]. *)
Definition closureOf (call : Invocation) : list Pending :=
  match call with
  | start_migration request => [PendingMigration (target_connection_id request)]
  | sort_tables_by_dependency _ _ => [PendingSort]
  | analyze_schema _ _ _ => [PendingAnalyze]
  | cancel_migration => [PendingCancel]
  | _ => []
  end.

(** The promises created by the calls of an effect or of [fetchTables]. *)
Definition fetchClosure (side : Side) (call : Invocation) : list Pending :=
  match call with
  | get_tables _ => [PendingTables side]
  | get_schemas _ => [PendingSchemas]
  | _ => []
  end.

(** The effects run after a render in which their dependency differs from
    its value in the previous render. *)
Definition runEffects (old s : AppState)
  : AppState * list Invocation * list Pending :=
  let '(s1, c1) :=
    if decide (sourceConnection s = sourceConnection old) then (s, [])
    else sourceEffect s in
  let '(s2, c2) :=
    if decide (targetConnection s1 = targetConnection old) then (s1, [])
    else targetEffect s1 in
  (s2, c1 ++ c2, (c1 ≫= fetchClosure Source) ++ (c2 ≫= fetchClosure Target)).

Definition setConnectionOf (side : Side)
  : option ConnectionStatus → AppState → AppState :=
  match side with Source => setSourceConnection | Target => setTargetConnection end.

Definition setConfigOf (side : Side) : ConnectionConfig → AppState → AppState :=
  match side with Source => setSourceConfig | Target => setTargetConfig end.

(** What a handler does when it runs: the state it leaves, the backend calls
    it issues, the promises these create, and what it writes to local
    storage and removes from the pending promises. *)
Record Reaction := {
  nextState : AppState;
  issued : list Invocation;
  created : list Pending;
  written : list SavedConnection;
  remaining : list Pending;
}.

Definition updates (y : Sys) (s' : AppState) : Reaction :=
  {| nextState := s'; issued := []; created := [];
     written := stored y; remaining := pending y |}.

(** The synchronous part of an asynchronous handler: an early [return]
    changes nothing. *)
Definition begins (y : Sys) (r : option (AppState * Invocation)) : Reaction :=
  match r with
  | Some (s', call) =>
      {| nextState := s'; issued := [call]; created := closureOf call;
         written := stored y; remaining := pending y |}
  | None => updates y (app y)
  end.

Definition persists (y : Sys) (r : AppState * list SavedConnection) : Reaction :=
  {| nextState := r.1; issued := []; created := [];
     written := r.2; remaining := pending y |}.

(** The continuation of the promise [p], once removed from the pending
    ones, for the response [r]. *)
Definition settle (y : Sys) (rest : list Pending) (p : Pending) (r : Response)
  : option Reaction :=
  let s := app y in
  let continues s' calls :=
    Some {| nextState := s'; issued := calls;
            created := calls ≫= fetchClosure Target;
            written := stored y; remaining := rest |} in
  match p, r with
  | PendingMigration targetId, MigrationSettled o =>
      let '(s', calls) := handleMigrate_settle targetId o s in continues s' calls
  | PendingSort, SortSettled o => continues (handleSort_settle o s) []
  | PendingAnalyze, AnalyzeSettled o => continues (handleAnalyze_settle o s) []
  | PendingTables side, TablesSettled o => continues (fetchTables_settle side o s) []
  | PendingSchemas, SchemasSettled o =>
      continues (match o with
                 | Js.Resolved l => setTargetSchemas l s
                 | Js.Rejected _ => s
                 end) []
  | PendingCancel, CancelSettled _ => continues s []
  | _, _ => None
  end.

(** The handler an event runs.  [None]: the event cannot happen in this
    state, because the control is not rendered or is disabled, or because
    there is no such promise. *)
Definition react (y : Sys) (e : Event) : option Reaction :=
  let s := app y in
  match e with
  | ProgressEvent payload => Some (updates y (onMigrationProgress payload s))
  | ClickMigrate =>
      match renderAction s with
      | MigrateButton false _ => Some (begins y (handleMigrate_begin s))
      | _ => None
      end
  | ClickCancel =>
      match renderAction s with
      | CancelButton => Some (begins y (Some (s, handleCancel)))
      | _ => None
      end
  | ClickSwap =>
      if isMigrating s then None else Some (updates y (handleSwap s))
  | ClickSort =>
      if isSorting s || bool_decide (size (selectedTables s) = 0%nat) then None
      else Some (begins y (handleSort_begin s))
  | ClickAnalyze =>
      if bool_decide (is_Some (targetConnection s)) && negb (isAnalyzing s)
      then Some (begins y (handleAnalyze_begin s))
      else None
  | SelectionChange selected => Some (updates y (setSelectedTables selected s))
  | PanelEvent i =>
      o ← MigrationPanel_input (options s) i;
      Some (updates y (setOptions o s))
  | TargetSchemaChange value => Some (updates y (setTargetSchema value s))
  | ConfigChange side config => Some (updates y (setConfigOf side config s))
  | FormConnected side status =>
      Some (updates y (setConnectionOf side (Some status) s))
  | FormDisconnected side => Some (updates y (setConnectionOf side None s))
  | FormSave conn => Some (persists y (handleSaveConnection conn s))
  | FormDelete name => Some (persists y (handleDeleteConnection name s))
  | Settled k r =>
      p ← pending y !! k;
      settle y (delete k (pending y)) p r
  end.

(** After the handler, the render: the effects run, and the promises of the
    handler and of the effects join the pending ones. *)
Definition commit (y : Sys) (r : Reaction) : Sys * list Invocation :=
  let '(s2, effectCalls, effectPending) := runEffects (app y) (nextState r) in
  ({| app := s2; stored := written r;
      pending := remaining r ++ created r ++ effectPending |},
   issued r ++ effectCalls).

(** One transition, with the backend calls it issues. *)
Definition step (y : Sys) (e : Event) : option (Sys * list Invocation) :=
  commit y <$> react y e.

(** A run: the events in order, with the log of all backend calls. *)
Fixpoint run (y : Sys) (events : list Event) : option (Sys * list Invocation) :=
  match events with
  | [] => Some (y, [])
  | e :: rest =>
      '(y1, calls1) ← step y e;
      '(y2, calls2) ← run y1 rest;
      Some (y2, calls1 ++ calls2)
  end.

(** The migrations whose promise has not settled. *)
Definition isPendingMigration (p : Pending) : bool :=
  match p with PendingMigration _ => true | _ => false end.

Definition migrations (l : list Pending) : nat :=
  length (filter (λ p, isPendingMigration p = true) l).

Definition inFlight (y : Sys) : nat := migrations (pending y).


(** ** Vocabulary of the statements *)

(** A double is zero, or finite and below [2^B] in absolute value. *)
Definition below (B : Z) (x : Js.Double.t) : Prop :=
  match x with
  | S754_zero _ => True
  | S754_finite _ m e => (Z.pos (digits2_pos m) + e ≤ B)%Z
  | _ => False
  end.

(** [e] occurs in [text] as a contiguous piece. *)
Definition occursIn (e text : string) : Prop :=
  ∃ before after, text = before +:+ e +:+ after.

(** The port values [handleConnect] replaces: no number ([NaN], as for a
    field that does not parse), or zero. *)
Definition portAbsentOrZero (p : Js.number) : Prop :=
  p = Js.NaN ∨ ∃ q, p = Js.Finite q ∧ (q == 0)%Q.

(** Saved connections have pairwise distinct names. *)
Definition uniqueNames (l : list SavedConnection) : Prop :=
  NoDup (sc_name <$> l).

(** A batch size the panel offers. *)
Definition offeredBatchSize (n : Js.number) : Prop :=
  ∃ z, z ∈ batchSizeChoices ∧ n = Js.of_Z z.

(** The fields the effects leave alone: all but the two table lists and the
    target schemas. *)
Definition sameButListings (s s' : AppState) : Prop :=
  sourceConnection s' = sourceConnection s
  ∧ targetConnection s' = targetConnection s
  ∧ sourceConfig s' = sourceConfig s
  ∧ targetConfig s' = targetConfig s
  ∧ savedConnections s' = savedConnections s
  ∧ selectedTables s' = selectedTables s
  ∧ isAnalyzing s' = isAnalyzing s
  ∧ isSorting s' = isSorting s
  ∧ isMigrating s' = isMigrating s
  ∧ progress s' = progress s
  ∧ lastResult s' = lastResult s
  ∧ targetSchema s' = targetSchema s
  ∧ options s' = options s.

Definition isFetch (c : Invocation) : bool :=
  match c with get_tables _ | get_schemas _ => true | _ => false end.

Definition isSortCall (c : Invocation) : bool :=
  match c with sort_tables_by_dependency _ _ => true | _ => false end.

Definition isMigrationCall (c : Invocation) : bool :=
  match c with start_migration _ => true | _ => false end.

(** [start_migration] requests of a log carry an offered batch size. *)
Definition requestsOffered (log : list Invocation) : Prop :=
  ∀ request, start_migration request ∈ log →
    offeredBatchSize (batch_size (req_options request)).

(** The migration flag tells whether a migration is pending, and at most
    one is. *)
Definition flagMatchesFlight (y : Sys) : Prop :=
  inFlight y = if isMigrating (app y) then 1%nat else 0%nat.

(** The order [handleSort] gives to the table list: by position in the
    list returned by the backend. *)
Definition indexOrdered (sorted : list TableRef) (a b : TableInfo) : Prop :=
  (sortIndex (fillSortedMap 0 sorted ∅) a ≤ sortIndex (fillSortedMap 0 sorted ∅) b)%Z.

(** ** Example data used to exercise the statements *)

Definition exampleTable (schema name : string) : TableInfo :=
  {| ti_name := name; ti_schema := schema; ti_row_count := 10;
     ti_size_bytes := 8192; ti_status := None; ti_statusDetails := None |}.

Definition exampleConnection (id : string) : ConnectionStatus :=
  {| cs_id := id; cs_connected := true; cs_database := "shop";
     cs_host := "localhost"; cs_error := None |}.

(** Both databases connected, three source tables listed, two selected. *)
Definition exampleState : AppState :=
  setSelectedTables {[ "public.orders"; "public.users" ]}
    (setSourceTables
       [exampleTable "public" "orders"; exampleTable "public" "items";
        exampleTable "public" "users"]
       (setTargetConnection (Some (exampleConnection "tgt"))
          (setSourceConnection (Some (exampleConnection "src"))
             (initialState [])))).

Definition exampleFailure : MigrationResult :=
  {| mr_success := false; mr_tables_migrated := 1; mr_total_rows := 10;
     mr_errors := ["public.items: relation does not exist"; "cancelled"];
     mr_elapsed_ms := 1200 |}.

Definition exampleSuccess : MigrationResult :=
  {| mr_success := true; mr_tables_migrated := 2; mr_total_rows := 20;
     mr_errors := []; mr_elapsed_ms := 900 |}.

Definition exampleConfig (port : Js.number) : ConnectionConfig :=
  {| cfg_host := "db.internal"; cfg_port := port; cfg_database := "shop";
     cfg_username := "postgres"; cfg_password := "secret" |}.

Definition exampleForm : FormState :=
  {| isConnecting := false; formError := None; showPassword := false;
     showSaveDialog := false; connectionName := ""; showSavedList := false |}.

Definition exampleSaved : list SavedConnection :=
  [ {| sc_name := "shop"; sc_config := exampleConfig (Js.of_Z 5432) |};
    {| sc_name := "archive"; sc_config := exampleConfig (Js.of_Z 5433) |} ].

Definition exampleProgress (rows total : Z) : MigrationProgress :=
  {| mp_table_name := "public.orders";
     mp_current_table := Js.Double.of_Z 1;
     mp_total_tables := Js.Double.of_Z 0;
     mp_rows_transferred := Js.Double.of_Z rows;
     mp_total_rows := Js.Double.of_Z total;
     mp_status := "Migrating"; mp_error := None |}.

(** A snapshot with a table count that is not a number, and with more
    rows than a double can multiply by one hundred. *)
Definition exampleUnguarded : MigrationProgress :=
  {| mp_table_name := "public.orders";
     mp_current_table := Js.Double.NaN;
     mp_total_tables := Js.Double.of_Z 5;
     mp_rows_transferred := Js.Double.of_Z (2 ^ 1023);
     mp_total_rows := Js.Double.of_Z 1;
     mp_status := "Migrating"; mp_error := None |}.

Definition exampleEvents : list Event :=
  [ FormConnected Source (exampleConnection "src");
    FormConnected Target (exampleConnection "tgt");
    Settled 0 (TablesSettled
                 (Js.Resolved [exampleTable "public" "orders";
                               exampleTable "public" "users"]));
    PanelEvent (ChooseBatchSize 3);
    SelectionChange {[ "public.users" ]};
    ClickMigrate ].

Definition exampleMigrating : Sys :=
  {| app := onMigrationProgress (exampleProgress 2 10)
              (setIsMigrating true exampleState);
     stored := []; pending := [PendingMigration "tgt"] |}.

(** The example state as a system at rest. *)
Definition exampleReady : Sys :=
  {| app := exampleState; stored := []; pending := [] |}.

Definition exampleSorted : list TableRef :=
  [ {| tr_schema := "public"; tr_name := "users" |};
    {| tr_schema := "public"; tr_name := "orders" |} ].


(** ** Further JavaScript primitives *)

Module JsText.

(** [String.prototype.toLowerCase] on code units below 256: the letters
    A to Z and the Latin-1 capitals U+00C0 to U+00DE (all but the
    multiplication sign U+00D7) move up by 32; every other code unit below
    256 is its own lower case. *)
Definition lowerChar (c : ascii) : ascii :=
  let n := nat_of_ascii c in
  if (65 <=? n)%nat && (n <=? 90)%nat
     || (192 <=? n)%nat && (n <=? 222)%nat && negb (n =? 215)%nat
  then ascii_of_nat (n + 32) else c.

Fixpoint toLowerCase (s : string) : string :=
  match s with
  | String c s' => String (lowerChar c) (toLowerCase s')
  | EmptyString => EmptyString
  end.

(** [s.includes(sub)]. *)
Fixpoint includes (s sub : string) : bool :=
  if String.prefix sub s then true
  else match s with
       | String _ s' => includes s' sub
       | EmptyString => false
       end.

(** [Array.from(new Set(l))]: the first occurrence of every element, in
    order; [seen] holds the elements already in the set. *)
Fixpoint uniqueFrom (seen : list string) (l : list string) : list string :=
  match l with
  | [] => []
  | x :: l' =>
      if decide (x ∈ seen) then uniqueFrom seen l'
      else x :: uniqueFrom (x :: seen) l'
  end.

(** The comparison of [Array.prototype.sort] without a comparator, on
    strings: by code units. *)
Definition defaultCompare (a b : string) : Z :=
  match String.compare a b with
  | Lt => (-1)%Z
  | Eq => 0%Z
  | Gt => 1%Z
  end.

(** The text a number field shows for an integer, [String(n)]: its decimal
    digits, as long as the integer is below [10^21] in absolute value
    (from there on JavaScript prints an exponent). *)
Definition String_of_Z (n : Z) : string := pretty n.

End JsText.

(** ** [TableList.tsx] *)

(** The options of the schema [<select>]:
    [["all", ...Array.from(new Set(tables.map(t => t.schema))).sort()]]. *)
Definition schemasOf (tables : list TableInfo) : list string :=
  "all" :: Array_sort JsText.defaultCompare
             (JsText.uniqueFrom [] (ti_schema <$> tables)).

(** The predicate of [filteredTables]. *)
Definition matchesFilter (searchQuery selectedSchema : string) (t : TableInfo)
  : bool :=
  let matchesSearch :=
    bool_decide (Js.trim searchQuery = "")
    || JsText.includes (JsText.toLowerCase (ti_name t))
                       (JsText.toLowerCase searchQuery)
    || JsText.includes (JsText.toLowerCase (ti_schema t))
                       (JsText.toLowerCase searchQuery) in
  let matchesSchema :=
    bool_decide (selectedSchema = "all")
    || bool_decide (ti_schema t = selectedSchema) in
  matchesSearch && matchesSchema.

Definition filteredTables (tables : list TableInfo)
    (searchQuery selectedSchema : string) : list TableInfo :=
  filter (λ t, matchesFilter searchQuery selectedSchema t = true) tables.

(** [filteredTables.forEach(t => newSelected.add(key t))]. *)
Definition addAll (selected : gset string) (filtered : list TableInfo)
  : gset string :=
  foldl (λ newSelected t, {[ tableKey t ]} ∪ newSelected) selected filtered.

(** [handleSelectAll]: the selection handed to [onSelectionChange]. *)
Definition handleSelectAll (selectedTables : gset string)
    (filtered : list TableInfo) : gset string :=
  if decide (size selectedTables = length filtered) then ∅
  else addAll selectedTables filtered.

(** [handleToggle]: the selection handed to [onSelectionChange]. *)
Definition handleToggle (selectedTables : gset string) (table : TableInfo)
  : gset string :=
  let key := tableKey table in
  if decide (key ∈ selectedTables) then selectedTables ∖ {[ key ]}
  else {[ key ]} ∪ selectedTables.

(** ** The other handlers of [ConnectionForm.tsx] *)

Definition setSaveDialog (show : bool) (name : string) (f : FormState) : FormState :=
  {| isConnecting := isConnecting f; formError := formError f;
     showPassword := showPassword f; showSaveDialog := show;
     connectionName := name; showSavedList := showSavedList f |}.

(** The click on the bookmark button:
    [setConnectionName(config.database || ""); setShowSaveDialog(true)]. *)
Definition openSaveDialog (config : ConnectionConfig) (f : FormState) : FormState :=
  setSaveDialog true (cfg_database config) f.


(** [handleDisconnect] up to its [await]: nothing without a connection. *)
Definition handleDisconnect_begin (connection : option ConnectionStatus)
  : option Invocation :=
  match connection with
  | Some c => Some (disconnect_database (cs_id c))
  | None => None
  end.

(** The event a callback of the form on side [side] is for [App]. *)
Definition deliver (side : Side) (c : FormCallback) : Event :=
  match c with
  | onConnect status => FormConnected side status
  | onSaveConnection conn => FormSave conn
  end.

(** [handleDisconnect] after its [await]: [onDisconnect()] is called in the
    [try] block and in the [catch] block alike. *)
Definition handleDisconnect_settle (side : Side) (o : Js.Outcome unit) : Event :=
  match o with
  | Js.Resolved _ => FormDisconnected side
  | Js.Rejected _ => FormDisconnected side
  end.

(** What the port field shows, [config.port || ""], for an integer port. *)
Definition portFieldText (port : Z) : string :=
  if Js.truthy (Js.of_Z port) then JsText.String_of_Z port else "".

(** ** Vocabulary of the further statements *)

Definition isPendingSort (p : Pending) : bool :=
  match p with PendingSort => true | _ => false end.

Definition isPendingAnalyze (p : Pending) : bool :=
  match p with PendingAnalyze => true | _ => false end.

Definition countPending (kind : Pending → bool) (l : list Pending) : nat :=
  length (filter (λ p, kind p = true) l).

(** Every character of the string is white space. *)
Definition blank (s : string) : Prop := Js.trimStart s = "".

(** The string has no dot. *)
Fixpoint dotless (s : string) : bool :=
  match s with
  | String c s' => negb (bool_decide (c = "."%char)) && dotless s'
  | EmptyString => true
  end.

(** ** Further example data *)

(** A migration has ended with a failure; nothing is pending. *)
Definition exampleFinished : Sys :=
  {| app := setLastResult (Some exampleFailure) exampleState;
     stored := []; pending := [] |}.

Definition connectionOf (side : Side) (s : AppState) : option ConnectionStatus :=
  match side with Source => sourceConnection s | Target => targetConnection s end.

Definition tablesOf (side : Side) (s : AppState) : list TableInfo :=
  match side with Source => sourceTables s | Target => targetTables s end.

Definition otherSide (side : Side) : Side :=
  match side with Source => Target | Target => Source end.

(** The calls of the effect of a side for a connected database. *)
Definition listingCalls (side : Side) (connectionId : string) : list Invocation :=
  match side with
  | Source => [get_tables connectionId]
  | Target => [get_tables connectionId; get_schemas connectionId]
  end.

(** A diff is about a table: same schema and same name. *)
Definition diffOf (t : TableInfo) (d : SchemaDiff) : Prop :=
  sd_schema d = ti_schema t ∧ sd_table d = ti_name t.

Definition exampleDiffs : list SchemaDiff :=
  [ {| sd_schema := "public"; sd_table := "users"; sd_status := MATCH;
       sd_details := None |};
    {| sd_schema := "public"; sd_table := "orders";
       sd_status := COLUMNS_MISMATCH; sd_details := Some "total: numeric" |} ].

(** The selection keys of a list of tables, as a set. *)
Definition keysOf (tables : list TableInfo) : gset string :=
  list_to_set (tableKey <$> tables).

(** Every character is white space, as a test. *)
Fixpoint allWhitespace (s : string) : bool :=
  match s with
  | String c s' => Js.is_whitespace c && allWhitespace s'
  | EmptyString => true
  end.

(** The string is empty or starts with a character that is not white
    space; likewise for its end. *)
Definition startsClean (s : string) : Prop :=
  match s with
  | String c _ => Js.is_whitespace c = false
  | EmptyString => True
  end.

Definition endsClean (s : string) : Prop := startsClean (String.rev s).

(** The name under which [handleConnect] saves a new connection. *)
Definition autoName (config : ConnectionConfig) : string :=
  cfg_database config +:+ " @ " +:+ cfg_host config.
(** * Properties *)

(** ** The transition system *)

Lemma sameButListings_refl s : sameButListings s s.
Proof. by repeat split. Qed.

Lemma runEffects_spec old s :
  ∃ s2 ec ep,
    runEffects old s = (s2, ec, ep)
    ∧ sameButListings s s2
    ∧ Forall (λ c, isFetch c = true) ec
    ∧ Forall (λ p, isPendingMigration p = false) ep.
Proof.
  unfold runEffects, sourceEffect, targetEffect.
  repeat (case_decide || case_match || simplify_eq/=);
    eexists _, _, _; (split; [done|]);
    (split; [by repeat split|]); split; repeat constructor.
Qed.

Lemma runEffects_idle old s :
  sourceConnection s = sourceConnection old →
  targetConnection s = targetConnection old →
  runEffects old s = (s, [], []).
Proof.
  intros Hs Ht. unfold runEffects.
  rewrite decide_True by done. by rewrite decide_True.
Qed.

(** Every transition is a reaction followed by the effects. *)
Lemma step_inv y e y' calls :
  step y e = Some (y', calls) →
  ∃ r ec ep,
    react y e = Some r
    ∧ sameButListings (nextState r) (app y')
    ∧ stored y' = written r
    ∧ pending y' = remaining r ++ created r ++ ep
    ∧ calls = issued r ++ ec
    ∧ Forall (λ c, isFetch c = true) ec
    ∧ Forall (λ p, isPendingMigration p = false) ep.
Proof.
  unfold step. destruct (react y e) as [r|]; [|done]. simpl.
  unfold commit.
  destruct (runEffects_spec (app y) (nextState r))
    as (s2 & ec & ep & -> & Hsame & Hec & Hep).
  intros [= <- <-]. by exists r, ec, ep.
Qed.

(** A run of the example: both databases are connected, the source
    tables arrive, a batch size and a table are chosen, and the migration
    is started. *)
Lemma exampleEvents_run :
  ∃ y request,
    run (initialSys []) exampleEvents
    = Some (y, [get_tables "src"; get_tables "tgt"; get_schemas "tgt";
                start_migration request])
    ∧ isMigrating (app y) = true
    ∧ batch_size (req_options request) = Js.of_Z 50000.
Proof. eexists _, _. vm_compute. repeat split. Qed.

(** ** The request of [handleMigrate] *)

Lemma handleMigrate_request (s s' : AppState) (req : MigrationRequest) :
  handleMigrate_begin s = Some (s', start_migration req) →
  req_tables req = selectedRefs (sourceTables s) (selectedTables s)
  ∧ req_options req = options s.
Proof.
  unfold handleMigrate_begin. intros H.
  destruct (sourceConnection s) as [src|]; [|done].
  destruct (targetConnection s) as [tgt|]; [|done].
  case_decide; [done|]. by simplify_eq.
Qed.

(** C1: the [tables] of the [start_migration] request built by
    [handleMigrate] are the selected tables of the current [sourceTables],
    in the order of [sourceTables]: the request holds the filter of the list
    and nothing is re-sorted. *)
Theorem handleMigrate_tables_order (s s' : AppState) (req : MigrationRequest) :
  handleMigrate_begin s = Some (s', start_migration req) →
  req_tables req
    = toRef <$> filter (λ t, tableKey t ∈ selectedTables s) (sourceTables s)
  ∧ req_tables req `sublist_of` (toRef <$> sourceTables s).
Proof.
  intros [-> _]%handleMigrate_request. split; [done|].
  unfold selectedRefs. apply fmap_sublist, sublist_filter.
Qed.

Lemma handleMigrate_tables_order_witness :
  ∃ s' req,
    handleMigrate_begin exampleState = Some (s', start_migration req)
    ∧ req_tables req
      = [ {| tr_schema := "public"; tr_name := "orders" |};
          {| tr_schema := "public"; tr_name := "users" |} ].
Proof.
  assert (∃ s' req, handleMigrate_begin exampleState
                    = Some (s', start_migration req)) as (s' & req & Hbegin).
  { eexists _, _. vm_compute. reflexivity. }
  exists s', req. split; [exact Hbegin|].
  rewrite (proj1 (handleMigrate_tables_order exampleState s' req Hbegin)).
  vm_compute. reflexivity.
Defined.

(** ** Failure of [start_migration] *)

Lemma append_assoc (a b c : string) : (a +:+ b) +:+ c = a +:+ b +:+ c.
Proof.
  induction a as [|ch a IH]; [done|].
  change (String ch ((a +:+ b) +:+ c) = String ch (a +:+ b +:+ c)).
  by rewrite IH.
Qed.

Lemma append_empty_r (a : string) : a +:+ "" = a.
Proof.
  induction a as [|ch a IH]; [done|].
  change (String ch (a +:+ "") = String ch a). by rewrite IH.
Qed.

Lemma occursIn_here e after : occursIn e (e +:+ after).
Proof. exists "", after. done. Qed.

Lemma occursIn_later e before text : occursIn e text → occursIn e (before +:+ text).
Proof.
  intros (b & a & ->). exists (before +:+ b), a.
  by rewrite append_assoc.
Qed.

Lemma occursIn_refl e : occursIn e e.
Proof. exists "", "". simpl. by rewrite append_empty_r. Qed.

(** Every joined entry occurs in the joined text. *)
Lemma join_lists_every_entry sep (l : list string) e :
  e ∈ l → occursIn e (Js.join sep l).
Proof.
  induction l as [|x l IH]; [by intros ?%elem_of_nil|].
  intros [->|Hin]%elem_of_cons.
  - destruct l; simpl; [apply occursIn_refl | apply occursIn_here].
  - destruct l as [|y l]; [by apply elem_of_nil in Hin|].
    change (Js.join sep (x :: y :: l))
      with (x +:+ sep +:+ Js.join sep (y :: l)).
    by apply occursIn_later, occursIn_later, IH.
Qed.

(** C2: when [start_migration] rejects, the application leaves the
    migrating state with a result whose [success] is false and whose
    [errors] hold the message of the failure, and shows the error banner;
    the error banner of any failed result lists every entry of [errors];
    and after a run the success banner is shown only if the call resolved
    with a result whose [success] is true. *)
Theorem migration_failure_reported :
  (∀ targetId error s,
     let s' := (handleMigrate_settle targetId (Js.Rejected error) s).1 in
     ∃ r, lastResult s' = Some r
          ∧ mr_success r = false
          ∧ Js.String_ error ∈ mr_errors r
          ∧ isMigrating s' = false
          ∧ renderResult s' = ErrorBanner ("Migration failed: " +:+ Js.String_ error))
  ∧ (∀ r, mr_success r = false →
       ∃ text, resultBanner r = ErrorBanner text
               ∧ ∀ e, e ∈ mr_errors r → occursIn e text)
  ∧ (∀ targetId o s a b c,
       renderResult (handleMigrate_settle targetId o s).1 = SuccessBanner a b c →
       ∃ r, o = Js.Resolved r ∧ mr_success r = true).
Proof.
  split; [|split].
  - intros targetId error s. simpl. eexists. split; [done|].
    repeat split. simpl. by apply list_elem_of_singleton.
  - intros r Hr. unfold resultBanner. rewrite Hr. eexists. split; [done|].
    intros e He. by apply occursIn_later, join_lists_every_entry.
  - intros targetId [r|e] s a b c; unfold renderResult, resultBanner; simpl.
    + destruct (mr_success r) eqn:Hr; [eauto|done].
    + done.
Qed.

Lemma migration_failure_reported_witness :
  (∃ text, resultBanner exampleFailure = ErrorBanner text
           ∧ occursIn "cancelled" text)
  ∧ ∃ r, Js.Resolved exampleSuccess = Js.Resolved r ∧ mr_success r = true.
Proof.
  destruct migration_failure_reported as (_ & Hlist & Hsuccess). split.
  - destruct (Hlist exampleFailure eq_refl) as (text & Hb & Hall).
    exists text. split; [exact Hb|]. apply Hall. vm_compute.
    apply list_elem_of_further, list_elem_of_here.
  - exact (Hsuccess "tgt" (Js.Resolved exampleSuccess) exampleState
                    2%Z 20%Z 900%Z eq_refl).
Defined.

(** ** The port sent by the connection form *)

(** C5: the configuration sent to [connect_database] carries port 5432
    when the configured port is absent (no number) or zero, and the
    configured port otherwise; the other fields are sent as they are.  An
    emptied port field is such a zero. *)
Theorem handleConnect_default_port (config : ConnectionConfig) (f : FormState) :
  ∃ sent,
    (handleConnect_begin config f).2 = connect_database sent
    ∧ (portAbsentOrZero (cfg_port config) → cfg_port sent = Js.of_Z 5432)
    ∧ (¬ portAbsentOrZero (cfg_port config) → cfg_port sent = cfg_port config)
    ∧ cfg_host sent = cfg_host config
    ∧ cfg_database sent = cfg_database config
    ∧ cfg_username sent = cfg_username config
    ∧ cfg_password sent = cfg_password config
    ∧ portAbsentOrZero (portOfInput "").
Proof.
  exists (finalConfig config). split; [done|]. simpl.
  unfold Js.or_else, portAbsentOrZero. repeat split.
  - intros [->|(q & -> & Hq)]; [done|]. simpl.
    by rewrite (proj2 (Qeq_bool_iff q 0) Hq).
  - intros Hn. destruct (cfg_port config) as [| |q]; simpl; [|done|].
    + destruct Hn. by left.
    + destruct (Qeq_bool q 0) eqn:Hq; [|done].
      destruct Hn. right. exists q. split; [done|]. by apply Qeq_bool_iff.
  - right. exists (inject_Z 0). split; [done|]. reflexivity.
Qed.

Lemma handleConnect_default_port_witness :
  (∃ sent, (handleConnect_begin (exampleConfig (Js.of_Z 0)) exampleForm).2
           = connect_database sent
           ∧ cfg_port sent = Js.of_Z 5432)
  ∧ (∃ sent, (handleConnect_begin (exampleConfig (Js.of_Z 6543)) exampleForm).2
             = connect_database sent
             ∧ cfg_port sent = Js.of_Z 6543).
Proof.
  split.
  - destruct (handleConnect_default_port (exampleConfig (Js.of_Z 0)) exampleForm)
      as (sent & Hcall & Hzero & _).
    exists sent. split; [exact Hcall|]. apply Hzero.
    right. exists (inject_Z 0). split; reflexivity.
  - destruct (handleConnect_default_port (exampleConfig (Js.of_Z 6543)) exampleForm)
      as (sent & Hcall & _ & Hother & _).
    exists sent. split; [exact Hcall|]. apply Hother.
    intros [H|(q & H & Hq)]; [discriminate H|].
    injection H as <-. vm_compute in Hq. discriminate Hq.
Defined.

(** ** Saved connections *)

Lemma uniqueNames_filter (P : SavedConnection → Prop) `{!∀ c, Decision (P c)}
    (l : list SavedConnection) :
  uniqueNames l → uniqueNames (filter P l).
Proof.
  unfold uniqueNames. intros Hl.
  eapply sublist_NoDup; [exact Hl|]. apply fmap_sublist, sublist_filter.
Qed.

Lemma saveConnection_unique newConnection prev :
  uniqueNames prev → uniqueNames (saveConnection newConnection prev).
Proof.
  intros Hprev. unfold saveConnection, uniqueNames.
  rewrite fmap_app. apply NoDup_app. split; [|split].
  - by apply uniqueNames_filter.
  - intros name (c & -> & [Hc _]%list_elem_of_filter)%list_elem_of_fmap.
    simpl. by intros Heq%list_elem_of_singleton.
  - simpl. apply NoDup_singleton.
Qed.

Lemma deleteConnection_unique name prev :
  uniqueNames prev → uniqueNames (deleteConnection name prev).
Proof. apply uniqueNames_filter. Qed.

(** The saved connections of the state are those of local storage, with
    distinct names, along every run that starts so. *)
Lemma step_savedUnique y e y' calls :
  uniqueNames (savedConnections (app y)) ∧ stored y = savedConnections (app y) →
  step y e = Some (y', calls) →
  uniqueNames (savedConnections (app y')) ∧ stored y' = savedConnections (app y').
Proof.
  intros [Hu Hs] Hstep.
  destruct (step_inv _ _ _ _ Hstep) as (r & ec & ep & Hr & Hsame & -> & _).
  destruct Hsame as (_ & _ & _ & _ & -> & _).
  destruct e as [payload| | | | | |selected|i|value|side config|side status
                |side|conn|name|k resp];
    simpl in Hr; repeat case_match; simplify_eq; simpl; try done;
    try (by destruct side).
  - unfold handleMigrate_begin. repeat (case_match || case_decide); done.
  - unfold handleSort_begin. repeat (case_match || case_decide); done.
  - unfold handleAnalyze_begin. repeat case_match; done.
  - destruct (MigrationPanel_input (options (app y)) i); simpl in Hr; [|done].
    by simplify_eq.
  - split; [by apply saveConnection_unique|done].
  - split; [by apply deleteConnection_unique|done].
  - destruct (pending y !! k) as [p|]; [|done]. simpl in Hr.
    destruct p, resp; simpl in Hr; try done;
      unfold handleMigrate_settle in Hr;
      repeat case_match; simplify_eq; simpl; try done.
    + by destruct o.
    + by destruct o.
    + by destruct o, side.
Qed.

Lemma run_savedUnique prev events y log :
  uniqueNames prev →
  run (initialSys prev) events = Some (y, log) →
  uniqueNames (savedConnections (app y)) ∧ stored y = savedConnections (app y).
Proof.
  intros Hprev.
  assert (uniqueNames (savedConnections (app (initialSys prev)))
          ∧ stored (initialSys prev) = savedConnections (app (initialSys prev)))
    as Hinit by done.
  revert Hinit. generalize (initialSys prev). clear Hprev.
  revert log. induction events as [|e events IH]; intros log y0 Hinv Hrun.
  - simpl in Hrun. by simplify_eq.
  - simpl in Hrun.
    destruct (step y0 e) as [[y1 c1]|] eqn:Hstep; [|done]. simpl in Hrun.
    destruct (run y1 events) as [[y2 c2]|] eqn:Hrest; [|done].
    simpl in Hrun. simplify_eq.
    eapply IH; [|exact Hrest]. by eapply step_savedUnique.
Qed.

(** C8: on a list with pairwise distinct names, saving keeps the names
    distinct and leaves exactly one entry of the saved name, the new one,
    with the entries of other names kept; deleting only removes entries and
    keeps the names distinct as well. *)
Theorem savedConnections_unique_names (prev : list SavedConnection) :
  uniqueNames prev →
  (∀ newConnection s,
     savedConnections s = prev →
     let '(s', written) := handleSaveConnection newConnection s in
     savedConnections s' = written
     ∧ uniqueNames written
     ∧ newConnection ∈ written
     ∧ (∀ c, c ∈ written → sc_name c = sc_name newConnection → c = newConnection)
     ∧ (∀ c, sc_name c ≠ sc_name newConnection → c ∈ written ↔ c ∈ prev))
  ∧ (∀ name s,
       savedConnections s = prev →
       let '(s', written) := handleDeleteConnection name s in
       savedConnections s' = written
       ∧ uniqueNames written
       ∧ written `sublist_of` prev
       ∧ (∀ c, c ∈ written → sc_name c ≠ name))
  ∧ (∀ events y log,
       run (initialSys prev) events = Some (y, log) →
       uniqueNames (savedConnections (app y))
       ∧ stored y = savedConnections (app y)).
Proof.
  intros Hprev. split; [|split];
    [| |intros events y log Hrun; by eapply run_savedUnique].
  - intros newConnection s <-. simpl. split; [done|].
    split; [by apply saveConnection_unique|]. unfold saveConnection.
    split; [set_solver|]. split.
    + intros c [[Hne _]%list_elem_of_filter| ->%list_elem_of_singleton]%elem_of_app;
        done.
    + intros c Hne. rewrite elem_of_app, list_elem_of_filter, list_elem_of_singleton.
      split; [intros [[_ ?]| ->]; done | eauto].
  - intros name s <-. simpl. split; [done|].
    split; [by apply deleteConnection_unique|]. unfold deleteConnection.
    split; [apply sublist_filter|].
    by intros c [? _]%list_elem_of_filter.
Qed.

Lemma savedConnections_unique_names_witness :
  uniqueNames
    (saveConnection {| sc_name := "shop"; sc_config := exampleConfig (Js.of_Z 6543) |}
                    exampleSaved)
  ∧ uniqueNames (deleteConnection "archive" exampleSaved).
Proof.
  assert (uniqueNames exampleSaved) as Hex.
  { unfold uniqueNames. simpl. apply NoDup_cons. split.
    - intros Hin%list_elem_of_singleton. discriminate Hin.
    - apply NoDup_singleton. }
  destruct (savedConnections_unique_names exampleSaved Hex)
    as (Hsave & Hdelete & _).
  split.
  - exact (proj1 (proj2 (Hsave {| sc_name := "shop";
                                  sc_config := exampleConfig (Js.of_Z 6543) |}
                               (initialState exampleSaved) eq_refl))).
  - exact (proj1 (proj2 (Hdelete "archive" (initialState exampleSaved) eq_refl))).
Defined.

(** ** Swapping source and target *)

(** C9: [handleSwap] exchanges the two connections, the two configurations
    and the two table lists and empties the selection; swapping twice gives
    back the connections, configurations and table lists, with the selection
    empty after each swap.  In the running application the swap is possible
    only while no migration runs, and the effects that follow it keep the
    exchanged connections and configurations and the empty selection. *)
Theorem handleSwap_exchanges :
  (∀ s,
     let s1 := handleSwap s in
     let s2 := handleSwap s1 in
     (sourceConnection s1 = targetConnection s
      ∧ targetConnection s1 = sourceConnection s
      ∧ sourceConfig s1 = targetConfig s
      ∧ targetConfig s1 = sourceConfig s
      ∧ sourceTables s1 = targetTables s
      ∧ targetTables s1 = sourceTables s
      ∧ selectedTables s1 = ∅)
     ∧ (sourceConnection s2 = sourceConnection s
        ∧ targetConnection s2 = targetConnection s
        ∧ sourceConfig s2 = sourceConfig s
        ∧ targetConfig s2 = targetConfig s
        ∧ sourceTables s2 = sourceTables s
        ∧ targetTables s2 = targetTables s
        ∧ selectedTables s2 = ∅)
     ∧ s2 = setSelectedTables ∅ s)
  ∧ (∀ y y' calls,
       step y ClickSwap = Some (y', calls) →
       isMigrating (app y) = false
       ∧ sourceConnection (app y') = targetConnection (app y)
       ∧ targetConnection (app y') = sourceConnection (app y)
       ∧ sourceConfig (app y') = targetConfig (app y)
       ∧ targetConfig (app y') = sourceConfig (app y)
       ∧ selectedTables (app y') = ∅).
Proof.
  split.
  - intros s. destruct s. simpl. repeat split.
  - intros y y' calls Hstep.
    destruct (step_inv _ _ _ _ Hstep) as (r & ec & ep & Hr & Hsame & _).
    simpl in Hr. destruct (isMigrating (app y)); [done|]. simplify_eq.
    destruct Hsame as (-> & -> & -> & -> & _ & -> & _). by repeat split.
Qed.

Lemma handleSwap_exchanges_witness :
  ∃ y' calls,
    step {| app := exampleState; stored := []; pending := [] |} ClickSwap
    = Some (y', calls)
    ∧ sourceConnection (app y') = Some (exampleConnection "tgt")
    ∧ selectedTables (app y') = ∅.
Proof.
  assert (∃ y' calls,
            step {| app := exampleState; stored := []; pending := [] |} ClickSwap
            = Some (y', calls)) as (y' & calls & Hstep).
  { eexists _, _. vm_compute. reflexivity. }
  exists y', calls. split; [exact Hstep|].
  destruct (proj2 handleSwap_exchanges _ _ _ Hstep) as (_ & Hsrc & _ & _ & _ & Hsel).
  split; [exact Hsrc | exact Hsel].
Defined.

(** ** The progress bar *)

(** *** Rounding never invents a NaN *)

Lemma shr_1_nonneg mrs : (0 ≤ shr_m mrs)%Z → (0 ≤ shr_m (shr_1 mrs))%Z.
Proof. destruct mrs as [[|[p|p|]|p] r s]; simpl; lia. Qed.

Lemma iter_shr_1_nonneg p mrs :
  (0 ≤ shr_m mrs)%Z → (0 ≤ shr_m (SpecFloat.iter_pos shr_1 p mrs))%Z.
Proof.
  revert mrs. induction p as [p IH|p IH|]; intros mrs Hm; simpl.
  - by apply IH, IH, shr_1_nonneg.
  - by apply IH, IH.
  - by apply shr_1_nonneg.
Qed.

Lemma shr_fexp_nonneg m e l :
  (0 ≤ m)%Z → (0 ≤ shr_m (shr_fexp Js.Double.prec Js.Double.emax m e l).1)%Z.
Proof.
  intros Hm. unfold shr_fexp.
  generalize (fexp Js.Double.prec Js.Double.emax (Zdigits2 m + e) - e)%Z.
  intros n.
  assert (0 ≤ shr_m (shr_record_of_loc m l))%Z as Hrec by by destruct l as [|[]].
  unfold shr. destruct n as [|p|p]; cbn [fst]; try done.
  by apply iter_shr_1_nonneg.
Qed.

Lemma round_nearest_even_nonneg m l :
  (0 ≤ m)%Z → (0 ≤ round_nearest_even m l)%Z.
Proof. intros Hm. destruct l as [|[]]; simpl; try case_match; lia. Qed.

Lemma binary_round_aux_not_NaN sx mx ex lx :
  (0 ≤ mx)%Z →
  Js.Double.is_NaN (binary_round_aux Js.Double.prec Js.Double.emax sx mx ex lx)
  = false.
Proof.
  intros Hm. unfold binary_round_aux.
  pose proof (shr_fexp_nonneg mx ex lx Hm) as H1.
  destruct (shr_fexp _ _ mx ex lx) as [mrs' e']. simpl in H1.
  pose proof (shr_fexp_nonneg _ e' loc_Exact
                (round_nearest_even_nonneg _ (loc_of_shr_record mrs') H1)) as H2.
  destruct (shr_fexp _ _ _ e' loc_Exact) as [mrs'' e'']. simpl in H2.
  destruct (shr_m mrs'') as [|m|m]; [done| |lia].
  by case_match.
Qed.

Lemma of_Z_not_NaN z : Js.Double.is_NaN (Js.Double.of_Z z) = false.
Proof.
  destruct z as [|p|p]; [done|..];
    unfold Js.Double.of_Z, binary_normalize, binary_round;
    destruct (shl_align _ _ _) as [mz ez];
    by apply binary_round_aux_not_NaN.
Qed.

(** *** The quotient, the product and the rounding of a percentage *)

Lemma div_is_NaN a b :
  Js.Double.is_NaN (Js.Double.div a b)
  = Js.Double.is_NaN a || Js.Double.is_NaN b
    || Js.Double.is_infinite a && Js.Double.is_infinite b
    || Js.Double.is_zero a && Js.Double.is_zero b.
Proof.
  destruct a as [sa|sa| |sa ma ea], b as [sb|sb| |sb mb eb]; try done.
  - change (Js.Double.is_NaN (Js.Double.div (S754_finite sa ma ea)
                                            (S754_finite sb mb eb)) = false).
    unfold Js.Double.div, SFdiv.
    destruct (SFdiv_core_binary _ _ _ _ _ _) as [[mz ez] lz] eqn:Hcore.
    apply binary_round_aux_not_NaN.
    unfold SFdiv_core_binary in Hcore.
    destruct (Z.div_eucl _ (Z.pos mb)) as [q r] eqn:Hq.
    injection Hcore as <- _ _.
    match type of Hq with Z.div_eucl ?n _ = _ =>
      assert (0 ≤ n)%Z as Hn; [|
        pose proof (Z.div_eucl_eq n (Z.pos mb) ltac:(done)) as Heq;
        pose proof (Z.mod_pos_bound n (Z.pos mb) ltac:(done)) as Hr;
        unfold Z.modulo in Hr; rewrite Hq in Heq, Hr; nia]
    end.
    case_match; try done. by apply Z.shiftl_nonneg.
Qed.

Lemma mul_hundred_is_NaN x :
  Js.Double.is_NaN (Js.Double.mul x (Js.Double.of_Z 100)) = Js.Double.is_NaN x.
Proof.
  destruct x as [s|s| |s m e]; try done.
  by apply binary_round_aux_not_NaN.
Qed.

Lemma Math_round_is_NaN x :
  Js.Double.is_NaN (Js.Double.Math_round x) = Js.Double.is_NaN x.
Proof.
  destruct x as [s|s| |s m e]; try done. simpl.
  repeat case_match; try done. apply of_Z_not_NaN.
Qed.

(** A total that is not above zero, NaN included, gives the percentage 0. *)
Lemma percentOf_guard part total :
  Js.Double.gt total (Js.Double.of_Z 0) = false →
  percentOf part total = Js.Double.of_Z 0.
Proof. intros Hgt. unfold percentOf. by rewrite Hgt. Qed.

Lemma gt_zero_negative z :
  (z ≤ 0)%Z → Js.Double.gt (Js.Double.of_Z z) (Js.Double.of_Z 0) = false.
Proof.
  intros Hz. destruct z as [|p|p]; [done|lia|].
  unfold Js.Double.of_Z, binary_normalize, binary_round.
  destruct (shl_align _ _ _) as [mz ez]. unfold binary_round_aux.
  destruct (shr_fexp _ _ (Z.pos mz) ez loc_Exact) as [mrs' e'].
  destruct (shr_fexp _ _ _ e' loc_Exact) as [mrs'' e''].
  by repeat case_match.
Qed.

Lemma percentOf_is_NaN part total :
  Js.Double.is_NaN (percentOf part total) = true
  ↔ Js.Double.gt total (Js.Double.of_Z 0) = true
    ∧ (Js.Double.is_NaN part = true
       ∨ Js.Double.is_infinite part = true ∧ Js.Double.is_infinite total = true).
Proof.
  unfold percentOf.
  destruct (Js.Double.gt total (Js.Double.of_Z 0)) eqn:Hgt.
  - rewrite Math_round_is_NaN, mul_hundred_is_NaN, div_is_NaN.
    destruct total as [st|st| |st mt et]; try done;
      destruct part as [sp|sp| |sp mp ep]; simpl;
      (split; [intros ?; split; [done|]; auto|]);
      try done; try (by intros [_ [?|[??]]]).
  - split; [done|]. by intros [? _].
Qed.

(** *** Magnitudes *)

Lemma fexp_eq e : fexp Js.Double.prec Js.Double.emax e = Z.max (e - 53) (-1074).
Proof. reflexivity. Qed.

Lemma digits2_pos_bounds p :
  (2 ^ (Z.pos (digits2_pos p) - 1) ≤ Z.pos p < 2 ^ Z.pos (digits2_pos p))%Z.
Proof.
  induction p as [p IH|p IH|]; simpl digits2_pos; [| |done];
    rewrite Pos2Z.inj_succ;
    replace (Z.succ (Z.pos (digits2_pos p)) - 1)%Z
      with (Z.succ (Z.pos (digits2_pos p) - 1)) by lia;
    rewrite !Z.pow_succ_r by lia; lia.
Qed.

Lemma Zdigits2_nonneg m : (0 ≤ Zdigits2 m)%Z.
Proof. by destruct m. Qed.

Lemma Zdigits2_upper m : (0 ≤ m)%Z → (m < 2 ^ Zdigits2 m)%Z.
Proof.
  intros Hm. destruct m as [|p|p]; [done| |lia].
  apply digits2_pos_bounds.
Qed.

Lemma Zdigits2_le m k :
  (0 ≤ m)%Z → (0 ≤ k)%Z → (m < 2 ^ k)%Z → (Zdigits2 m ≤ k)%Z.
Proof.
  intros Hm Hk Hlt. destruct m as [|p|p]; [done| |lia].
  pose proof (digits2_pos_bounds p) as [Hlow _]. simpl.
  assert (2 ^ (Z.pos (digits2_pos p) - 1) < 2 ^ k)%Z as Hpow by lia.
  apply Z.pow_lt_mono_r_iff in Hpow; lia.
Qed.

Lemma shr_1_div mrs :
  (0 ≤ shr_m mrs)%Z → shr_m (shr_1 mrs) = (shr_m mrs `div` 2)%Z.
Proof.
  intros Hm. rewrite <-Z.div2_div.
  destruct mrs as [[|[p|p|]|p] r s]; simpl in *; done || lia.
Qed.

Lemma iter_shr_1_div p mrs :
  (0 ≤ shr_m mrs)%Z →
  shr_m (SpecFloat.iter_pos shr_1 p mrs) = (shr_m mrs `div` 2 ^ Z.pos p)%Z.
Proof.
  revert mrs. induction p as [p IH|p IH|]; intros mrs Hm; simpl SpecFloat.iter_pos.
  - assert (0 < 2 ^ Z.pos p)%Z as HP by (apply Z.pow_pos_nonneg; lia).
    assert (0 ≤ shr_m (shr_1 mrs))%Z as H1
      by (rewrite shr_1_div by done; apply Z.div_pos; lia).
    assert (0 ≤ shr_m (SpecFloat.iter_pos shr_1 p (shr_1 mrs)))%Z as H2
      by (rewrite IH by done; apply Z.div_pos; lia).
    rewrite IH, IH, shr_1_div by done.
    replace (Z.pos p~1) with (1 + (Z.pos p + Z.pos p))%Z by lia.
    rewrite !Z.pow_add_r, Z.pow_1_r by lia.
    rewrite !Z.div_div by lia. done.
  - assert (0 < 2 ^ Z.pos p)%Z as HP by (apply Z.pow_pos_nonneg; lia).
    assert (0 ≤ shr_m (SpecFloat.iter_pos shr_1 p mrs))%Z as H2
      by (rewrite IH by done; apply Z.div_pos; lia).
    rewrite IH, IH by done.
    replace (Z.pos p~0) with (Z.pos p + Z.pos p)%Z by lia.
    rewrite !Z.pow_add_r by lia.
    rewrite !Z.div_div by lia. done.
  - by rewrite shr_1_div, Z.pow_1_r.
Qed.

(** The first component of [shr_fexp]: the significand is divided by a
    power of two and the exponent raised to the canonical one. *)
Lemma shr_fexp_spec m e l :
  (0 ≤ m)%Z →
  let e' := Z.max e (Z.max (Zdigits2 m + e - 53) (-1074)) in
  (shr_fexp Js.Double.prec Js.Double.emax m e l).2 = e'
  ∧ shr_m (shr_fexp Js.Double.prec Js.Double.emax m e l).1
    = (m `div` 2 ^ (e' - e))%Z.
Proof.
  intros Hm e'. unfold shr_fexp. rewrite fexp_eq. fold e'.
  assert (shr_m (shr_record_of_loc m l) = m) as Hrec by by destruct l as [|[]].
  unfold shr.
  destruct (Z.max (Zdigits2 m + e - 53) (-1074) - e)%Z as [|p|p] eqn:Hn;
    cbn [fst snd].
  - replace (e' - e)%Z with 0%Z by lia.
    rewrite Hrec, Z.pow_0_r, Z.div_1_r. split; [lia|done].
  - replace (e' - e)%Z with (Z.pos p) by lia.
    rewrite iter_shr_1_div, Hrec by lia. split; [lia|done].
  - replace (e' - e)%Z with 0%Z by lia.
    rewrite Hrec, Z.pow_0_r, Z.div_1_r. split; [lia|done].
Qed.

Lemma Zdigits2_shift m n :
  (0 ≤ m)%Z → (0 ≤ n)%Z →
  (Zdigits2 (m `div` 2 ^ n) ≤ Z.max 0 (Zdigits2 m - n))%Z.
Proof.
  intros Hm Hn.
  pose proof (Zdigits2_upper m Hm) as Hup.
  pose proof (Zdigits2_nonneg m) as Hd.
  assert (0 < 2 ^ n)%Z as HP by (apply Z.pow_pos_nonneg; lia).
  assert (0 ≤ m `div` 2 ^ n)%Z as Hq by (apply Z.div_pos; lia).
  destruct (decide (n ≤ Zdigits2 m)%Z) as [Hle|Hgt].
  - apply Zdigits2_le; [done|lia|]. rewrite Z.max_r by lia.
    apply Z.div_lt_upper_bound; [done|].
    rewrite <-Z.pow_add_r by lia. by replace (n + (Zdigits2 m - n))%Z with (Zdigits2 m) by lia.
  - rewrite Z.div_small; [simpl; lia|]. split; [done|].
    eapply Z.lt_le_trans; [exact Hup|]. apply Z.pow_le_mono_r; lia.
Qed.

Lemma Zdigits2_succ m : (0 ≤ m)%Z → (Zdigits2 (m + 1) ≤ Zdigits2 m + 1)%Z.
Proof.
  intros Hm. pose proof (Zdigits2_upper m Hm) as Hup.
  pose proof (Zdigits2_nonneg m) as Hd.
  apply Zdigits2_le; [lia|lia|]. rewrite Z.pow_add_r, Z.pow_1_r by lia. lia.
Qed.

Lemma Zdigits2_mono m n : (0 ≤ m ≤ n)%Z → (Zdigits2 m ≤ Zdigits2 n)%Z.
Proof.
  intros [Hm Hn]. apply Zdigits2_le; [done|apply Zdigits2_nonneg|].
  pose proof (Zdigits2_upper n). lia.
Qed.

Lemma round_nearest_even_bounds m l :
  (m ≤ round_nearest_even m l ≤ m + 1)%Z.
Proof. destruct l as [|[]]; simpl; try case_match; lia. Qed.

(** Rounding a significand below [2^1023] gives a finite value, at most
    one binary digit longer. *)
Lemma binary_round_aux_below sx mx ex lx B :
  (0 ≤ mx)%Z → (ex ≤ 970)%Z → (Zdigits2 mx + ex ≤ 1023)%Z →
  (Zdigits2 mx + ex ≤ B)%Z → (ex ≤ B)%Z → (-1074 ≤ B)%Z →
  below (B + 1) (binary_round_aux Js.Double.prec Js.Double.emax sx mx ex lx).
Proof.
  intros Hm Hex HD HB HexB HminB. unfold binary_round_aux.
  destruct (shr_fexp_spec mx ex lx Hm) as [He1 Hm1].
  destruct (shr_fexp _ _ mx ex lx) as [mrs1 e1]. cbn [fst snd] in He1, Hm1.
  rewrite <-He1 in Hm1.
  pose proof (Zdigits2_nonneg mx) as Hd0.
  assert (0 < 2 ^ (e1 - ex))%Z as HP1 by (apply Z.pow_pos_nonneg; lia).
  assert (0 ≤ shr_m mrs1)%Z as Hm1pos by (rewrite Hm1; apply Z.div_pos; lia).
  pose proof (Zdigits2_shift mx (e1 - ex) Hm ltac:(lia)) as Hd1.
  rewrite <-Hm1 in Hd1.
  pose proof (round_nearest_even_bounds (shr_m mrs1) (loc_of_shr_record mrs1))
    as Hrne.
  set (m2 := round_nearest_even (shr_m mrs1) (loc_of_shr_record mrs1)) in *.
  assert (Zdigits2 m2 ≤ Zdigits2 (shr_m mrs1) + 1)%Z as Hd2.
  { etrans; [apply (Zdigits2_mono m2 (shr_m mrs1 + 1)); lia|].
    by apply Zdigits2_succ. }
  destruct (shr_fexp_spec m2 e1 loc_Exact ltac:(lia)) as [He2 Hm2].
  destruct (shr_fexp _ _ m2 e1 loc_Exact) as [mrs2 e2]. cbn [fst snd] in He2, Hm2.
  rewrite <-He2 in Hm2.
  pose proof (Zdigits2_shift m2 (e2 - e1) ltac:(lia) ltac:(lia)) as Hd3.
  rewrite <-Hm2 in Hd3.
  destruct (shr_m mrs2) as [|m|m] eqn:Hres; [done| |].
  - change (Zdigits2 (Z.pos m)) with (Z.pos (digits2_pos m)) in Hd3.
    rewrite (proj2 (Z.leb_le e2 (Js.Double.emax - Js.Double.prec)));
      [simpl; lia|].
    change (Js.Double.emax - Js.Double.prec)%Z with 971%Z. lia.
  - assert (0 < 2 ^ (e2 - e1))%Z as HP2 by (apply Z.pow_pos_nonneg; lia).
    assert (0 ≤ m2 `div` 2 ^ (e2 - e1))%Z by (apply Z.div_pos; lia). lia.
Qed.

Lemma below_finite B x : below B x → Js.Double.is_finite x = true.
Proof. by destruct x. Qed.

Lemma below_mono B B' x : (B ≤ B')%Z → below B x → below B' x.
Proof. intros HB. destruct x; simpl; try done. lia. Qed.

Lemma digits2_pos_shift m d :
  digits2_pos (Pos.iter xO m d) = (digits2_pos m + d)%positive.
Proof.
  induction d as [|d IH] using Pos.peano_ind.
  - simpl. lia.
  - rewrite Pos.iter_succ. simpl. rewrite IH. lia.
Qed.

Lemma shl_align_spec mx ex ex' :
  let '(mz, ez) := shl_align mx ex ex' in
  (ez ≤ ex)%Z ∧ (ez = Z.min ex ex')
  ∧ (Z.pos (digits2_pos mz) + ez = Z.pos (digits2_pos mx) + ex)%Z.
Proof.
  unfold shl_align. destruct (ex' - ex)%Z as [|d|d] eqn:Hd; [lia|lia|].
  rewrite digits2_pos_shift. lia.
Qed.

Lemma binary_round_below sx mx ex B :
  (ex ≤ 970)%Z → (Z.pos (digits2_pos mx) + ex ≤ 1023)%Z →
  (Z.pos (digits2_pos mx) + ex ≤ B)%Z → (-1074 ≤ B)%Z →
  below (B + 1) (binary_round Js.Double.prec Js.Double.emax sx mx ex).
Proof.
  intros Hex HD HB Hmin. unfold binary_round.
  pose proof (shl_align_spec mx ex
                (fexp Js.Double.prec Js.Double.emax (Z.pos (digits2_pos mx) + ex)))
    as Hal.
  destruct (shl_align _ _ _) as [mz ez]. destruct Hal as (Hez & _ & Hdig).
  apply binary_round_aux_below; simpl Zdigits2; lia.
Qed.

Lemma of_Z_below z k :
  (0 ≤ k ≤ 1022)%Z → (Z.abs z < 2 ^ k)%Z → below (k + 1) (Js.Double.of_Z z).
Proof.
  intros Hk Hz. unfold Js.Double.of_Z, binary_normalize.
  destruct z as [|p|p]; [done|..];
    (assert (Z.pos (digits2_pos p) ≤ k)%Z as Hd
       by (apply (Zdigits2_le (Z.pos p)); lia));
    apply binary_round_below; lia.
Qed.

Lemma shr_fexp_canonical m e l :
  (Z.max (Zdigits2 m + e - 53) (-1074) ≤ e)%Z →
  shr_fexp Js.Double.prec Js.Double.emax m e l = (shr_record_of_loc m l, e).
Proof.
  intros Hcan. unfold shr_fexp, shr. rewrite fexp_eq.
  destruct (_ - e)%Z as [|p|p] eqn:Hn; [done|lia|done].
Qed.

(** A positive integer below [2^53] is a double, exactly. *)
Lemma of_Z_exact z :
  (0 < z < 2 ^ 53)%Z →
  ∃ m e, Js.Double.of_Z z = S754_finite false m e
         ∧ (Z.pos (digits2_pos m) + e = Zdigits2 z)%Z.
Proof.
  intros [Hpos Hlt]. destruct z as [|p|p]; [lia| |lia].
  assert (Z.pos (digits2_pos p) ≤ 53)%Z as Hd
    by (apply (Zdigits2_le (Z.pos p)); lia).
  unfold Js.Double.of_Z, binary_normalize, binary_round.
  pose proof (shl_align_spec p 0
                (fexp Js.Double.prec Js.Double.emax (Z.pos (digits2_pos p) + 0)))
    as Hal.
  destruct (shl_align _ _ _) as [mz ez]. destruct Hal as (Hez & Hmin & Hdig).
  rewrite fexp_eq in Hmin.
  unfold binary_round_aux.
  rewrite shr_fexp_canonical by (simpl Zdigits2; lia).
  cbn [shr_record_of_loc shr_m loc_of_shr_record round_nearest_even].
  rewrite shr_fexp_canonical by (simpl Zdigits2; lia).
  cbn [shr_record_of_loc shr_m].
  rewrite (proj2 (Z.leb_le ez (Js.Double.emax - Js.Double.prec)))
    by (change (Js.Double.emax - Js.Double.prec)%Z with 971%Z; lia).
  exists mz, ez. split; [done|]. simpl Zdigits2. lia.
Qed.

(** The quotient of a value below [2^Ba] by a finite value of at least
    [2^(Lb - 1)]. *)
Lemma div_below a sb mb eb Ba Lb :
  below Ba a → (Lb ≤ Z.pos (digits2_pos mb) + eb)%Z →
  (Ba - Lb ≤ 1022)%Z → (-1074 ≤ Ba - Lb + 1)%Z →
  below (Ba - Lb + 2) (Js.Double.div a (S754_finite sb mb eb)).
Proof.
  intros Ha HLb Hsmall Hbig.
  destruct a as [sa|sa| |sa ma ea]; [done|done|done|].
  simpl in Ha. unfold Js.Double.div, SFdiv.
  destruct (SFdiv_core_binary _ _ _ _ _ _) as [[q e'] lz] eqn:Hcore.
  unfold SFdiv_core_binary in Hcore. rewrite fexp_eq in Hcore.
  change (Zdigits2 (Z.pos ma)) with (Z.pos (digits2_pos ma)) in Hcore.
  change (Zdigits2 (Z.pos mb)) with (Z.pos (digits2_pos mb)) in Hcore.
  set (d1 := Z.pos (digits2_pos ma)) in *.
  set (d2 := Z.pos (digits2_pos mb)) in *.
  set (X := (d1 + ea - (d2 + eb))%Z) in *.
  set (e0 := Z.min (Z.max (X - 53) (-1074)) (ea - eb)) in *.
  set (s := (ea - eb - e0)%Z) in *.
  assert (0 ≤ s)%Z as Hs by lia.
  set (m' := match s with
             | 0%Z => Z.pos ma
             | Z.pos _ => Z.shiftl (Z.pos ma) s
             | Z.neg _ => 0%Z
             end) in *.
  assert (m' = Z.pos ma * 2 ^ s)%Z as Hm'.
  { subst m'. destruct s as [|ps|ps] eqn:Hseq; [lia| |lia].
    by rewrite Z.shiftl_mul_pow2. }
  destruct (Z.div_eucl m' (Z.pos mb)) as [q0 r0] eqn:Hq.
  injection Hcore as <- <- _.
  assert (q0 = m' `div` Z.pos mb)%Z as -> by (unfold Z.div; by rewrite Hq).
  assert (0 < 2 ^ s)%Z as HPs by (apply Z.pow_pos_nonneg; lia).
  assert (0 ≤ m' `div` Z.pos mb)%Z as Hqpos by (apply Z.div_pos; lia).
  assert (Zdigits2 (m' `div` Z.pos mb) ≤ Z.max 0 (d1 + s - d2 + 1))%Z as Hdq.
  { pose proof (digits2_pos_bounds ma) as [_ Hma]. fold d1 in Hma.
    pose proof (digits2_pos_bounds mb) as [Hmb _]. fold d2 in Hmb.
    destruct (decide (0 ≤ d1 + s - d2 + 1)%Z) as [Hnn|Hneg].
    - rewrite Z.max_r by lia. apply Zdigits2_le; [done|done|].
      apply Z.div_lt_upper_bound; [done|].
      assert (m' < 2 ^ (d1 + s))%Z as Hlt
        by (rewrite Hm', Z.pow_add_r by lia; nia).
      assert (2 ^ (d1 + s) = 2 ^ (d2 - 1) * 2 ^ (d1 + s - d2 + 1))%Z as Hsplit
        by (rewrite <-Z.pow_add_r by lia; f_equal; lia).
      rewrite Hsplit in Hlt.
      assert (0 < 2 ^ (d1 + s - d2 + 1))%Z by (apply Z.pow_pos_nonneg; lia).
      nia.
    - rewrite Z.max_l by lia.
      rewrite Z.div_small; [done|]. split; [lia|].
      assert (m' < 2 ^ (d1 + s))%Z as Hlt
        by (rewrite Hm', Z.pow_add_r by lia; nia).
      eapply Z.lt_le_trans; [exact Hlt|].
      eapply Z.le_trans; [|exact Hmb].
      apply Z.pow_le_mono_r; lia. }
  replace (Ba - Lb + 2)%Z with ((Ba - Lb + 1) + 1)%Z by lia.
  apply binary_round_aux_below; lia.
Qed.

Lemma mul_below x y Bx By :
  below Bx x → below By y → (Bx + By ≤ 972)%Z → (-1074 ≤ Bx + By)%Z →
  below (Bx + By + 1) (Js.Double.mul x y).
Proof.
  intros Hx Hy Hsmall Hbig.
  destruct x as [sx|sx| |sx mx ex]; [|done|done|];
    destruct y as [sy|sy| |sy my ey]; try done.
  simpl in Hx, Hy. unfold Js.Double.mul, SFmul.
  pose proof (digits2_pos_bounds mx) as [_ Hmx].
  pose proof (digits2_pos_bounds my) as [_ Hmy].
  assert (Zdigits2 (Z.pos (mx * my))
          ≤ Z.pos (digits2_pos mx) + Z.pos (digits2_pos my))%Z as Hd.
  { apply Zdigits2_le; [lia|lia|]. rewrite Z.pow_add_r by lia.
    rewrite Pos2Z.inj_mul. nia. }
  apply binary_round_aux_below; lia.
Qed.

Lemma Math_round_finite x B :
  below B x → (0 ≤ B ≤ 1021)%Z →
  Js.Double.is_finite (Js.Double.Math_round x) = true.
Proof.
  intros Hx HB. destruct x as [s|s| |s m e]; [done|done|done|].
  simpl in Hx. unfold Js.Double.Math_round.
  destruct (0 <=? e)%Z eqn:He; [done|]. apply Z.leb_gt in He.
  set (n := ((2 * cond_Zopp s (Z.pos m) + 2 ^ (- e)) `div` 2 ^ (1 - e))%Z).
  cbv zeta. fold n.
  destruct (n =? 0)%Z; [done|].
  apply (below_finite (B + 1 + 1)), of_Z_below; [lia|].
  pose proof (digits2_pos_bounds m) as [_ Hm].
  set (P := (2 ^ (- e))%Z) in *.
  assert (0 < P)%Z as HP by (apply Z.pow_pos_nonneg; lia).
  assert (2 ^ (1 - e) = 2 * P)%Z as HP2.
  { replace (1 - e)%Z with (1 + - e)%Z by lia.
    by rewrite Z.pow_add_r, Z.pow_1_r by lia. }
  assert (Z.pos m < 2 ^ B * P)%Z as Hmag.
  { eapply Z.lt_le_trans; [exact Hm|]. subst P.
    rewrite <-Z.pow_add_r by lia. apply Z.pow_le_mono_r; lia. }
  assert (0 < 2 ^ B)%Z as HQ by (apply Z.pow_pos_nonneg; lia).
  rewrite Z.pow_add_r, Z.pow_1_r by lia.
  subst n. rewrite HP2.
  assert (- 2 ^ B ≤ (2 * cond_Zopp s (Z.pos m) + P) `div` (2 * P) ≤ 2 ^ B)%Z;
    [|lia].
  split.
  - apply Z.div_le_lower_bound; [lia|]. destruct s; simpl; nia.
  - apply Z.lt_succ_r, Z.div_lt_upper_bound; [lia|]. destruct s; simpl; nia.
Qed.

Lemma percentOf_finite a b :
  (Z.abs a < 2 ^ 53)%Z → (0 < b < 2 ^ 53)%Z →
  Js.Double.is_finite (percentOf (Js.Double.of_Z a) (Js.Double.of_Z b)) = true.
Proof.
  intros Ha Hb. unfold percentOf. case_match; [|done].
  destruct (of_Z_exact b Hb) as (mb & eb & -> & Hbits).
  assert (1 ≤ Zdigits2 b)%Z as Hone by (destruct b; simpl; lia).
  apply (Math_round_finite _ (55 + 7 + 1)); [|lia].
  apply mul_below; [| |lia|lia].
  - replace 55%Z with (54 - 1 + 2)%Z by lia.
    apply div_below; [|lia|lia|lia].
    by apply (of_Z_below a 53).
  - by vm_compute.
Qed.

(** Doubles round: 23 of 40 is shown as 57, the product being just below
    57.5. *)
Example percentOf_rounds_as_doubles :
  percentOf (Js.Double.of_Z 23) (Js.Double.of_Z 40) = Js.Double.of_Z 57.
Proof. vm_compute. reflexivity. Qed.

(** C10, as stated, fails: with five tables in total and a current table
    that is not a number the overall percentage is NaN, and with [2^1023]
    rows of one the percentage of the table is infinite. *)
Lemma ProgressBar_total_counterexample :
  ∃ d, ProgressBar (Some exampleUnguarded) = Showing d
       ∧ Js.Double.gt (mp_total_tables exampleUnguarded) (Js.Double.of_Z 0) = true
       ∧ pd_overallPercent d = Js.Double.NaN
       ∧ Js.Double.gt (mp_total_rows exampleUnguarded) (Js.Double.of_Z 0) = true
       ∧ Js.Double.is_finite (mp_rows_transferred exampleUnguarded) = true
       ∧ pd_tablePercent d = Js.Double.Infinity false.
Proof. eexists. vm_compute. repeat split. Qed.

(** C10 (amended): the component renders the placeholder for a missing
    snapshot and the details for every snapshot, with the two percentages
    computed from the counts of that snapshot.  The guard is on the total
    alone: a percentage is 0 whenever its total is not above zero, be it
    zero, negative or NaN, so no quotient by zero is shown.  With a total
    above zero the percentage is NaN exactly when the part is NaN or part
    and total are both infinite; and for integer counts below [2^53] in
    absolute value with a positive total it is a finite number. *)
Theorem ProgressBar_total :
  ProgressBar None = Preparing
  ∧ (∀ p, ∃ d,
       ProgressBar (Some p) = Showing d
       ∧ pd_overallPercent d = percentOf (mp_current_table p) (mp_total_tables p)
       ∧ pd_tablePercent d = percentOf (mp_rows_transferred p) (mp_total_rows p))
  ∧ (∀ part total,
       Js.Double.gt total (Js.Double.of_Z 0) = false →
       percentOf part total = Js.Double.of_Z 0)
  ∧ (∀ part z, (z ≤ 0)%Z → percentOf part (Js.Double.of_Z z) = Js.Double.of_Z 0)
  ∧ (∀ part, percentOf part Js.Double.NaN = Js.Double.of_Z 0)
  ∧ (∀ part total,
       Js.Double.is_NaN (percentOf part total) = true
       ↔ Js.Double.gt total (Js.Double.of_Z 0) = true
         ∧ (Js.Double.is_NaN part = true
            ∨ Js.Double.is_infinite part = true
              ∧ Js.Double.is_infinite total = true))
  ∧ (∀ a b,
       (Z.abs a < 2 ^ 53)%Z → (0 < b < 2 ^ 53)%Z →
       Js.Double.is_finite (percentOf (Js.Double.of_Z a) (Js.Double.of_Z b))
       = true).
Proof.
  split; [done|]. split; [|split; [|split; [|split; [|split]]]].
  - intros p. eexists. by split.
  - apply percentOf_guard.
  - intros part z Hz. by apply percentOf_guard, gt_zero_negative.
  - intros part. by apply percentOf_guard.
  - apply percentOf_is_NaN.
  - apply percentOf_finite.
Qed.

Lemma ProgressBar_total_witness :
  (∃ d, ProgressBar (Some (exampleProgress 5 0)) = Showing d
        ∧ pd_overallPercent d = Js.Double.of_Z 0
        ∧ pd_tablePercent d = Js.Double.of_Z 0)
  ∧ Js.Double.is_finite (percentOf (Js.Double.of_Z 23) (Js.Double.of_Z 40)) = true.
Proof.
  destruct ProgressBar_total as (_ & Hshow & _ & Hzero & _ & _ & Hfinite).
  split.
  - destruct (Hshow (exampleProgress 5 0)) as (d & Hd & Ho & Ht).
    exists d. split; [exact Hd|].
    split; [rewrite Ho | rewrite Ht]; apply (Hzero _ 0%Z); lia.
  - apply Hfinite; [reflexivity|split; reflexivity].
Defined.

(** ** Migrations in flight *)

Lemma migrations_app l1 l2 : migrations (l1 ++ l2) = (migrations l1 + migrations l2)%nat.
Proof. unfold migrations. by rewrite filter_app, length_app. Qed.

Lemma migrations_none l :
  Forall (λ p, isPendingMigration p = false) l → migrations l = 0%nat.
Proof.
  unfold migrations. induction 1 as [|p l Hp _ IH]; [done|].
  rewrite filter_cons_False; [done|congruence].
Qed.

Lemma migrations_delete l k p :
  l !! k = Some p →
  migrations l
  = ((if isPendingMigration p then 1 else 0) + migrations (delete k l))%nat.
Proof.
  unfold migrations. revert k. induction l as [|q l IH]; intros [|k] Hk; try done.
  - simpl in Hk. simplify_eq. simpl.
    destruct (isPendingMigration p) eqn:Hp.
    + by rewrite filter_cons_True.
    + rewrite filter_cons_False; [done|congruence].
  - simpl in Hk. change (delete (S k) (q :: l)) with (q :: delete k l).
    destruct (isPendingMigration q) eqn:Hq.
    + rewrite !filter_cons_True by done. simpl. rewrite (IH k Hk). lia.
    + rewrite !filter_cons_False by congruence. by apply IH.
Qed.

Local Ltac unaffected :=
  left; simpl in *; repeat split; try done; by repeat constructor.

(** How a reaction bears on migrations: it leaves them alone, or it is the
    start of one from a state that is not migrating, or it is the settling
    of one. *)
Lemma react_migration y e r :
  react y e = Some r →
  (isMigrating (nextState r) = isMigrating (app y)
   ∧ migrations (created r) = 0%nat
   ∧ migrations (remaining r) = migrations (pending y)
   ∧ Forall (λ c, isMigrationCall c = false) (issued r))
  ∨ (e = ClickMigrate
     ∧ isMigrating (app y) = false
     ∧ isMigrating (nextState r) = true
     ∧ migrations (created r) = 1%nat
     ∧ remaining r = pending y
     ∧ ∃ request, issued r = [start_migration request]
                  ∧ req_options request = options (app y))
  ∨ (∃ k o targetId,
       e = Settled k (MigrationSettled o)
       ∧ pending y !! k = Some (PendingMigration targetId)
       ∧ isMigrating (nextState r) = false
       ∧ migrations (created r) = 0%nat
       ∧ remaining r = delete k (pending y)
       ∧ Forall (λ c, isFetch c = true) (issued r)).
Proof.
  destruct e; simpl; intros Hr.
  - simplify_eq. unaffected.
  - unfold renderAction, MigrationPanel_action in Hr.
    destruct (isMigrating (app y)) eqn:Hm; [done|].
    destruct (negb (canMigrate (app y))); [done|]. simplify_eq.
    unfold handleMigrate_begin.
    destruct (sourceConnection (app y)) as [src|]; [|unaffected].
    destruct (targetConnection (app y)) as [tgt|]; [|unaffected].
    case_decide; [unaffected|].
    right. left. simpl. repeat split. eauto.
  - unfold renderAction, MigrationPanel_action in Hr.
    destruct (isMigrating (app y)) eqn:Hm; [|done]. simplify_eq. unaffected.
  - destruct (isMigrating (app y)) eqn:Hm; [done|]. simplify_eq. unaffected.
  - case_match; [done|]. simplify_eq. unfold handleSort_begin.
    repeat (case_match || case_decide); unaffected.
  - case_match; [|done]. simplify_eq. unfold handleAnalyze_begin.
    repeat case_match; unaffected.
  - simplify_eq. unaffected.
  - destruct (MigrationPanel_input (options (app y)) i); [|done].
    simpl in Hr. simplify_eq. unaffected.
  - simplify_eq. unaffected.
  - simplify_eq. destruct side; unaffected.
  - simplify_eq. destruct side; unaffected.
  - simplify_eq. destruct side; unaffected.
  - simplify_eq. unaffected.
  - simplify_eq. unaffected.
  - destruct (pending y !! k) as [p|] eqn:Hk; [|done]. simpl in Hr.
    pose proof (migrations_delete _ _ _ Hk) as Hdel.
    destruct p, r0; simpl in Hr; try done.
    + right. right. exists k, o, targetId.
      destruct o; simpl in Hr; simplify_eq; simpl; repeat split;
        by repeat constructor.
    + simplify_eq. destruct o; unaffected.
    + simplify_eq. destruct o; unaffected.
    + simplify_eq. destruct o, side; unaffected.
    + simplify_eq. destruct o; unaffected.
    + simplify_eq. unaffected.
Qed.

Lemma step_flagMatchesFlight y e y' calls :
  flagMatchesFlight y → step y e = Some (y', calls) → flagMatchesFlight y'.
Proof.
  unfold flagMatchesFlight, inFlight. intros Hinv Hstep.
  destruct (step_inv _ _ _ _ Hstep)
    as (r & ec & ep & Hr & Hsame & _ & -> & _ & _ & Hep).
  destruct Hsame as (_ & _ & _ & _ & _ & _ & _ & _ & -> & _).
  rewrite !migrations_app, (migrations_none ep Hep).
  destruct (react_migration _ _ _ Hr)
    as [(-> & -> & -> & _)
       |[(_ & Hm & -> & -> & -> & _)
        |(k & o & tid & _ & Hk & -> & -> & -> & _)]].
  - lia.
  - rewrite Hm in Hinv. lia.
  - rewrite (migrations_delete _ _ _ Hk) in Hinv. simpl in Hinv.
    destruct (isMigrating (app y)); lia.
Qed.

Lemma run_flagMatchesFlight y events y' log :
  flagMatchesFlight y → run y events = Some (y', log) → flagMatchesFlight y'.
Proof.
  revert y log. induction events as [|e events IH]; intros y log Hinv Hrun.
  - simpl in Hrun. by simplify_eq.
  - simpl in Hrun.
    destruct (step y e) as [[y1 c1]|] eqn:Hstep; [|done]. simpl in Hrun.
    destruct (run y1 events) as [[y2 c2]|] eqn:Hrest; [|done].
    simpl in Hrun. simplify_eq.
    eapply IH; [|exact Hrest]. by eapply step_flagMatchesFlight.
Qed.

(** C7: in every state the application reaches, at most one migration is
    pending, and one is pending exactly when [isMigrating] holds; while it
    holds the panel shows the Cancel button and a click on Migrate is not
    possible.  [handleMigrate] sets the flag in the step that issues
    [start_migration], only a step from a state that is not migrating issues
    [start_migration], and the flag is reset only by the step in which a
    pending migration settles. *)
Theorem single_migration_in_flight :
  (∀ saved events y log,
     run (initialSys saved) events = Some (y, log) →
     (inFlight y ≤ 1)%nat
     ∧ (isMigrating (app y) = true ↔ inFlight y = 1%nat))
  ∧ (∀ y, isMigrating (app y) = true →
          renderAction (app y) = CancelButton ∧ step y ClickMigrate = None)
  ∧ (∀ s s' call,
       handleMigrate_begin s = Some (s', call) →
       isMigrationCall call = true ∧ isMigrating s' = true)
  ∧ (∀ y e y' calls c,
       step y e = Some (y', calls) → c ∈ calls → isMigrationCall c = true →
       e = ClickMigrate ∧ isMigrating (app y) = false
       ∧ isMigrating (app y') = true)
  ∧ (∀ y e y' calls,
       step y e = Some (y', calls) →
       isMigrating (app y) = true → isMigrating (app y') = false →
       ∃ k o targetId,
         e = Settled k (MigrationSettled o)
         ∧ pending y !! k = Some (PendingMigration targetId)).
Proof.
  split; [|split; [|split; [|split]]].
  - intros saved events y log Hrun.
    pose proof (run_flagMatchesFlight (initialSys saved) events y log eq_refl Hrun)
      as Hinv.
    unfold flagMatchesFlight in Hinv. rewrite Hinv.
    destruct (isMigrating (app y)); split; (lia || done).
  - intros y Hm. unfold step. simpl.
    unfold renderAction, MigrationPanel_action. by rewrite Hm.
  - intros s s' call. unfold handleMigrate_begin.
    repeat (case_match || case_decide); try done. by intros [= <- <-].
  - intros y e y' calls c Hstep Hc Hmig.
    destruct (step_inv _ _ _ _ Hstep)
      as (r & ec & ep & Hr & Hsame & _ & _ & -> & Hec & _).
    destruct Hsame as (_ & _ & _ & _ & _ & _ & _ & _ & -> & _).
    apply elem_of_app in Hc as [Hc|Hc].
    + destruct (react_migration _ _ _ Hr)
        as [(_ & _ & _ & Hnone)
           |[(-> & Hm & Hm' & _)
            |(k & o & tid & _ & _ & _ & _ & _ & Hfetch)]].
      * rewrite Forall_forall in Hnone. apply Hnone in Hc. congruence.
      * done.
      * rewrite Forall_forall in Hfetch. apply Hfetch in Hc.
        destruct c; simpl in *; congruence.
    + rewrite Forall_forall in Hec. apply Hec in Hc.
      destruct c; simpl in *; congruence.
  - intros y e y' calls Hstep Hm Hm'.
    destruct (step_inv _ _ _ _ Hstep)
      as (r & ec & ep & Hr & Hsame & _).
    destruct Hsame as (_ & _ & _ & _ & _ & _ & _ & _ & Hm'' & _).
    rewrite Hm'' in Hm'.
    destruct (react_migration _ _ _ Hr)
      as [(Heq & _)
         |[(_ & Hno & _)
          |(k & o & tid & -> & Hk & _)]]; [congruence..|eauto].
Qed.

Lemma single_migration_in_flight_witness :
  ∃ y log,
    run (initialSys []) exampleEvents = Some (y, log)
    ∧ (inFlight y ≤ 1)%nat
    ∧ renderAction (app y) = CancelButton
    ∧ step y ClickMigrate = None.
Proof.
  destruct exampleEvents_run as (y & request & Hrun & Hm & _).
  eexists y, _. split; [exact Hrun|].
  destruct single_migration_in_flight as (Hreach & Hcancel & _).
  split; [exact (proj1 (Hreach [] exampleEvents y _ Hrun))|].
  exact (Hcancel y Hm).
Defined.

(** Which handler issues which call. *)
Lemma react_issued y e r c :
  react y e = Some r → c ∈ issued r →
  match e with
  | ClickMigrate => isMigrationCall c = true
  | ClickCancel => c = cancel_migration
  | ClickSort =>
      ∃ src, sourceConnection (app y) = Some src
             ∧ c = sort_tables_by_dependency (cs_id src)
                     (selectedRefs (sourceTables (app y)) (selectedTables (app y)))
  | ClickAnalyze =>
      ∃ src tgt, c = analyze_schema src tgt (toRef <$> sourceTables (app y))
  | Settled _ (MigrationSettled _) => isFetch c = true
  | _ => False
  end.
Proof.
  destruct e as [payload| | | | | |selected|i|value|side config|side status
                |side|conn|name|k resp];
    simpl; intros Hr Hc; repeat case_match; simplify_eq;
    simpl in Hc; try (by apply elem_of_nil in Hc);
    try (destruct (pending y !! k) as [p|]; [|done]; simpl in Hr;
         destruct p; simpl in Hr; try done;
         unfold handleMigrate_settle in Hr;
         repeat case_match; simplify_eq; simpl in Hc;
         try (by apply elem_of_nil in Hc);
         apply list_elem_of_singleton in Hc; by subst).
  - unfold handleMigrate_begin in Hc.
    repeat (case_match || case_decide); simpl in Hc;
      try (by apply elem_of_nil in Hc).
    all: apply list_elem_of_singleton in Hc; by subst.
  - by apply list_elem_of_singleton in Hc.
  - unfold handleSort_begin in Hc.
    repeat (case_match || case_decide); simpl in Hc;
      try (by apply elem_of_nil in Hc).
    all: apply list_elem_of_singleton in Hc; subst; eauto.
  - unfold handleAnalyze_begin in Hc.
    repeat case_match; simpl in Hc; try (by apply elem_of_nil in Hc).
    all: apply list_elem_of_singleton in Hc; subst; eauto.
  - destruct (MigrationPanel_input (options (app y)) i); simpl in Hr; [|done].
    simplify_eq. by apply elem_of_nil in Hc.
Qed.

(** ** Batch sizes *)

Lemma parseInt_optionValue v :
  v ∈ batchSizeChoices → Js.parseInt (optionValue v) = Js.of_Z v.
Proof.
  unfold batchSizeChoices. rewrite !elem_of_cons, elem_of_nil.
  intros [->|[->|[->|[->|[]]]]]; vm_compute; reflexivity.
Qed.

Lemma MigrationPanel_input_offered options i options' :
  offeredBatchSize (batch_size options) →
  MigrationPanel_input options i = Some options' →
  offeredBatchSize (batch_size options').
Proof.
  intros Hb. destruct i as [| |k]; simpl; [by intros [= <-]..|].
  destruct (batchSizeChoices !! k) as [v|] eqn:Hk; [|done]. simpl.
  intros [= <-]. simpl. exists v.
  assert (v ∈ batchSizeChoices) by (by eapply list_elem_of_lookup_2).
  split; [done|]. by apply parseInt_optionValue.
Qed.

Lemma step_offered y e y' calls :
  offeredBatchSize (batch_size (options (app y))) →
  step y e = Some (y', calls) →
  offeredBatchSize (batch_size (options (app y'))) ∧ requestsOffered calls.
Proof.
  intros Hb Hstep.
  destruct (step_inv _ _ _ _ Hstep)
    as (r & ec & ep & Hr & Hsame & _ & _ & -> & Hec & _).
  destruct Hsame as (_ & _ & _ & _ & _ & _ & _ & _ & _ & _ & _ & _ & ->).
  split.
  - clear Hec.
    destruct e as [payload| | | | | |selected|i|value|side config|side status
                  |side|conn|name|k resp];
      simpl in Hr; repeat case_match; simplify_eq; try done;
      try (by destruct side).
    + unfold handleMigrate_begin. repeat (case_match || case_decide); done.
    + unfold handleSort_begin. repeat (case_match || case_decide); done.
    + unfold handleAnalyze_begin. repeat case_match; done.
    + destruct (MigrationPanel_input (options (app y)) i) as [o|] eqn:Hi;
        simpl in Hr; [|done].
      simplify_eq. simpl. by eapply MigrationPanel_input_offered.
    + destruct (pending y !! k) as [p|]; [|done]. simpl in Hr.
      destruct p, resp; simpl in Hr; try done;
        unfold handleMigrate_settle in Hr;
        repeat case_match; simplify_eq; simpl; try done.
      * by destruct o.
      * by destruct o.
      * by destruct o, side.
  - intros request [Hin|Hin]%elem_of_app.
    + destruct (react_migration _ _ _ Hr)
        as [(_ & _ & _ & Hnone)
           |[(_ & _ & _ & _ & _ & request' & Hissued & Hopt)
            |(k & o & tid & _ & _ & _ & _ & _ & Hfetch)]].
      * rewrite Forall_forall in Hnone. by apply Hnone in Hin.
      * rewrite Hissued in Hin. apply list_elem_of_singleton in Hin.
        simplify_eq. by rewrite Hopt.
      * rewrite Forall_forall in Hfetch. by apply Hfetch in Hin.
    + rewrite Forall_forall in Hec. by apply Hec in Hin.
Qed.

Lemma run_offered y events y' log :
  offeredBatchSize (batch_size (options (app y))) →
  run y events = Some (y', log) →
  offeredBatchSize (batch_size (options (app y'))) ∧ requestsOffered log.
Proof.
  revert y log. induction events as [|e events IH]; intros y log Hb Hrun.
  - simpl in Hrun. simplify_eq. split; [done|].
    by intros request Hin%elem_of_nil.
  - simpl in Hrun.
    destruct (step y e) as [[y1 c1]|] eqn:Hstep; [|done]. simpl in Hrun.
    destruct (run y1 events) as [[y2 c2]|] eqn:Hrest; [|done].
    simpl in Hrun. simplify_eq.
    destruct (step_offered _ _ _ _ Hb Hstep) as [Hb1 Hc1].
    destruct (IH _ _ Hb1 Hrest) as [Hb2 Hc2].
    split; [done|]. intros request [Hin|Hin]%elem_of_app; auto.
Qed.

Lemma offered_in_range n :
  offeredBatchSize n → ∃ z, n = Js.of_Z z ∧ (1 ≤ z ≤ 100000)%Z.
Proof.
  intros (z & Hz & ->). exists z. split; [done|].
  unfold batchSizeChoices in Hz.
  rewrite !elem_of_cons, elem_of_nil in Hz.
  destruct Hz as [->|[->|[->|[->|[]]]]]; lia.
Qed.

(** C3: the panel offers the batch sizes 100, 1000, 10000 and 50000, all
    between 1 and 100000, the default is 1000, and in every state the
    application reaches the batch size of the options, and of every
    [start_migration] request issued on the way, is one of the offered
    values. *)
Theorem batch_size_in_range :
  batchSizeChoices = [100; 1000; 10000; 50000]%Z
  ∧ Forall (λ z, 1 ≤ z ≤ 100000)%Z batchSizeChoices
  ∧ batch_size defaultOptions = Js.of_Z 1000
  ∧ ∀ saved events y log,
      run (initialSys saved) events = Some (y, log) →
      (offeredBatchSize (batch_size (options (app y)))
       ∧ ∃ z, batch_size (options (app y)) = Js.of_Z z ∧ (1 ≤ z ≤ 100000)%Z)
      ∧ ∀ request,
          start_migration request ∈ log →
          offeredBatchSize (batch_size (req_options request))
          ∧ ∃ z, batch_size (req_options request) = Js.of_Z z
                 ∧ (1 ≤ z ≤ 100000)%Z.
Proof.
  split; [done|]. split; [repeat constructor; lia|]. split; [done|].
  intros saved events y log Hrun.
  assert (offeredBatchSize (batch_size (options (app (initialSys saved)))))
    as Hinit.
  { exists 1000%Z. split; [|done]. unfold batchSizeChoices. set_solver. }
  destruct (run_offered _ _ _ _ Hinit Hrun) as [Hb Hlog].
  split; [split; [done|by apply offered_in_range]|].
  intros request Hin. split; [by apply Hlog|by apply offered_in_range, Hlog].
Qed.

Lemma batch_size_in_range_witness :
  ∃ y log request,
    run (initialSys []) exampleEvents = Some (y, log)
    ∧ start_migration request ∈ log
    ∧ offeredBatchSize (batch_size (req_options request)).
Proof.
  destruct exampleEvents_run as (y & request & Hrun & _ & _).
  eexists y, _, request. split; [exact Hrun|].
  assert (start_migration request
          ∈ [get_tables "src"; get_tables "tgt"; get_schemas "tgt";
             start_migration request]) as Hin.
  { do 3 apply list_elem_of_further. apply list_elem_of_here. }
  split; [exact Hin|].
  destruct batch_size_in_range as (_ & _ & _ & Hreach).
  exact (proj1 (proj2 (Hreach [] exampleEvents y _ Hrun) request Hin)).
Defined.

(** ** Progress events *)

(** C4: the listener stores the payload as the whole progress state, in
    the application as well, whatever the state before; what is then shown
    is the progress bar of that payload alone, the same from any two
    earlier states; and each displayed quantity is computed from the fields
    of the one snapshot. *)
Theorem progress_is_snapshot :
  (∀ payload s,
     progress (onMigrationProgress payload s) = Some payload
     ∧ onMigrationProgress payload s = setProgress (Some payload) s
     ∧ renderProgress (onMigrationProgress payload s)
       = Some (ProgressBar (Some payload)))
  ∧ (∀ y payload,
       ∃ y', step y (ProgressEvent payload) = Some (y', [])
             ∧ app y' = setProgress (Some payload) (app y)
             ∧ stored y' = stored y ∧ pending y' = pending y)
  ∧ (∀ y1 y2 payload y1' y2' calls1 calls2,
       step y1 (ProgressEvent payload) = Some (y1', calls1) →
       step y2 (ProgressEvent payload) = Some (y2', calls2) →
       progress (app y1') = progress (app y2')
       ∧ renderProgress (app y1') = renderProgress (app y2'))
  ∧ (∀ p, ProgressBar (Some p)
          = Showing
              {| pd_complete := bool_decide (mp_status p = "Complete");
                 pd_title := if bool_decide (mp_status p = "Complete")
                             then "Migration complete"
                             else "Migrating: " +:+ mp_table_name p;
                 pd_current_table := mp_current_table p;
                 pd_total_tables := mp_total_tables p;
                 pd_overallPercent :=
                   percentOf (mp_current_table p) (mp_total_tables p);
                 pd_table_name := mp_table_name p;
                 pd_tablePercent :=
                   percentOf (mp_rows_transferred p) (mp_total_rows p);
                 pd_rows_transferred := mp_rows_transferred p;
                 pd_total_rows := mp_total_rows p;
                 pd_status := mp_status p;
                 pd_error := shownError (mp_error p) |}).
Proof.
  assert (∀ y payload,
            step y (ProgressEvent payload)
            = Some ({| app := setProgress (Some payload) (app y);
                       stored := stored y; pending := pending y |}, []))
    as Hstep.
  { intros y payload. unfold step. simpl. unfold commit. simpl.
    rewrite runEffects_idle by done. simpl. by rewrite !app_nil_r. }
  split; [|split; [|split]].
  - intros payload s. split; [done|]. split; [done|].
    unfold renderProgress. simpl. by rewrite orb_true_r.
  - intros y payload. eexists. split; [apply Hstep|done].
  - intros y1 y2 payload y1' y2' calls1 calls2.
    rewrite !Hstep. intros [= <- <-] [= <- <-]. simpl. split; [done|].
    unfold renderProgress. simpl. by rewrite !orb_true_r.
  - done.
Qed.

Lemma progress_is_snapshot_witness :
  ∃ y1 y2,
    step (initialSys []) (ProgressEvent (exampleProgress 5 10)) = Some (y1, [])
    ∧ step exampleMigrating (ProgressEvent (exampleProgress 5 10)) = Some (y2, [])
    ∧ renderProgress (app y1) = renderProgress (app y2).
Proof.
  destruct progress_is_snapshot as (_ & Hstep & Hsame & _).
  destruct (Hstep (initialSys []) (exampleProgress 5 10)) as (y1 & H1 & _).
  destruct (Hstep exampleMigrating (exampleProgress 5 10)) as (y2 & H2 & _).
  exists y1, y2. split; [exact H1|]. split; [exact H2|].
  exact (proj2 (Hsame _ _ _ _ _ _ _ H1 H2)).
Defined.

(** ** Sorting by dependency *)

Section stable_sort.
Context {A : Type} (cmp : A → A → Z) (key : A → Z).
Hypothesis cmp_key : ∀ a b, (0 < cmp a b)%Z ↔ (key b < key a)%Z.

Lemma sortInsert_Permutation x l : sortInsert cmp x l ≡ₚ x :: l.
Proof.
  induction l as [|y l IH]; simpl; [done|].
  destruct (0 <? cmp x y)%Z; [|done].
  rewrite IH. apply Permutation_swap.
Qed.

Lemma Array_sort_Permutation l : Array_sort cmp l ≡ₚ l.
Proof.
  induction l as [|x l IH]; simpl; [done|].
  by rewrite sortInsert_Permutation, IH.
Qed.

Lemma sortInsert_sorted x l :
  StronglySorted (λ a b, key a ≤ key b)%Z l →
  StronglySorted (λ a b, key a ≤ key b)%Z (sortInsert cmp x l).
Proof.
  induction 1 as [|y l Hl IH Hy]; simpl; [by repeat constructor|].
  destruct (0 <? cmp x y)%Z eqn:Hcmp.
  - apply Z.ltb_lt, cmp_key in Hcmp. constructor; [done|].
    rewrite sortInsert_Permutation. constructor; [lia|done].
  - apply Z.ltb_ge in Hcmp.
    assert (key x ≤ key y)%Z as Hxy.
    { destruct (decide (key y < key x)%Z) as [Hlt|]; [|lia].
      apply cmp_key in Hlt. lia. }
    constructor; [by constructor|].
    constructor; [done|].
    eapply Forall_impl; [exact Hy|]. simpl. intros. lia.
Qed.

Lemma sortInsert_stable v x l :
  filter (λ a, key a = v) (sortInsert cmp x l)
  = filter (λ a, key a = v) (x :: l).
Proof.
  induction l as [|y l IH]; simpl; [done|].
  destruct (0 <? cmp x y)%Z eqn:Hcmp; [|done].
  apply Z.ltb_lt, cmp_key in Hcmp.
  destruct (decide (key y = v)) as [Hy|Hy].
  - rewrite filter_cons_True by done. rewrite IH.
    rewrite !(filter_cons_False _ x) by lia.
    by rewrite filter_cons_True.
  - rewrite filter_cons_False by done. rewrite IH.
    destruct (decide (key x = v)).
    + rewrite !(filter_cons_True _ x) by done. by rewrite filter_cons_False.
    + rewrite !(filter_cons_False _ x) by done. by rewrite filter_cons_False.
Qed.

(** The sort is stable: elements of equal key keep their order. *)
Lemma Array_sort_stable v l :
  filter (λ a, key a = v) (Array_sort cmp l) = filter (λ a, key a = v) l.
Proof.
  induction l as [|x l IH]; simpl; [done|].
  rewrite sortInsert_stable.
  destruct (decide (key x = v)).
  - rewrite !(filter_cons_True _ x) by done. by rewrite IH.
  - rewrite !(filter_cons_False _ x) by done. by rewrite IH.
Qed.

Lemma Array_sort_sorted l :
  StronglySorted (λ a b, key a ≤ key b)%Z (Array_sort cmp l).
Proof.
  induction l as [|x l IH]; simpl; [constructor|].
  by apply sortInsert_sorted.
Qed.
End stable_sort.

Lemma compareByIndex_key sortedMap a b :
  (0 < compareByIndex sortedMap a b)%Z
  ↔ (sortIndex sortedMap b < sortIndex sortedMap a)%Z.
Proof. unfold compareByIndex. simpl. case_decide; lia. Qed.

Lemma reorderBySorted_Permutation sorted prev :
  reorderBySorted sorted prev ≡ₚ prev.
Proof. apply Array_sort_Permutation. Qed.

Lemma reorderBySorted_sorted sorted prev :
  StronglySorted (indexOrdered sorted) (reorderBySorted sorted prev).
Proof.
  unfold indexOrdered, reorderBySorted.
  apply (Array_sort_sorted _ (sortIndex (fillSortedMap 0 sorted ∅))).
  apply compareByIndex_key.
Qed.

(** *** The positions recorded in [sortedMap] *)

Lemma fillSortedMap_other i sorted sortedMap k :
  k ∉ refKey <$> sorted →
  fillSortedMap i sorted sortedMap !! k = sortedMap !! k.
Proof.
  revert i sortedMap. induction sorted as [|t rest IH]; intros i m Hk; [done|].
  rewrite fmap_cons in Hk. apply not_elem_of_cons in Hk as [Hne Hk].
  simpl. rewrite IH by done. by rewrite lookup_insert_ne.
Qed.

Lemma fillSortedMap_position i sorted sortedMap j k :
  NoDup (refKey <$> sorted) →
  (refKey <$> sorted) !! j = Some k →
  fillSortedMap i sorted sortedMap !! k = Some (i + j)%nat.
Proof.
  revert i sortedMap j.
  induction sorted as [|t rest IH]; intros i m j Hnd Hj; [done|].
  rewrite fmap_cons in Hnd, Hj. apply NoDup_cons in Hnd as [Hfresh Hnd].
  destruct j as [|j]; simpl in Hj |- *.
  - simplify_eq. rewrite fillSortedMap_other by done.
    rewrite lookup_insert_eq. f_equal. lia.
  - rewrite (IH _ _ j) by done. f_equal. lia.
Qed.

Lemma sortedMap_lookup sorted k :
  NoDup (refKey <$> sorted) →
  (k ∈ refKey <$> sorted →
   ∃ j, (refKey <$> sorted) !! j = Some k
        ∧ fillSortedMap 0 sorted ∅ !! k = Some j)
  ∧ (k ∉ refKey <$> sorted → fillSortedMap 0 sorted ∅ !! k = None).
Proof.
  intros Hnd. split.
  - intros (j & Hj)%list_elem_of_lookup_1. exists j. split; [done|].
    by rewrite (fillSortedMap_position 0 sorted ∅ j k).
  - intros Hk. by rewrite fillSortedMap_other.
Qed.

(** The position of a key in the returned list, as the comparator sees
    it. *)
Lemma sortIndex_listed sorted t :
  NoDup (refKey <$> sorted) →
  tableKey t ∈ refKey <$> sorted →
  ∃ j, (refKey <$> sorted) !! j = Some (tableKey t)
       ∧ sortIndex (fillSortedMap 0 sorted ∅) t = Z.of_nat j.
Proof.
  intros Hnd Hin.
  destruct (proj1 (sortedMap_lookup sorted (tableKey t) Hnd) Hin) as (j & Hj & Hm).
  exists j. split; [done|]. unfold sortIndex. by rewrite Hm.
Qed.

Lemma sortIndex_unlisted sorted t :
  NoDup (refKey <$> sorted) →
  tableKey t ∉ refKey <$> sorted →
  sortIndex (fillSortedMap 0 sorted ∅) t = MAX_SAFE_INTEGER.
Proof.
  intros Hnd Hout. unfold sortIndex.
  by rewrite (proj2 (sortedMap_lookup sorted (tableKey t) Hnd) Hout).
Qed.

(** In a list sorted by a key, the elements of a class whose keys lie
    below those of the others come first. *)
Lemma sorted_by_key_split {A} (key : A → Z) (P : A → Prop)
    `{!∀ x, Decision (P x)} (l : list A) :
  (∀ x y, P x → ¬ P y → (key x < key y)%Z) →
  StronglySorted (λ a b, key a ≤ key b)%Z l →
  l = filter P l ++ filter (λ x, ¬ P x) l.
Proof.
  intros Hclass. induction 1 as [|x l Hl IH Hx]; [done|].
  destruct (decide (P x)) as [HP|HP].
  - rewrite filter_cons_True by done.
    rewrite (filter_cons_False (λ x, ¬ P x)) by (by intros ?). simpl.
    by rewrite <-IH.
  - rewrite filter_cons_False by done.
    rewrite (filter_cons_True (λ x, ¬ P x)) by done.
    assert (Forall (λ y, ¬ P y) l) as Hnone.
    { eapply Forall_impl; [exact Hx|]. simpl. intros y Hxy HPy.
      specialize (Hclass y x HPy HP). lia. }
    assert (filter P l = []) as ->.
    { clear -Hnone. induction Hnone as [|y l Hy _ IH]; [done|].
      by rewrite filter_cons_False. }
    assert (filter (λ x, ¬ P x) l = l) as ->; [|done].
    clear -Hnone. induction Hnone as [|y l Hy _ IH]; [done|].
    rewrite filter_cons_True by done. by rewrite IH.
Qed.

Lemma StronglySorted_filter {A} (R : relation A) (P : A → Prop)
    `{!∀ x, Decision (P x)} (l : list A) :
  StronglySorted R l → StronglySorted R (filter P l).
Proof.
  induction 1 as [|x l Hl IH Hx]; [constructor|].
  destruct (decide (P x)).
  - rewrite filter_cons_True by done. constructor; [done|].
    apply Forall_forall. intros y [_ Hy]%list_elem_of_filter.
    rewrite Forall_forall in Hx. by apply Hx.
  - by rewrite filter_cons_False.
Qed.

Lemma filter_agree {A} (P Q : A → Prop) `{!∀ x, Decision (P x)}
    `{!∀ x, Decision (Q x)} (l : list A) :
  (∀ x, x ∈ l → P x ↔ Q x) → filter P l = filter Q l.
Proof.
  induction l as [|x l IH]; intros Hagree; [done|].
  assert (filter P l = filter Q l) as Hrest.
  { apply IH. intros y Hy. by apply Hagree, list_elem_of_further. }
  destruct (decide (P x)) as [HP|HP].
  - rewrite !filter_cons_True; [by rewrite Hrest|..]; [|done].
    by apply (Hagree x (list_elem_of_here _ _)).
  - rewrite !filter_cons_False; [done|..]; [|done].
    by rewrite <-(Hagree x (list_elem_of_here _ _)).
Qed.

Lemma sorted_by_position (pos : string → Z) (l : list string) (i : nat) :
  (∀ j k, l !! j = Some k → pos k = Z.of_nat (i + j)) →
  StronglySorted (λ a b, pos a ≤ pos b)%Z l.
Proof.
  revert i. induction l as [|k l IH]; intros i Hpos; constructor.
  - apply (IH (S i)). intros j k' Hj. rewrite (Hpos (S j) k' Hj). f_equal. lia.
  - apply Forall_forall. intros k' (j & Hj)%list_elem_of_lookup_1.
    rewrite (Hpos 0%nat k eq_refl), (Hpos (S j) k' Hj). lia.
Qed.

Lemma elem_of_NoDup_fmap_inj {A B} (f : A → B) (l : list A) x y :
  NoDup (f <$> l) → x ∈ l → y ∈ l → f x = f y → x = y.
Proof.
  induction l as [|z l IH]; [by intros _ ?%elem_of_nil|].
  rewrite fmap_cons. intros [Hz Hnd]%NoDup_cons.
  intros [->|Hx]%elem_of_cons [->|Hy]%elem_of_cons Hf; [done| | |by apply IH].
  - destruct Hz. rewrite Hf. by apply list_elem_of_fmap_2.
  - destruct Hz. rewrite <-Hf. by apply list_elem_of_fmap_2.
Qed.

Lemma fmap_eq_through {X Y K} (f : X → K) (g : Y → K) (h : X → Y)
    (l1 : list X) (l2 : list Y) :
  f <$> l1 = g <$> l2 →
  (∀ x y, x ∈ l1 → y ∈ l2 → f x = g y → h x = y) →
  h <$> l1 = l2.
Proof.
  revert l2. induction l1 as [|x l1 IH]; intros [|y l2] Heq Hh; try done.
  rewrite !fmap_cons in Heq. injection Heq as Hxy Heq.
  rewrite fmap_cons. f_equal.
  - apply Hh; [apply list_elem_of_here..|done].
  - apply IH; [done|]. intros x' y' Hx' Hy'.
    apply Hh; by apply list_elem_of_further.
Qed.

(** The tables named by the returned list, and the others. *)
Lemma reorderBySorted_split sorted prev :
  NoDup (refKey <$> sorted) →
  (Z.of_nat (length sorted) ≤ MAX_SAFE_INTEGER)%Z →
  reorderBySorted sorted prev
  = filter (λ t, tableKey t ∈ refKey <$> sorted) (reorderBySorted sorted prev)
    ++ filter (λ t, ¬ tableKey t ∈ refKey <$> sorted) (reorderBySorted sorted prev).
Proof.
  intros Hnd Hlen.
  apply (sorted_by_key_split (sortIndex (fillSortedMap 0 sorted ∅))).
  - intros x y Hx Hy.
    destruct (sortIndex_listed sorted x Hnd Hx) as (j & Hj & ->).
    rewrite (sortIndex_unlisted sorted y Hnd Hy).
    apply lookup_lt_Some in Hj. rewrite length_fmap in Hj. lia.
  - apply reorderBySorted_sorted.
Qed.

(** The listed tables are in the order of the returned list. *)
Lemma reorderBySorted_listed sorted prev :
  NoDup (tableKey <$> prev) →
  NoDup (refKey <$> sorted) →
  (∀ k, k ∈ refKey <$> sorted → k ∈ tableKey <$> prev) →
  tableKey <$> filter (λ t, tableKey t ∈ refKey <$> sorted)
                 (reorderBySorted sorted prev)
  = refKey <$> sorted.
Proof.
  intros Hprev Hnd Hsub.
  set (next := reorderBySorted sorted prev).
  set (listed := filter (λ t, tableKey t ∈ refKey <$> sorted) next).
  set (pos := λ k, match fillSortedMap 0 sorted ∅ !! k with
                   | Some i => Z.of_nat i
                   | None => MAX_SAFE_INTEGER
                   end).
  assert (next ≡ₚ prev) as Hperm by apply reorderBySorted_Permutation.
  assert (NoDup (tableKey <$> listed)) as Hlisted.
  { eapply sublist_NoDup; [|apply fmap_sublist, sublist_filter].
    by rewrite Hperm. }
  apply (StronglySorted_unique_strong (λ a b, pos a ≤ pos b)%Z).
  - intros k1 k2 Hk1 Hk2 H12 H21.
    assert (k1 ∈ refKey <$> sorted) as Hk1'.
    { apply list_elem_of_fmap in Hk1 as (t & -> & Ht).
      by apply list_elem_of_filter in Ht as [? _]. }
    destruct (proj1 (sortedMap_lookup sorted k1 Hnd) Hk1') as (j1 & Hj1 & Hm1).
    destruct (proj1 (sortedMap_lookup sorted k2 Hnd) Hk2) as (j2 & Hj2 & Hm2).
    unfold pos in H12, H21. rewrite Hm1, Hm2 in H12, H21.
    assert (j1 = j2) as -> by lia. congruence.
  - apply (StronglySorted_fmap tableKey
             (λ a b, sortIndex (fillSortedMap 0 sorted ∅) a
                     ≤ sortIndex (fillSortedMap 0 sorted ∅) b)%Z); [done|].
    apply StronglySorted_filter, reorderBySorted_sorted.
  - apply (sorted_by_position pos _ 0). intros j k Hj. unfold pos.
    by rewrite (fillSortedMap_position 0 sorted ∅ j k).
  - apply NoDup_Permutation; [done..|]. intros k. split.
    + intros (t & -> & Ht)%list_elem_of_fmap.
      by apply list_elem_of_filter in Ht as [? _].
    + intros Hk. destruct (proj1 (list_elem_of_fmap _ _ _) (Hsub k Hk))
        as (t & -> & Ht).
      apply list_elem_of_fmap_2, list_elem_of_filter. split; [done|].
      by rewrite Hperm.
Qed.

(** The returned tables come first, in the returned order, and the others
    follow in the order they had. *)
Lemma reorderBySorted_shape sorted prev :
  NoDup (tableKey <$> prev) →
  NoDup (refKey <$> sorted) →
  (∀ k, k ∈ refKey <$> sorted → k ∈ tableKey <$> prev) →
  (Z.of_nat (length sorted) ≤ MAX_SAFE_INTEGER)%Z →
  tableKey <$> take (length sorted) (reorderBySorted sorted prev)
  = refKey <$> sorted
  ∧ drop (length sorted) (reorderBySorted sorted prev)
    = filter (λ t, ¬ tableKey t ∈ refKey <$> sorted) prev.
Proof.
  intros Hprev Hnd Hsub Hlen.
  pose proof (reorderBySorted_split sorted prev Hnd Hlen) as Hsplit.
  pose proof (reorderBySorted_listed sorted prev Hprev Hnd Hsub) as Hlisted.
  set (next := reorderBySorted sorted prev) in *.
  set (listed := filter (λ t, tableKey t ∈ refKey <$> sorted) next) in *.
  assert (length listed = length sorted) as Hlength.
  { by rewrite <-(length_fmap tableKey listed), Hlisted, length_fmap. }
  rewrite Hsplit, <-Hlength, take_app_length, drop_app_length.
  split; [done|].
  assert (∀ l : list TableInfo,
            filter (λ t, ¬ tableKey t ∈ refKey <$> sorted) l
            = filter (λ t, sortIndex (fillSortedMap 0 sorted ∅) t
                           = MAX_SAFE_INTEGER) l) as Hunlisted.
  { intros l. apply filter_agree. intros t _. split.
    - by apply sortIndex_unlisted.
    - intros Hmax Hin.
      destruct (sortIndex_listed sorted t Hnd Hin) as (j & Hj & Hidx).
      apply lookup_lt_Some in Hj. rewrite length_fmap in Hj. lia. }
  rewrite !Hunlisted. unfold next, reorderBySorted.
  apply Array_sort_stable, compareByIndex_key.
Qed.

(** After a sort that returned the selected tables in some order, the
    selected tables of the new list are the returned list. *)
Lemma selectedRefs_after_sort sorted prev (selected : gset string) :
  NoDup (tableKey <$> prev) →
  sorted ≡ₚ selectedRefs prev selected →
  selectedRefs (reorderBySorted sorted prev) selected = sorted.
Proof.
  intros Hprev Hsorted.
  assert (refKey <$> sorted ≡ₚ tableKey <$> filter (λ t, tableKey t ∈ selected) prev)
    as Hkeys.
  { rewrite Hsorted. unfold selectedRefs. by rewrite <-list_fmap_compose. }
  assert (NoDup (refKey <$> sorted)) as Hnd.
  { rewrite Hkeys. eapply sublist_NoDup; [exact Hprev|].
    apply fmap_sublist, sublist_filter. }
  assert (∀ k, k ∈ refKey <$> sorted ↔ k ∈ selected ∧ k ∈ tableKey <$> prev)
    as Hlistedkeys.
  { intros k. rewrite Hkeys, list_elem_of_fmap. split.
    - intros (t & -> & [Hsel Ht]%list_elem_of_filter).
      split; [done|]. by apply list_elem_of_fmap_2.
    - intros [Hsel (t & -> & Ht)%list_elem_of_fmap].
      exists t. split; [done|]. by apply list_elem_of_filter. }
  set (next := reorderBySorted sorted prev).
  assert (next ≡ₚ prev) as Hperm by apply reorderBySorted_Permutation.
  assert (filter (λ t, tableKey t ∈ selected) next
          = filter (λ t, tableKey t ∈ refKey <$> sorted) next) as Hfilter.
  { apply filter_agree. intros t Ht. rewrite Hlistedkeys. split; [|by intros [? _]].
    intros Hsel. split; [done|]. apply list_elem_of_fmap_2. by rewrite <-Hperm. }
  unfold selectedRefs. fold next. rewrite Hfilter.
  apply (fmap_eq_through tableKey refKey).
  - apply reorderBySorted_listed; [done..|]. intros k Hk. by apply Hlistedkeys.
  - intros t r [_ Ht]%list_elem_of_filter Hr Hkey.
    rewrite Hsorted in Hr. unfold selectedRefs in Hr.
    apply list_elem_of_fmap in Hr as (t' & -> & [_ Ht']%list_elem_of_filter).
    f_equal. rewrite Hperm in Ht.
    by apply (elem_of_NoDup_fmap_inj tableKey prev).
Qed.

Lemma step_sort_call y e y' calls c :
  step y e = Some (y', calls) → c ∈ calls → isSortCall c = true →
  e = ClickSort
  ∧ ∃ src, sourceConnection (app y) = Some src
           ∧ c = sort_tables_by_dependency (cs_id src)
                   (selectedRefs (sourceTables (app y)) (selectedTables (app y))).
Proof.
  intros Hstep Hc Hsort.
  destruct (step_inv _ _ _ _ Hstep)
    as (r & ec & ep & Hr & _ & _ & _ & -> & Hec & _).
  apply elem_of_app in Hc as [Hc|Hc].
  - pose proof (react_issued _ _ _ _ Hr Hc) as Hwho.
    destruct e as [payload| | | | | |selected|i|value|side config|side status
                  |side|conn|name|k resp]; try done.
    + destruct c; simpl in *; congruence.
    + by subst c.
    + destruct Hwho as (src & tgt & ->). done.
    + destruct resp; try done. destruct c; simpl in *; congruence.
  - rewrite Forall_forall in Hec. apply Hec in Hc.
    destruct c; simpl in *; congruence.
Qed.

Lemma run_sort_call y events y' log :
  run y events = Some (y', log) → ClickSort ∉ events →
  Forall (λ c, isSortCall c = false) log.
Proof.
  revert y log. induction events as [|e events IH]; intros y log Hrun Hno.
  - simpl in Hrun. simplify_eq. constructor.
  - simpl in Hrun.
    destruct (step y e) as [[y1 c1]|] eqn:Hstep; [|done]. simpl in Hrun.
    destruct (run y1 events) as [[y2 c2]|] eqn:Hrest; [|done].
    simpl in Hrun. simplify_eq.
    apply not_elem_of_cons in Hno as [Hne Hno].
    apply Forall_app. split; [|by eapply IH].
    apply Forall_forall. intros c Hc.
    destruct (isSortCall c) eqn:Hsort; [|done].
    by destruct (step_sort_call _ _ _ _ _ Hstep Hc Hsort) as [-> _].
Qed.

Lemma step_ClickSort y src :
  sourceConnection (app y) = Some src →
  isSorting (app y) = false →
  selectedTables (app y) ≠ ∅ →
  step y ClickSort
  = Some ({| app := setIsSorting true (app y); stored := stored y;
             pending := pending y ++ [PendingSort] |},
          [sort_tables_by_dependency (cs_id src)
             (selectedRefs (sourceTables (app y)) (selectedTables (app y)))]).
Proof.
  intros Hsrc Hidle Hsel.
  assert (size (selectedTables (app y)) ≠ 0%nat) as Hsize.
  { intros Hsize. by apply size_empty_iff, leibniz_equiv in Hsize. }
  unfold step, react. rewrite Hidle, bool_decide_eq_false_2 by done.
  unfold handleSort_begin. rewrite Hsrc, decide_False by done.
  change (commit y <$> Some ?r) with (Some (commit y r)).
  unfold commit, begins. simpl. rewrite runEffects_idle by done.
  by rewrite ?app_nil_r.
Qed.

Lemma step_SortSettled y k o :
  pending y !! k = Some PendingSort →
  step y (Settled k (SortSettled o))
  = Some ({| app := handleSort_settle o (app y); stored := stored y;
             pending := delete k (pending y) |}, []).
Proof.
  intros Hk. unfold step, react. rewrite Hk.
  change (commit y <$> Some ?r) with (Some (commit y r)).
  unfold commit. simpl. rewrite runEffects_idle by by destruct o.
  by rewrite ?app_nil_r.
Qed.

(** C6: a click on the sort control, enabled while no sort runs, a source
    is connected and the selection is not empty, runs [handleSort], which
    issues exactly one call, [sort_tables_by_dependency] for the selected
    tables in their current order, and leaves the list alone until the
    answer; when that call resolves, [sourceTables] is rearranged, without
    gain or loss, into the order of the positions in the returned list.
    A call of [sort_tables_by_dependency] is issued by that step only:
    [handleMigrate] issues no such call, neither before nor after its
    [await], and leaves the order of [sourceTables] alone, so a run
    without that click never sorts. *)
Theorem sorting_only_by_handleSort :
  (∀ s src,
     sourceConnection s = Some src → selectedTables s ≠ ∅ →
     ∃ s', handleSort_begin s
           = Some (s', sort_tables_by_dependency (cs_id src)
                         (selectedRefs (sourceTables s) (selectedTables s)))
           ∧ isSorting s' = true ∧ sourceTables s' = sourceTables s)
  ∧ (∀ y src,
       sourceConnection (app y) = Some src →
       isSorting (app y) = false →
       selectedTables (app y) ≠ ∅ →
       ∃ y',
         step y ClickSort
         = Some (y', [sort_tables_by_dependency (cs_id src)
                        (selectedRefs (sourceTables (app y))
                                      (selectedTables (app y)))])
         ∧ isSorting (app y') = true
         ∧ sourceTables (app y') = sourceTables (app y)
         ∧ pending y' = pending y ++ [PendingSort])
  ∧ (∀ y k sorted,
       pending y !! k = Some PendingSort →
       ∃ y',
         step y (Settled k (SortSettled (Js.Resolved sorted))) = Some (y', [])
         ∧ sourceTables (app y') = reorderBySorted sorted (sourceTables (app y))
         ∧ isSorting (app y') = false)
  ∧ (∀ y e y' calls c,
     step y e = Some (y', calls) → c ∈ calls → isSortCall c = true →
     e = ClickSort
     ∧ ∃ src, sourceConnection (app y) = Some src
              ∧ c = sort_tables_by_dependency (cs_id src)
                      (selectedRefs (sourceTables (app y))
                                    (selectedTables (app y))))
  ∧ (∀ s s' call,
       handleMigrate_begin s = Some (s', call) →
       isSortCall call = false ∧ sourceTables s' = sourceTables s)
  ∧ (∀ targetId o s,
       Forall (λ c, isSortCall c = false) (handleMigrate_settle targetId o s).2
       ∧ sourceTables (handleMigrate_settle targetId o s).1 = sourceTables s)
  ∧ (∀ saved events y log,
       run (initialSys saved) events = Some (y, log) →
       ClickSort ∉ events →
       Forall (λ c, isSortCall c = false) log)
  ∧ (∀ sorted s,
       let s' := handleSort_settle (Js.Resolved sorted) s in
       sourceTables s' ≡ₚ sourceTables s
       ∧ StronglySorted (indexOrdered sorted) (sourceTables s'))
  ∧ (∀ sorted s,
       NoDup (tableKey <$> sourceTables s) →
       NoDup (refKey <$> sorted) →
       (∀ k, k ∈ refKey <$> sorted → k ∈ tableKey <$> sourceTables s) →
       (Z.of_nat (length sorted) ≤ MAX_SAFE_INTEGER)%Z →
       let s' := handleSort_settle (Js.Resolved sorted) s in
       tableKey <$> take (length sorted) (sourceTables s') = refKey <$> sorted
       ∧ drop (length sorted) (sourceTables s')
         = filter (λ t, ¬ tableKey t ∈ refKey <$> sorted) (sourceTables s))
  ∧ (∀ sorted s s2 request,
       NoDup (tableKey <$> sourceTables s) →
       sorted ≡ₚ selectedRefs (sourceTables s) (selectedTables s) →
       handleMigrate_begin (handleSort_settle (Js.Resolved sorted) s)
       = Some (s2, start_migration request) →
       req_tables request = sorted).
Proof.
  split; [|split; [|split; [|split; [exact step_sort_call|]]]].
  { intros s src Hsrc Hsel. eexists. unfold handleSort_begin.
    rewrite Hsrc, decide_False; [done|].
    intros Hsize. by apply size_empty_iff, leibniz_equiv in Hsize. }
  { intros y src Hsrc Hidle Hsel. eexists.
    split; [by apply step_ClickSort|done]. }
  { intros y k sorted Hk. eexists.
    split; [by apply step_SortSettled|done]. }
  split; [|split; [|split; [|split; [|split]]]].
  - intros s s' call. unfold handleMigrate_begin.
    repeat (case_match || case_decide); try done. by intros [= <- <-].
  - intros targetId [r|e] s; simpl; split; by repeat constructor.
  - intros saved events y log. apply run_sort_call.
  - intros sorted s. simpl. split.
    + apply reorderBySorted_Permutation.
    + apply reorderBySorted_sorted.
  - intros sorted s Hkeys Hnd Hsub Hlen. simpl.
    by apply reorderBySorted_shape.
  - intros sorted s s2 request Hkeys Hsorted Hbegin.
    rewrite (proj1 (handleMigrate_request _ _ _ Hbegin)). simpl.
    by apply selectedRefs_after_sort.
Qed.

Lemma sorting_only_by_handleSort_witness :
  (∃ y1 y2,
     step exampleReady ClickSort
     = Some (y1, [sort_tables_by_dependency "src"
                    [ {| tr_schema := "public"; tr_name := "orders" |};
                      {| tr_schema := "public"; tr_name := "users" |} ]])
     ∧ step y1 (Settled 0 (SortSettled (Js.Resolved exampleSorted)))
       = Some (y2, [])
     ∧ tableKey <$> sourceTables (app y2)
       = ["public.users"; "public.orders"; "public.items"])
  ∧ (∃ y log,
     run (initialSys []) exampleEvents = Some (y, log)
     ∧ Forall (λ c, isSortCall c = false) log)
  ∧ (∃ s2 request,
       handleMigrate_begin (handleSort_settle (Js.Resolved exampleSorted) exampleState)
       = Some (s2, start_migration request)
       ∧ req_tables request = exampleSorted).
Proof.
  destruct sorting_only_by_handleSort
    as (_ & Hclick & Hsettle & _ & _ & _ & Hrun_sort & _ & _ & Horder).
  split; [|split].
  - destruct (Hclick exampleReady (exampleConnection "src"))
      as (y1 & Hstep & _ & Htables & Hpending); [reflexivity|reflexivity| |].
    { intros Hempty.
      assert ("public.users" ∈ selectedTables (app exampleReady)) as Hin.
      { apply elem_of_union. right. by apply elem_of_singleton. }
      rewrite Hempty in Hin. by apply not_elem_of_empty in Hin. }
    destruct (Hsettle y1 0%nat exampleSorted) as (y2 & Hstep2 & Htables2 & _).
    { rewrite Hpending. reflexivity. }
    exists y1, y2. split; [|split; [exact Hstep2|]].
    + assert (selectedRefs (sourceTables (app exampleReady))
                           (selectedTables (app exampleReady))
              = [ {| tr_schema := "public"; tr_name := "orders" |};
                  {| tr_schema := "public"; tr_name := "users" |} ]) as Hrefs
        by (vm_compute; reflexivity).
      rewrite Hrefs in Hstep. exact Hstep.
    + rewrite Htables2, Htables. vm_compute. reflexivity.
  - destruct exampleEvents_run as (y & request & Hrun & _).
    eexists y, _. split; [exact Hrun|].
    apply (Hrun_sort [] exampleEvents y _ Hrun).
    unfold exampleEvents. rewrite !not_elem_of_cons.
    repeat split; try (intros Heq; discriminate Heq).
    apply not_elem_of_nil.
  - assert (∃ s2 request,
              handleMigrate_begin
                (handleSort_settle (Js.Resolved exampleSorted) exampleState)
              = Some (s2, start_migration request)) as (s2 & request & Hbegin).
    { eexists _, _. vm_compute. reflexivity. }
    exists s2, request. split; [exact Hbegin|].
    apply (Horder exampleSorted exampleState s2 request); [| |exact Hbegin].
    + apply (bool_decide_unpack (NoDup (tableKey <$> sourceTables exampleState))).
      vm_compute. exact I.
    + replace (selectedRefs (sourceTables exampleState) (selectedTables exampleState))
        with [ {| tr_schema := "public"; tr_name := "orders" |};
               {| tr_schema := "public"; tr_name := "users" |} ]
        by (vm_compute; reflexivity).
      apply Permutation_swap.
Defined.

(** * Further properties of the application *)

#[local] Set Warnings "-clear-no-such-hyp".

(** ** Invariants of runs *)

Lemma run_invariant (P : Sys → Prop) y events y' log :
  (∀ y e y' calls, P y → step y e = Some (y', calls) → P y') →
  P y → run y events = Some (y', log) → P y'.
Proof.
  intros Hstep. revert y log.
  induction events as [|e events IH]; intros y log HP Hrun.
  - simpl in Hrun. by simplify_eq.
  - simpl in Hrun.
    destruct (step y e) as [[y1 c1]|] eqn:He; [|done]. simpl in Hrun.
    destruct (run y1 events) as [[y2 c2]|] eqn:Hrest; [|done].
    simpl in Hrun. simplify_eq. eapply IH; [|exact Hrest]. by eapply Hstep.
Qed.

Lemma run_log_invariant (P : Sys → Prop) (Q : Invocation → Prop)
    y events y' log :
  (∀ y e y' calls, P y → step y e = Some (y', calls) → P y' ∧ Forall Q calls) →
  P y → run y events = Some (y', log) → P y' ∧ Forall Q log.
Proof.
  intros Hstep. revert y log.
  induction events as [|e events IH]; intros y log HP Hrun.
  - simpl in Hrun. simplify_eq. by split.
  - simpl in Hrun.
    destruct (step y e) as [[y1 c1]|] eqn:He; [|done]. simpl in Hrun.
    destruct (run y1 events) as [[y2 c2]|] eqn:Hrest; [|done].
    simpl in Hrun. simplify_eq.
    destruct (Hstep _ _ _ _ HP He) as [HP1 Hc1].
    destruct (IH _ _ HP1 Hrest) as [HP2 Hc2].
    split; [done|]. by apply Forall_app.
Qed.

(** The promises the effects create are those of the listings. *)
Lemma runEffects_fetches old s :
  Forall (λ p, isPendingSort p = false ∧ isPendingAnalyze p = false)
         (runEffects old s).2.
Proof.
  unfold runEffects, sourceEffect, targetEffect.
  repeat (case_decide || case_match || simplify_eq/=); by repeat constructor.
Qed.

Lemma step_inv_fetch y e y' calls :
  step y e = Some (y', calls) →
  ∃ r ec ep,
    react y e = Some r
    ∧ sameButListings (nextState r) (app y')
    ∧ pending y' = remaining r ++ created r ++ ep
    ∧ calls = issued r ++ ec
    ∧ Forall (λ c, isFetch c = true) ec
    ∧ Forall (λ p, isPendingSort p = false ∧ isPendingAnalyze p = false) ep.
Proof.
  intros Hstep.
  destruct (step_inv _ _ _ _ Hstep)
    as (r & ec & ep & Hr & Hsame & _ & Hp & Hc & Hec & _).
  exists r, ec, ep.
  refine (conj Hr (conj Hsame (conj Hp (conj Hc (conj Hec _))))).
  unfold step in Hstep. rewrite Hr in Hstep. simpl in Hstep.
  unfold commit in Hstep.
  pose proof (runEffects_fetches (app y) (nextState r)) as Hf.
  destruct (runEffects (app y) (nextState r)) as [[s2 ec'] ep'].
  simplify_eq. simpl in *.
  by apply app_inv_head, app_inv_head in Hp as <-.
Qed.

Lemma countPending_app kind l1 l2 :
  countPending kind (l1 ++ l2)
  = (countPending kind l1 + countPending kind l2)%nat.
Proof. unfold countPending. by rewrite filter_app, length_app. Qed.

Lemma countPending_none kind l :
  Forall (λ p, kind p = false) l → countPending kind l = 0%nat.
Proof.
  unfold countPending. induction 1 as [|p l Hp _ IH]; [done|].
  rewrite filter_cons_False; [done|congruence].
Qed.

Lemma countPending_delete kind l k p :
  l !! k = Some p →
  countPending kind l
  = ((if kind p then 1 else 0) + countPending kind (delete k l))%nat.
Proof.
  unfold countPending. revert k. induction l as [|q l IH]; intros [|k] Hk; try done.
  - simpl in Hk. simplify_eq. simpl.
    destruct (kind p) eqn:Hp.
    + by rewrite filter_cons_True.
    + rewrite filter_cons_False; [done|congruence].
  - simpl in Hk. change (delete (S k) (q :: l)) with (q :: delete k l).
    destruct (kind q) eqn:Hq.
    + rewrite !filter_cons_True by done. simpl. rewrite (IH k Hk). lia.
    + rewrite !filter_cons_False by congruence. by apply IH.
Qed.

(** The options change through the panel only. *)
Lemma react_options y e r :
  react y e = Some r →
  options (nextState r) = options (app y)
  ∨ ∃ i, e = PanelEvent i
         ∧ MigrationPanel_input (options (app y)) i = Some (options (nextState r)).
Proof.
  destruct e as [payload| | | | | |selected|i|value|side config|side status
                |side|conn|name|k resp];
    simpl; intros Hr; repeat case_match; simplify_eq; auto;
    try (by left; destruct side).
  - left. unfold handleMigrate_begin. repeat (case_match || case_decide); done.
  - left. unfold handleSort_begin. repeat (case_match || case_decide); done.
  - left. unfold handleAnalyze_begin. repeat case_match; done.
  - destruct (MigrationPanel_input (options (app y)) i) as [o|] eqn:Hi;
      simpl in Hr; [|done].
    simplify_eq. right. eauto.
  - left. destruct (pending y !! k) as [p|]; [|done]. simpl in Hr.
    destruct p, resp; simpl in Hr; try done;
      unfold handleMigrate_settle in Hr;
      repeat case_match; simplify_eq; simpl; try done.
    + by destruct o.
    + by destruct o.
    + by destruct o, side.
Qed.

Lemma step_options y e y' calls :
  step y e = Some (y', calls) →
  (options (app y') = options (app y)
   ∨ ∃ i, MigrationPanel_input (options (app y)) i = Some (options (app y')))
  ∧ ∀ request, start_migration request ∈ calls →
               req_options request = options (app y).
Proof.
  intros Hstep.
  destruct (step_inv _ _ _ _ Hstep)
    as (r & ec & ep & Hr & Hsame & _ & _ & -> & Hec & _).
  destruct Hsame as (_ & _ & _ & _ & _ & _ & _ & _ & _ & _ & _ & _ & ->).
  split.
  - destruct (react_options _ _ _ Hr) as [->|(i & _ & Hi)]; eauto.
  - intros request [Hin|Hin]%elem_of_app.
    + destruct (react_migration _ _ _ Hr)
        as [(_ & _ & _ & Hnone)
           |[(_ & _ & _ & _ & _ & request' & Hissued & Hopt)
            |(k & o & tid & _ & _ & _ & _ & _ & Hfetch)]].
      * rewrite Forall_forall in Hnone. by apply Hnone in Hin.
      * rewrite Hissued in Hin. apply list_elem_of_singleton in Hin.
        by simplify_eq.
      * rewrite Forall_forall in Hfetch. by apply Hfetch in Hin.
    + rewrite Forall_forall in Hec. by apply Hec in Hin.
Qed.

(** X1: the panel has no control for [disable_constraints]: no input
    changes it, so along every run it keeps its initial value, true, in the
    options and in every [start_migration] request; and each of the two
    check boxes is undone by a second click. *)
Theorem disable_constraints_fixed :
  (∀ options i options',
     MigrationPanel_input options i = Some options' →
     disable_constraints options' = disable_constraints options)
  ∧ (∀ options i,
       i = ClickCreateTable ∨ i = ClickTruncate →
       (MigrationPanel_input options i ≫= λ o, MigrationPanel_input o i)
       = Some options)
  ∧ (∀ saved events y log,
       run (initialSys saved) events = Some (y, log) →
       disable_constraints (options (app y)) = true
       ∧ ∀ request, start_migration request ∈ log →
                    disable_constraints (req_options request) = true).
Proof.
  assert (∀ options i options',
            MigrationPanel_input options i = Some options' →
            disable_constraints options' = disable_constraints options) as Hpanel.
  { intros o [| |k] o'; simpl; [by intros [= <-]..|].
    destruct (batchSizeChoices !! k); simpl; [|done]. by intros [= <-]. }
  split; [done|]. split.
  - intros [c t d b] i [-> | ->]; simpl; by rewrite negb_involutive.
  - intros saved events y log Hrun.
    destruct (run_log_invariant
                (λ y, disable_constraints (options (app y)) = true)
                (λ c, ∀ request, c = start_migration request →
                                 disable_constraints (req_options request) = true)
                (initialSys saved) events y log) as [Hy Hlog]; [|done|done|].
    + intros y0 e y1 calls Hinv Hstep.
      destruct (step_options _ _ _ _ Hstep) as [Hopt Hreq]. split.
      * destruct Hopt as [->|(i & Hi)]; [done|].
        by rewrite (Hpanel _ _ _ Hi).
      * apply Forall_forall. intros c Hc request ->.
        by rewrite (Hreq request Hc).
    + split; [done|]. intros request Hin.
      rewrite Forall_forall in Hlog. by apply (Hlog _ Hin).
Qed.

Lemma disable_constraints_fixed_witness :
  ∃ y log request,
    run (initialSys []) exampleEvents = Some (y, log)
    ∧ start_migration request ∈ log
    ∧ disable_constraints (req_options request) = true.
Proof.
  destruct exampleEvents_run as (y & request & Hrun & _ & _).
  eexists y, _, request. split; [exact Hrun|].
  assert (start_migration request
          ∈ [get_tables "src"; get_tables "tgt"; get_schemas "tgt";
             start_migration request]) as Hin.
  { do 3 apply list_elem_of_further. apply list_elem_of_here. }
  split; [exact Hin|].
  destruct disable_constraints_fixed as (_ & _ & Hreach).
  exact (proj2 (Hreach [] exampleEvents y _ Hrun) request Hin).
Defined.

(** ** Sorting and analysis in flight *)

Local Ltac untouched :=
  left; simpl in *; repeat split; try done; by repeat constructor.

Lemma react_sorting y e r :
  react y e = Some r →
  (isSorting (nextState r) = isSorting (app y)
   ∧ countPending isPendingSort (created r) = 0%nat
   ∧ countPending isPendingSort (remaining r)
     = countPending isPendingSort (pending y))
  ∨ (e = ClickSort
     ∧ isSorting (app y) = false
     ∧ isSorting (nextState r) = true
     ∧ countPending isPendingSort (created r) = 1%nat
     ∧ remaining r = pending y)
  ∨ (∃ k o,
       e = Settled k (SortSettled o)
       ∧ pending y !! k = Some PendingSort
       ∧ isSorting (nextState r) = false
       ∧ countPending isPendingSort (created r) = 0%nat
       ∧ remaining r = delete k (pending y)).
Proof.
  destruct e as [payload| | | | | |selected|i|value|side config|side status
                |side|conn|name|k resp];
    simpl; intros Hr.
  - simplify_eq. untouched.
  - repeat case_match; simplify_eq. unfold handleMigrate_begin.
    repeat (case_match || case_decide); untouched.
  - repeat case_match; simplify_eq. untouched.
  - repeat case_match; simplify_eq. untouched.
  - destruct (isSorting (app y)) eqn:Hs; [done|]. simpl in Hr.
    case_match; simplify_eq. unfold handleSort_begin.
    destruct (sourceConnection (app y)) as [src|]; [|untouched].
    case_decide; [untouched|].
    right. left. by repeat split.
  - repeat case_match; simplify_eq. unfold handleAnalyze_begin.
    repeat case_match; untouched.
  - simplify_eq. untouched.
  - destruct (MigrationPanel_input (options (app y)) i); [|done].
    simpl in Hr. simplify_eq. untouched.
  - simplify_eq. untouched.
  - simplify_eq. destruct side; untouched.
  - simplify_eq. destruct side; untouched.
  - simplify_eq. destruct side; untouched.
  - simplify_eq. untouched.
  - simplify_eq. untouched.
  - destruct (pending y !! k) as [p|] eqn:Hk; [|done]. simpl in Hr.
    pose proof (countPending_delete isPendingSort _ _ _ Hk) as Hdel.
    destruct p, resp; simpl in Hr; try done.
    + unfold handleMigrate_settle in Hr. destruct o; simplify_eq; untouched.
    + right. right. exists k, o. simplify_eq. by repeat split.
    + simplify_eq. destruct o; untouched.
    + simplify_eq. destruct o, side; untouched.
    + simplify_eq. destruct o; untouched.
    + simplify_eq. untouched.
Qed.

Lemma react_analyzing y e r :
  react y e = Some r →
  (isAnalyzing (nextState r) = isAnalyzing (app y)
   ∧ countPending isPendingAnalyze (created r) = 0%nat
   ∧ countPending isPendingAnalyze (remaining r)
     = countPending isPendingAnalyze (pending y))
  ∨ (e = ClickAnalyze
     ∧ isAnalyzing (app y) = false
     ∧ isAnalyzing (nextState r) = true
     ∧ countPending isPendingAnalyze (created r) = 1%nat
     ∧ remaining r = pending y)
  ∨ (∃ k o,
       e = Settled k (AnalyzeSettled o)
       ∧ pending y !! k = Some PendingAnalyze
       ∧ isAnalyzing (nextState r) = false
       ∧ countPending isPendingAnalyze (created r) = 0%nat
       ∧ remaining r = delete k (pending y)).
Proof.
  destruct e as [payload| | | | | |selected|i|value|side config|side status
                |side|conn|name|k resp];
    simpl; intros Hr.
  - simplify_eq. untouched.
  - repeat case_match; simplify_eq. unfold handleMigrate_begin.
    repeat (case_match || case_decide); untouched.
  - repeat case_match; simplify_eq. untouched.
  - repeat case_match; simplify_eq. untouched.
  - repeat case_match; simplify_eq. unfold handleSort_begin.
    repeat (case_match || case_decide); untouched.
  - destruct (isAnalyzing (app y)) eqn:Hs;
      [by rewrite andb_false_r in Hr|].
    case_match; simplify_eq. unfold handleAnalyze_begin.
    destruct (sourceConnection (app y)) as [src|]; [|untouched].
    destruct (targetConnection (app y)) as [tgt|]; [|untouched].
    right. left. by repeat split.
  - simplify_eq. untouched.
  - destruct (MigrationPanel_input (options (app y)) i); [|done].
    simpl in Hr. simplify_eq. untouched.
  - simplify_eq. untouched.
  - simplify_eq. destruct side; untouched.
  - simplify_eq. destruct side; untouched.
  - simplify_eq. destruct side; untouched.
  - simplify_eq. untouched.
  - simplify_eq. untouched.
  - destruct (pending y !! k) as [p|] eqn:Hk; [|done]. simpl in Hr.
    pose proof (countPending_delete isPendingAnalyze _ _ _ Hk) as Hdel.
    destruct p, resp; simpl in Hr; try done.
    + unfold handleMigrate_settle in Hr. destruct o; simplify_eq; untouched.
    + simplify_eq. destruct o; untouched.
    + right. right. exists k, o. simplify_eq. by repeat split.
    + simplify_eq. destruct o, side; untouched.
    + simplify_eq. destruct o; untouched.
    + simplify_eq. untouched.
Qed.

(** X2: in every state the application reaches at most one
    [sort_tables_by_dependency] call is pending, and one is pending exactly
    when [isSorting] holds; while it holds the sort control is disabled. *)
Theorem single_sort_in_flight :
  (∀ saved events y log,
     run (initialSys saved) events = Some (y, log) →
     (countPending isPendingSort (pending y) ≤ 1)%nat
     ∧ (isSorting (app y) = true
        ↔ countPending isPendingSort (pending y) = 1%nat))
  ∧ (∀ y, isSorting (app y) = true → step y ClickSort = None).
Proof.
  split.
  - intros saved events y log Hrun.
    assert (countPending isPendingSort (pending y)
            = if isSorting (app y) then 1%nat else 0%nat) as Hinv.
    { apply (run_invariant
               (λ y, countPending isPendingSort (pending y)
                     = if isSorting (app y) then 1%nat else 0%nat)
               (initialSys saved) events y log); [|done|done].
      clear. intros y e y' calls Hinv Hstep.
      destruct (step_inv_fetch _ _ _ _ Hstep)
        as (r & ec & ep & Hr & Hsame & -> & _ & _ & Hep).
      destruct Hsame as (_ & _ & _ & _ & _ & _ & _ & -> & _).
      rewrite !countPending_app.
      rewrite (countPending_none isPendingSort ep)
        by (eapply Forall_impl; [exact Hep|]; by intros p [? _]).
      destruct (react_sorting _ _ _ Hr)
        as [(-> & -> & ->)
           |[(_ & Hs & -> & -> & ->)
            |(k & o & _ & Hk & -> & -> & ->)]].
      - lia.
      - rewrite Hs in Hinv. lia.
      - rewrite (countPending_delete _ _ _ _ Hk) in Hinv. simpl in Hinv.
        destruct (isSorting (app y)); lia. }
    rewrite Hinv. destruct (isSorting (app y)); split; (lia || done).
  - intros y Hs. unfold step. simpl. by rewrite Hs.
Qed.

Lemma single_sort_in_flight_witness :
  ∃ y log,
    run (initialSys []) (exampleEvents ++ [ClickSort]) = Some (y, log)
    ∧ (countPending isPendingSort (pending y) ≤ 1)%nat
    ∧ step y ClickSort = None.
Proof.
  assert (∃ y log,
            run (initialSys []) (exampleEvents ++ [ClickSort]) = Some (y, log)
            ∧ isSorting (app y) = true) as (y & log & Hrun & Hs).
  { eexists _, _. vm_compute. split; reflexivity. }
  exists y, log. split; [exact Hrun|].
  destruct single_sort_in_flight as [Hreach Hoff].
  split; [exact (proj1 (Hreach [] _ y log Hrun)) | exact (Hoff y Hs)].
Defined.

(** X3: in every state the application reaches at most one
    [analyze_schema] call is pending, and one is pending exactly when
    [isAnalyzing] holds; while it holds the analyze control is disabled. *)
Theorem single_analysis_in_flight :
  (∀ saved events y log,
     run (initialSys saved) events = Some (y, log) →
     (countPending isPendingAnalyze (pending y) ≤ 1)%nat
     ∧ (isAnalyzing (app y) = true
        ↔ countPending isPendingAnalyze (pending y) = 1%nat))
  ∧ (∀ y, isAnalyzing (app y) = true → step y ClickAnalyze = None).
Proof.
  split.
  - intros saved events y log Hrun.
    assert (countPending isPendingAnalyze (pending y)
            = if isAnalyzing (app y) then 1%nat else 0%nat) as Hinv.
    { apply (run_invariant
               (λ y, countPending isPendingAnalyze (pending y)
                     = if isAnalyzing (app y) then 1%nat else 0%nat)
               (initialSys saved) events y log); [|done|done].
      clear. intros y e y' calls Hinv Hstep.
      destruct (step_inv_fetch _ _ _ _ Hstep)
        as (r & ec & ep & Hr & Hsame & -> & _ & _ & Hep).
      destruct Hsame as (_ & _ & _ & _ & _ & _ & -> & _).
      rewrite !countPending_app.
      rewrite (countPending_none isPendingAnalyze ep)
        by (eapply Forall_impl; [exact Hep|]; by intros p [_ ?]).
      destruct (react_analyzing _ _ _ Hr)
        as [(-> & -> & ->)
           |[(_ & Hs & -> & -> & ->)
            |(k & o & _ & Hk & -> & -> & ->)]].
      - lia.
      - rewrite Hs in Hinv. lia.
      - rewrite (countPending_delete _ _ _ _ Hk) in Hinv. simpl in Hinv.
        destruct (isAnalyzing (app y)); lia. }
    rewrite Hinv. destruct (isAnalyzing (app y)); split; (lia || done).
  - intros y Hs. unfold step. simpl. rewrite Hs. by rewrite andb_false_r.
Qed.

Lemma single_analysis_in_flight_witness :
  ∃ y log,
    run (initialSys []) (exampleEvents ++ [ClickAnalyze]) = Some (y, log)
    ∧ (countPending isPendingAnalyze (pending y) ≤ 1)%nat
    ∧ step y ClickAnalyze = None.
Proof.
  assert (∃ y log,
            run (initialSys []) (exampleEvents ++ [ClickAnalyze]) = Some (y, log)
            ∧ isAnalyzing (app y) = true) as (y & log & Hrun & Hs).
  { eexists _, _. vm_compute. split; reflexivity. }
  exists y, log. split; [exact Hrun|].
  destruct single_analysis_in_flight as [Hreach Hoff].
  split; [exact (proj1 (Hreach [] _ y log Hrun)) | exact (Hoff y Hs)].
Defined.

(** ** Steps of the migration life cycle *)

Lemma commit_idle y r :
  sourceConnection (nextState r) = sourceConnection (app y) →
  targetConnection (nextState r) = targetConnection (app y) →
  commit y r
  = ({| app := nextState r; stored := written r;
        pending := remaining r ++ created r |}, issued r).
Proof.
  intros Hs Ht. unfold commit. rewrite runEffects_idle by done.
  by rewrite !app_nil_r.
Qed.

Lemma isConnected_Some c :
  isConnected c = true → ∃ st, c = Some st ∧ cs_connected st = true.
Proof. destruct c as [st|]; [eauto|done]. Qed.

(** X4: the Migrate button can be clicked only while no migration runs,
    both databases are connected and the selection is not empty; the click
    then always issues exactly one call, [start_migration] for the current
    connections, selection, options and schema override, registers its
    promise, and the application shows the preparing placeholder, the Cancel
    button and no result banner. *)
Theorem migrate_click_starts (y y' : Sys) (calls : list Invocation) :
  step y ClickMigrate = Some (y', calls) →
  ∃ src tgt,
    sourceConnection (app y) = Some src
    ∧ targetConnection (app y) = Some tgt
    ∧ cs_connected src = true ∧ cs_connected tgt = true
    ∧ isMigrating (app y) = false
    ∧ selectedTables (app y) ≠ ∅
    ∧ calls = [start_migration
                 {| source_connection_id := cs_id src;
                    target_connection_id := cs_id tgt;
                    req_tables := selectedRefs (sourceTables (app y))
                                               (selectedTables (app y));
                    req_options := options (app y);
                    target_schema_override :=
                      schemaOverride (targetSchema (app y)) |}]
    ∧ pending y' = pending y ++ [PendingMigration (cs_id tgt)]
    ∧ renderProgress (app y') = Some Preparing
    ∧ renderResult (app y') = NoBanner
    ∧ renderAction (app y') = CancelButton.
Proof.
  unfold step. simpl. unfold renderAction, MigrationPanel_action.
  destruct (isMigrating (app y)) eqn:Hm; [done|].
  destruct (canMigrate (app y)) eqn:Hcan; [|done]. simpl.
  unfold canMigrate in Hcan.
  apply andb_true_iff in Hcan as [[Hsrc Htgt]%andb_true_iff Hsize].
  apply isConnected_Some in Hsrc as (src & Hsrc & Hsrc').
  apply isConnected_Some in Htgt as (tgt & Htgt & Htgt').
  apply bool_decide_eq_true in Hsize.
  unfold handleMigrate_begin. rewrite Hsrc, Htgt.
  rewrite decide_False by lia. simpl.
  rewrite commit_idle by done. simpl. intros [= <- <-].
  exists src, tgt. repeat split; try done.
  intros Hempty. rewrite Hempty, size_empty in Hsize. lia.
Qed.

Lemma migrate_click_starts_witness :
  ∃ y' request,
    step {| app := exampleState; stored := []; pending := [] |} ClickMigrate
    = Some (y', [start_migration request])
    ∧ pending y' = [PendingMigration "tgt"]
    ∧ renderProgress (app y') = Some Preparing.
Proof.
  assert (∃ y' calls,
            step {| app := exampleState; stored := []; pending := [] |}
                 ClickMigrate = Some (y', calls)) as (y' & calls & Hstep).
  { eexists _, _. vm_compute. reflexivity. }
  destruct (migrate_click_starts _ _ _ Hstep)
    as (src & tgt & Hsrc & Htgt & _ & _ & _ & _ & Hcalls & Hpending & Hbar & _).
  injection Htgt as <-. rewrite Hcalls in Hstep.
  eexists y', _. split; [exact Hstep|]. split; [exact Hpending | exact Hbar].
Defined.

(** X5: when the promise of a migration settles, the application leaves
    the migrating state, hides the progress bar, offers Migrate again and
    shows the banner of the result, the one received or the failed one made
    from the error; a resolved run then asks once for the tables of the
    target it was started with, a rejected run issues no call; source tables
    and selection stay as they are. *)
Theorem migration_settle_step (y y' : Sys) (k : nat) (targetId : string)
    (o : Js.Outcome MigrationResult) (calls : list Invocation) :
  pending y !! k = Some (PendingMigration targetId) →
  step y (Settled k (MigrationSettled o)) = Some (y', calls) →
  isMigrating (app y') = false
  ∧ renderProgress (app y') = None
  ∧ renderAction (app y') ≠ CancelButton
  ∧ sourceTables (app y') = sourceTables (app y)
  ∧ selectedTables (app y') = selectedTables (app y)
  ∧ match o with
    | Js.Resolved result =>
        lastResult (app y') = Some result
        ∧ renderResult (app y') = resultBanner result
        ∧ calls = [get_tables targetId]
        ∧ pending y' = delete k (pending y) ++ [PendingTables Target]
    | Js.Rejected error =>
        lastResult (app y') = Some (failedResult error)
        ∧ renderResult (app y')
          = ErrorBanner ("Migration failed: " +:+ Js.String_ error)
        ∧ calls = []
        ∧ pending y' = delete k (pending y)
    end.
Proof.
  intros Hk. unfold step. simpl. rewrite Hk. simpl.
  destruct o as [result|error]; simpl; rewrite commit_idle by done; simpl;
    intros [= <- <-]; simpl; repeat split; try done.
  by rewrite app_nil_r.
Qed.

Lemma migration_settle_step_witness :
  ∃ y',
    step exampleMigrating
         (Settled 0 (MigrationSettled (Js.Rejected (Js.ThrownString "connection lost"))))
    = Some (y', [])
    ∧ renderResult (app y') = ErrorBanner "Migration failed: connection lost"
    ∧ renderProgress (app y') = None.
Proof.
  assert (∃ y' calls,
            step exampleMigrating
                 (Settled 0 (MigrationSettled
                               (Js.Rejected (Js.ThrownString "connection lost"))))
            = Some (y', calls)) as (y' & calls & Hstep).
  { eexists _, _. vm_compute. reflexivity. }
  destruct (migration_settle_step exampleMigrating y' 0 "tgt" _ calls eq_refl Hstep)
    as (_ & Hbar & _ & _ & _ & _ & Hbanner & Hcalls & _).
  rewrite Hcalls in Hstep. exists y'.
  split; [exact Hstep|]. split; [exact Hbanner | exact Hbar].
Defined.

(** X6: Cancel can be clicked only while a migration runs; the click
    issues [cancel_migration] and changes nothing in the application: the
    run stays in flight and the Cancel button stays, until the promise of
    the migration settles. *)
Theorem cancel_click_step (y y' : Sys) (calls : list Invocation) :
  step y ClickCancel = Some (y', calls) →
  isMigrating (app y) = true
  ∧ calls = [cancel_migration]
  ∧ app y' = app y
  ∧ stored y' = stored y
  ∧ pending y' = pending y ++ [PendingCancel]
  ∧ inFlight y' = inFlight y
  ∧ renderAction (app y') = CancelButton.
Proof.
  unfold step. simpl. unfold renderAction, MigrationPanel_action.
  destruct (isMigrating (app y)) eqn:Hm; [|done]. simpl.
  rewrite commit_idle by done. simpl. intros [= <- <-]. simpl.
  repeat split; try done.
  - unfold inFlight. simpl. rewrite migrations_app. simpl.
    unfold migrations at 2. rewrite filter_cons_False by done. simpl. lia.
  - by rewrite Hm.
Qed.

Lemma cancel_click_step_witness :
  ∃ y',
    step exampleMigrating ClickCancel = Some (y', [cancel_migration])
    ∧ app y' = app exampleMigrating
    ∧ inFlight y' = 1%nat.
Proof.
  assert (∃ y' calls, step exampleMigrating ClickCancel = Some (y', calls))
    as (y' & calls & Hstep).
  { eexists _, _. vm_compute. reflexivity. }
  destruct (cancel_click_step _ _ _ Hstep)
    as (_ & Hcalls & Happ & _ & _ & Hflight & _).
  rewrite Hcalls in Hstep. exists y'.
  split; [exact Hstep|]. split; [exact Happ|]. rewrite Hflight. reflexivity.
Defined.

(** The stored progress is cleared by [handleMigrate] only. *)
Lemma react_progress y e r :
  react y e = Some r →
  progress (nextState r) = progress (app y)
  ∨ (∃ payload, e = ProgressEvent payload)
  ∨ e = ClickMigrate
  ∨ ∃ k o, e = Settled k (MigrationSettled o).
Proof.
  destruct e as [payload| | | | | |selected|i|value|side config|side status
                |side|conn|name|k resp];
    simpl; intros Hr; repeat case_match; simplify_eq; eauto;
    try (by left; destruct side).
  - left. unfold handleSort_begin. repeat (case_match || case_decide); done.
  - left. unfold handleAnalyze_begin. repeat case_match; done.
  - destruct (MigrationPanel_input (options (app y)) i) as [o|];
      simpl in Hr; [|done].
    simplify_eq. by left.
  - destruct (pending y !! k) as [p|]; [|done]. simpl in Hr.
    destruct p, resp; simpl in Hr; try done; eauto 6; left;
      repeat case_match; simplify_eq; simpl; try done.
    + by destruct o.
    + by destruct o.
    + by destruct o, side.
Qed.

(** X7: a progress event that arrives while no migration runs (after the
    run has settled) brings the progress bar back, beside the result banner,
    which stays; and a stored snapshot is cleared only by the start or the
    settling of a migration, by no other event. *)
Theorem late_progress_stays :
  (∀ y payload y' calls,
     isMigrating (app y) = false →
     step y (ProgressEvent payload) = Some (y', calls) →
     renderProgress (app y') = Some (ProgressBar (Some payload))
     ∧ renderResult (app y') = renderResult (app y)
     ∧ isMigrating (app y') = false)
  ∧ (∀ y e y' calls,
       step y e = Some (y', calls) →
       is_Some (progress (app y)) → progress (app y') = None →
       e = ClickMigrate ∨ ∃ k o, e = Settled k (MigrationSettled o)).
Proof.
  split.
  - intros y payload y' calls Hm. unfold step. simpl.
    rewrite commit_idle by done. simpl. intros [= <- <-].
    unfold renderProgress, renderResult. simpl.
    by rewrite orb_true_r.
  - intros y e y' calls Hstep [p Hp] Hnone.
    destruct (step_inv _ _ _ _ Hstep) as (r & ec & ep & Hr & Hsame & _).
    destruct Hsame as (_ & _ & _ & _ & _ & _ & _ & _ & _ & Hprog & _).
    rewrite Hprog in Hnone.
    destruct (react_progress _ _ _ Hr) as [Heq|[(payload & ->)|[->|Hsettle]]];
      [congruence| |by left|by right].
    simpl in Hr. by simplify_eq.
Qed.

Lemma late_progress_stays_witness :
  ∃ y',
    step exampleFinished (ProgressEvent (exampleProgress 5 10)) = Some (y', [])
    ∧ renderProgress (app y') = Some (ProgressBar (Some (exampleProgress 5 10)))
    ∧ renderResult (app y') = renderResult (app exampleFinished).
Proof.
  assert (∃ y', step exampleFinished (ProgressEvent (exampleProgress 5 10))
                = Some (y', [])) as (y' & Hstep).
  { eexists. vm_compute. reflexivity. }
  exists y'. split; [exact Hstep|].
  destruct (proj1 late_progress_stays exampleFinished _ _ _ eq_refl Hstep)
    as (Hbar & Hbanner & _).
  split; [exact Hbar | exact Hbanner].
Defined.

(** ** Connecting and disconnecting *)

Lemma migrate_disabled y :
  canMigrate (app y) = false → step y ClickMigrate = None.
Proof.
  intros Hcan. unfold step. simpl. unfold renderAction, MigrationPanel_action.
  rewrite Hcan. by destruct (isMigrating (app y)).
Qed.

(** X8: when a form reports a disconnect, the connection of its side is
    dropped, no call is issued and a migration cannot be started; if there
    was a connection, the table list of the side is emptied, and so are the
    target schemas on the target side; the other side is left alone. *)
Theorem disconnect_step (y y' : Sys) (side : Side) (calls : list Invocation) :
  step y (FormDisconnected side) = Some (y', calls) →
  connectionOf side (app y') = None
  ∧ calls = []
  ∧ pending y' = pending y
  ∧ canMigrate (app y') = false
  ∧ step y' ClickMigrate = None
  ∧ connectionOf (otherSide side) (app y') = connectionOf (otherSide side) (app y)
  ∧ tablesOf (otherSide side) (app y') = tablesOf (otherSide side) (app y)
  ∧ (is_Some (connectionOf side (app y)) →
     tablesOf side (app y') = []
     ∧ (side = Target → targetSchemas (app y') = [])).
Proof.
  intros Hstep. unfold step in Hstep. simpl in Hstep.
  unfold commit, runEffects, sourceEffect, targetEffect in Hstep.
  destruct side; simpl in *.
  - destruct (sourceConnection (app y)) as [c|] eqn:Hc.
    + rewrite decide_False in Hstep by done. simpl in Hstep.
      rewrite decide_True in Hstep by done.
      simpl in Hstep. injection Hstep as <- <-. simpl. rewrite !app_nil_r.
      repeat split; try done. by apply migrate_disabled.
    + rewrite decide_True in Hstep by done. simpl in Hstep.
      rewrite decide_True in Hstep by done.
      simpl in Hstep. injection Hstep as <- <-. simpl. rewrite !app_nil_r.
      assert (canMigrate (setSourceConnection None (app y)) = false) as Hcan
        by done.
      repeat split; try done; try (by intros [? ?]).
      by apply migrate_disabled.
  - rewrite decide_True in Hstep by done. simpl in Hstep.
    destruct (targetConnection (app y)) as [c|] eqn:Hc.
    + rewrite decide_False in Hstep by done. simpl in Hstep.
      injection Hstep as <- <-. simpl. rewrite !app_nil_r.
      assert (canMigrate
                (setTargetSchemas [] (setTargetTables []
                   (setTargetConnection None (app y)))) = false) as Hcan.
      { unfold canMigrate. simpl. by rewrite andb_false_r. }
      repeat split; try done. by apply migrate_disabled.
    + rewrite decide_True in Hstep by done. simpl in Hstep.
      injection Hstep as <- <-. simpl. rewrite !app_nil_r.
      assert (canMigrate (setTargetConnection None (app y)) = false) as Hcan.
      { unfold canMigrate. simpl. by rewrite andb_false_r. }
      repeat split; try done; try (by intros [? ?]).
      by apply migrate_disabled.
Qed.

Lemma disconnect_step_witness :
  ∃ y',
    step exampleReady (FormDisconnected Source) = Some (y', [])
    ∧ sourceTables (app y') = []
    ∧ step y' ClickMigrate = None.
Proof.
  assert (∃ y' calls, step exampleReady (FormDisconnected Source)
                      = Some (y', calls)) as (y' & calls & Hstep).
  { eexists _, _. vm_compute. reflexivity. }
  destruct (disconnect_step _ _ _ _ Hstep)
    as (_ & Hcalls & _ & _ & Hoff & _ & _ & Hlist).
  rewrite Hcalls in Hstep. exists y'. split; [exact Hstep|].
  split; [|exact Hoff]. apply Hlist. simpl. eauto.
Defined.

(** X9: when a form reports a connection that differs from the one held,
    the connection is stored and, for a connected database, the listing of
    the side is requested under the new connection id (tables, and schemas
    too on the target side) while the list shown stays until the answer
    arrives; a connection that is not connected empties the list at once;
    the other side is left alone. *)
Theorem connect_step (y y' : Sys) (side : Side) (status : ConnectionStatus)
    (calls : list Invocation) :
  step y (FormConnected side status) = Some (y', calls) →
  connectionOf side (app y') = Some status
  ∧ connectionOf (otherSide side) (app y') = connectionOf (otherSide side) (app y)
  ∧ tablesOf (otherSide side) (app y') = tablesOf (otherSide side) (app y)
  ∧ (connectionOf side (app y) ≠ Some status →
     if cs_connected status
     then calls = listingCalls side (cs_id status)
          ∧ tablesOf side (app y') = tablesOf side (app y)
          ∧ length (pending y') = (length (pending y) + length calls)%nat
     else calls = [] ∧ tablesOf side (app y') = []).
Proof.
  intros Hstep. unfold step in Hstep. simpl in Hstep.
  unfold commit, runEffects, sourceEffect, targetEffect in Hstep.
  destruct side; simpl in *;
    repeat (case_decide || case_match); simplify_eq; simpl in *;
    rewrite ?app_nil_r, ?length_app; simpl;
    repeat split; try done; try congruence; try lia.
Qed.

Lemma connect_step_witness :
  ∃ y',
    step (initialSys []) (FormConnected Target (exampleConnection "tgt"))
    = Some (y', [get_tables "tgt"; get_schemas "tgt"])
    ∧ targetConnection (app y') = Some (exampleConnection "tgt").
Proof.
  assert (∃ y' calls,
            step (initialSys []) (FormConnected Target (exampleConnection "tgt"))
            = Some (y', calls)) as (y' & calls & Hstep).
  { eexists _, _. vm_compute. reflexivity. }
  destruct (connect_step _ _ _ _ _ Hstep) as (Hconn & _ & _ & Hnew).
  assert (connectionOf Target (app (initialSys []))
          ≠ Some (exampleConnection "tgt")) as Hne by (intros Heq; discriminate Heq).
  destruct (Hnew Hne) as (Hcalls & _). rewrite Hcalls in Hstep.
  exists y'. split; [exact Hstep | exact Hconn].
Defined.

(** X10: right after a swap nothing is selected, so neither a migration
    nor a sort can be started: both handlers return at once on the swapped
    state, and in the application both controls are disabled after the
    step of the swap. *)
Theorem swap_then_nothing_selected :
  (∀ s, handleMigrate_begin (handleSwap s) = None
        ∧ handleSort_begin (handleSwap s) = None
        ∧ canMigrate (handleSwap s) = false)
  ∧ (∀ y y' calls,
       step y ClickSwap = Some (y', calls) →
       step y' ClickMigrate = None ∧ step y' ClickSort = None).
Proof.
  split.
  - intros s. assert (selectedTables (handleSwap s) = ∅) as Hsel by done.
    unfold handleMigrate_begin, handleSort_begin, canMigrate.
    rewrite Hsel, size_empty. repeat split.
    + repeat (case_match || case_decide); done.
    + repeat (case_match || case_decide); done.
    + rewrite bool_decide_eq_false_2 by lia. apply andb_false_r.
  - intros y y' calls Hstep.
    destruct (step_inv _ _ _ _ Hstep) as (r & ec & ep & Hr & Hsame & _).
    simpl in Hr. destruct (isMigrating (app y)) eqn:Hm; [done|]. simplify_eq.
    destruct Hsame as (_ & _ & _ & _ & _ & Hsel & _ & _ & Hmig & _).
    change (selectedTables (app y') = ∅) in Hsel.
    change (isMigrating (app y') = isMigrating (app y)) in Hmig.
    split.
    + apply migrate_disabled. unfold canMigrate.
      rewrite Hsel, size_empty, bool_decide_eq_false_2 by lia.
      apply andb_false_r.
    + unfold step. simpl. rewrite Hsel, size_empty.
      rewrite bool_decide_eq_true_2 by done. by rewrite orb_true_r.
Qed.

Lemma swap_then_nothing_selected_witness :
  ∃ y' calls,
    step exampleReady ClickSwap = Some (y', calls)
    ∧ step y' ClickMigrate = None.
Proof.
  assert (∃ y' calls, step exampleReady ClickSwap = Some (y', calls))
    as (y' & calls & Hstep).
  { eexists _, _. vm_compute. reflexivity. }
  exists y', calls. split; [exact Hstep|].
  exact (proj1 (proj2 swap_then_nothing_selected _ _ _ Hstep)).
Defined.

(** ** Schema analysis *)

Lemma annotate_identity diffs t :
  toRef (annotate diffs t) = toRef t
  ∧ tableKey (annotate diffs t) = tableKey t
  ∧ ti_row_count (annotate diffs t) = ti_row_count t
  ∧ ti_size_bytes (annotate diffs t) = ti_size_bytes t.
Proof. unfold annotate. by destruct (findDiff diffs t). Qed.

Lemma selectedRefs_annotate diffs tables (selected : gset string) :
  selectedRefs (annotate diffs <$> tables) selected = selectedRefs tables selected.
Proof.
  unfold selectedRefs. induction tables as [|t tables IH]; [done|].
  rewrite fmap_cons.
  destruct (annotate_identity diffs t) as (Href & Hkey & _).
  destruct (decide (tableKey t ∈ selected)) as [Hin|Hout].
  - rewrite !filter_cons_True by (by rewrite ?Hkey).
    rewrite !fmap_cons, Href. by f_equal.
  - rewrite !filter_cons_False by (by rewrite ?Hkey). done.
Qed.

(** X11: an analysis asks about every listed source table, selected or
    not, and its answer only annotates: whatever the backend returns, the
    list keeps its tables, their order, row counts and sizes, so the tables
    a migration or a sort would take are the same as before; a failed
    analysis leaves the list untouched; in both cases analysing ends. *)
Theorem analysis_keeps_tables :
  (∀ s s' call,
     handleAnalyze_begin s = Some (s', call) →
     ∃ src tgt, sourceConnection s = Some src ∧ targetConnection s = Some tgt
                ∧ call = analyze_schema (cs_id src) (cs_id tgt)
                           (toRef <$> sourceTables s)
                ∧ sourceTables s' = sourceTables s)
  ∧ (∀ o s,
       let s' := handleAnalyze_settle o s in
       toRef <$> sourceTables s' = toRef <$> sourceTables s
       ∧ ti_row_count <$> sourceTables s' = ti_row_count <$> sourceTables s
       ∧ ti_size_bytes <$> sourceTables s' = ti_size_bytes <$> sourceTables s
       ∧ (∀ selected, selectedRefs (sourceTables s') selected
                      = selectedRefs (sourceTables s) selected)
       ∧ selectedTables s' = selectedTables s
       ∧ isAnalyzing s' = false)
  ∧ (∀ error s,
       sourceTables (handleAnalyze_settle (Js.Rejected error) s) = sourceTables s).
Proof.
  split; [|split].
  - intros s s' call. unfold handleAnalyze_begin.
    destruct (sourceConnection s) as [src|]; [|done].
    destruct (targetConnection s) as [tgt|]; [|done].
    intros [= <- <-]. by exists src, tgt.
  - intros [diffs|error] s; simpl; [|done].
    rewrite <-!list_fmap_compose. repeat split.
    + apply list_fmap_ext. intros i t _. apply annotate_identity.
    + apply list_fmap_ext. intros i t _. apply annotate_identity.
    + apply list_fmap_ext. intros i t _. apply annotate_identity.
    + intros selected. apply selectedRefs_annotate.
  - done.
Qed.

Lemma analysis_keeps_tables_witness :
  ∃ s' call,
    handleAnalyze_begin exampleState = Some (s', call)
    ∧ sourceTables s' = sourceTables exampleState.
Proof.
  assert (∃ s' call, handleAnalyze_begin exampleState = Some (s', call))
    as (s' & call & Hbegin).
  { eexists _, _. vm_compute. reflexivity. }
  exists s', call. split; [exact Hbegin|].
  destruct (proj1 analysis_keeps_tables _ _ _ Hbegin)
    as (src & tgt & _ & _ & _ & Htables).
  exact Htables.
Defined.

(** X12: a table takes the status and the details of the first returned
    diff of its schema and name, details included when they are absent
    there; so when no other diff is about the table, the one that is decides
    wherever it stands in the answer; a table no diff is about keeps the
    status and details it had. *)
Theorem annotate_status (diffs : list SchemaDiff) (t : TableInfo) :
  (∀ before d after,
     diffs = before ++ d :: after →
     Forall (λ d', ¬ diffOf t d') before → diffOf t d →
     ti_status (annotate diffs t) = Some (sd_status d)
     ∧ ti_statusDetails (annotate diffs t) = sd_details d)
  ∧ (∀ d,
       d ∈ diffs → diffOf t d →
       (∀ d', d' ∈ diffs → diffOf t d' → d' = d) →
       ti_status (annotate diffs t) = Some (sd_status d)
       ∧ ti_statusDetails (annotate diffs t) = sd_details d)
  ∧ (Forall (λ d, ¬ diffOf t d) diffs → annotate diffs t = t).
Proof.
  assert (∀ d, findDiff diffs t = Some d →
               d ∈ diffs ∧ diffOf t d) as Hfound.
  { intros d. unfold findDiff.
    destruct (list_find _ diffs) as [[i d']|] eqn:Hfind; [|done].
    simpl. intros [= ->].
    apply list_find_Some in Hfind as (Hi & Hd & _).
    split; [by eapply list_elem_of_lookup_2 | done]. }
  assert (∀ before d after,
            diffs = before ++ d :: after →
            Forall (λ d', ¬ diffOf t d') before → diffOf t d →
            findDiff diffs t = Some d) as Hfirst.
  { intros before d after -> Hbefore Hd. unfold findDiff.
    assert (list_find (λ d0, sd_schema d0 = ti_schema t ∧ sd_table d0 = ti_name t)
              (before ++ d :: after) = Some (length before, d)) as ->; [|done].
    apply list_find_Some. split; [|split; [done|]].
    - by rewrite lookup_app_r, Nat.sub_diag.
    - intros j d' Hj Hlt. rewrite lookup_app_l in Hj by done.
      rewrite Forall_forall in Hbefore. apply Hbefore.
      by eapply list_elem_of_lookup_2. }
  split; [|split].
  - intros before d after Hdiffs Hbefore Hd.
    unfold annotate. by rewrite (Hfirst _ _ _ Hdiffs Hbefore Hd).
  - intros d Hin Hd Hunique. unfold annotate.
    destruct (findDiff diffs t) as [d'|] eqn:Hfind.
    + destruct (Hfound d' eq_refl) as [Hin' Hd'].
      by rewrite (Hunique d' Hin' Hd').
    + unfold findDiff in Hfind.
      destruct (list_find _ diffs) as [[i d']|] eqn:Hnone; [done|].
      apply list_find_None in Hnone. rewrite Forall_forall in Hnone.
      by destruct (Hnone d Hin).
  - intros Hnone. unfold annotate.
    destruct (findDiff diffs t) as [d|] eqn:Hfind; [|done].
    destruct (Hfound d eq_refl) as [Hin Hd].
    rewrite Forall_forall in Hnone. by destruct (Hnone d Hin).
Qed.

Lemma annotate_status_witness :
  ti_status (annotate exampleDiffs (exampleTable "public" "orders"))
  = Some COLUMNS_MISMATCH
  ∧ annotate exampleDiffs (exampleTable "public" "items")
    = exampleTable "public" "items".
Proof.
  destruct (annotate_status exampleDiffs (exampleTable "public" "orders"))
    as (Hfirst & _ & _).
  destruct (annotate_status exampleDiffs (exampleTable "public" "items"))
    as (_ & _ & Hnone).
  split.
  - refine (proj1 (Hfirst [_] _ [] eq_refl _ _)).
    + constructor; [|constructor]. intros [_ Hname]. discriminate Hname.
    + by split.
  - apply Hnone. repeat constructor; intros [_ Hname]; discriminate Hname.
Defined.

(** ** Selecting tables in the list *)

(** X13: a click on a row changes the selection at the key of that row
    only: the key is selected afterwards exactly if it was not before, every
    other key keeps its state, the count moves by one, and a second click on
    the row restores the selection. *)
Theorem handleToggle_flips (selected : gset string) (table : TableInfo) :
  let selected' := handleToggle selected table in
  (tableKey table ∈ selected' ↔ tableKey table ∉ selected)
  ∧ (∀ key, key ≠ tableKey table → key ∈ selected' ↔ key ∈ selected)
  ∧ size selected'
    = (if decide (tableKey table ∈ selected)
       then size selected - 1 else size selected + 1)%nat
  ∧ handleToggle selected' table = selected.
Proof.
  unfold handleToggle. simpl.
  destruct (decide (tableKey table ∈ selected)) as [Hin|Hout].
  - split; [set_solver|]. split; [set_solver|]. split.
    + rewrite size_difference by set_solver. by rewrite size_singleton.
    + rewrite decide_False by set_solver.
      apply set_eq. intros key.
      destruct (decide (key = tableKey table)) as [->|]; set_solver.
  - split; [set_solver|]. split; [set_solver|]. split.
    + rewrite size_union by set_solver. rewrite size_singleton. lia.
    + rewrite decide_True by set_solver. set_solver.
Qed.

Lemma elem_of_addAll selected filtered key :
  key ∈ addAll selected filtered
  ↔ key ∈ selected ∨ key ∈ tableKey <$> filtered.
Proof.
  unfold addAll. revert selected.
  induction filtered as [|t filtered IH]; intros selected; simpl.
  - rewrite elem_of_nil. tauto.
  - rewrite IH, elem_of_cons. set_solver.
Qed.

Lemma addAll_keysOf selected filtered :
  addAll selected filtered = selected ∪ keysOf filtered.
Proof.
  apply set_eq. intros key. unfold keysOf.
  rewrite elem_of_addAll, elem_of_union, elem_of_list_to_set. done.
Qed.

Lemma handleToggle_flips_witness :
  "public.users" ∈ handleToggle {[ "public.users" ]} (exampleTable "public" "orders").
Proof.
  apply (proj1 (proj2 (handleToggle_flips {[ "public.users" ]}
                         (exampleTable "public" "orders")))).
  - discriminate.
  - apply elem_of_singleton. reflexivity.
Defined.

(** X14: the select-all button decides by counting: when as many keys
    are selected as tables are shown it clears the whole selection, whichever
    keys these are; otherwise it adds the keys of all shown tables and keeps
    what was selected.  When the shown tables have distinct keys and only
    shown tables are selected, the count is exact: the selection is cleared
    exactly when every shown table is selected, and from a partial selection
    one click selects all shown tables and the next one clears. *)
Theorem handleSelectAll_counts (selected : gset string) (filtered : list TableInfo) :
  (size selected = length filtered → handleSelectAll selected filtered = ∅)
  ∧ (size selected ≠ length filtered →
     handleSelectAll selected filtered = selected ∪ keysOf filtered)
  ∧ (NoDup (tableKey <$> filtered) → selected ⊆ keysOf filtered →
     (size selected = length filtered ↔ selected = keysOf filtered)
     ∧ (selected ≠ keysOf filtered →
        handleSelectAll selected filtered = keysOf filtered
        ∧ handleSelectAll (handleSelectAll selected filtered) filtered = ∅)).
Proof.
  unfold handleSelectAll. split; [|split].
  - intros Heq. by rewrite decide_True.
  - intros Hne. rewrite decide_False by done. apply addAll_keysOf.
  - intros Hnd Hsub.
    assert (size (keysOf filtered) = length filtered) as Hsize.
    { unfold keysOf. rewrite size_list_to_set by done. by rewrite length_fmap. }
    assert (size selected = length filtered ↔ selected = keysOf filtered) as Hiff.
    { split; [|by intros ->].
      intros Heq. apply set_subseteq_size_eq; [done|]. lia. }
    split; [done|]. intros Hpartial.
    rewrite decide_False by (by rewrite Hiff).
    rewrite addAll_keysOf.
    assert (selected ∪ keysOf filtered = keysOf filtered) as -> by set_solver.
    split; [done|]. by rewrite decide_True.
Qed.

Lemma handleSelectAll_counts_witness :
  handleSelectAll {[ "public.orders" ]} (sourceTables exampleState)
  = keysOf (sourceTables exampleState)
  ∧ handleSelectAll {[ "audit.log"; "audit.old"; "audit.new" ]}
                    (sourceTables exampleState) = ∅.
Proof.
  destruct (handleSelectAll_counts {[ "public.orders" ]} (sourceTables exampleState))
    as (_ & _ & Hexact).
  destruct (handleSelectAll_counts {[ "audit.log"; "audit.old"; "audit.new" ]}
              (sourceTables exampleState)) as (Hclear & _).
  split.
  - refine (proj1 (proj2 (Hexact _ _) _)).
    + apply (bool_decide_unpack (NoDup (tableKey <$> sourceTables exampleState))).
      vm_compute. exact I.
    + apply (bool_decide_unpack
               ({[ "public.orders" ]} ⊆ keysOf (sourceTables exampleState))).
      vm_compute. exact I.
    + intros Heq.
      assert (size ({[ "public.orders" ]} : gset string)
              = size (keysOf (sourceTables exampleState))) as Hsize
        by (by rewrite <-Heq).
      vm_compute in Hsize. discriminate Hsize.
  - apply Hclear. vm_compute. reflexivity.
Defined.

(** ** Trimmed text *)

Lemma rev_app_append s acc : String.rev_app s acc = String.rev s +:+ acc.
Proof.
  unfold String.rev. revert acc. induction s as [|c s IH]; intros acc; [done|].
  simpl. rewrite (IH (String c acc)), (IH (String c "")).
  by rewrite append_assoc.
Qed.

Lemma rev_cons c s : String.rev (String c s) = String.rev s +:+ String c "".
Proof. unfold String.rev at 1. simpl. apply rev_app_append. Qed.

Lemma rev_append a b : String.rev (a +:+ b) = String.rev b +:+ String.rev a.
Proof.
  induction a as [|c a IH].
  - by rewrite append_empty_r.
  - change (String c a +:+ b) with (String c (a +:+ b)).
    by rewrite !rev_cons, IH, append_assoc.
Qed.

Lemma rev_involutive s : String.rev (String.rev s) = s.
Proof.
  induction s as [|c s IH]; [done|].
  by rewrite rev_cons, rev_append, IH.
Qed.

Lemma append_eq_empty a b : a +:+ b = "" → a = "" ∧ b = "".
Proof. by destruct a. Qed.

Lemma trimStart_split s :
  ∃ w, s = w +:+ Js.trimStart s ∧ allWhitespace w = true
       ∧ startsClean (Js.trimStart s).
Proof.
  induction s as [|c s (w & Hs & Hw & Hclean)]; [by exists ""|].
  simpl. destruct (Js.is_whitespace c) eqn:Hc.
  - exists (String c w). split; [|split; [|done]].
    + change (String c s = String c (w +:+ Js.trimStart s)). by rewrite <-Hs.
    + simpl. by rewrite Hc.
  - by exists "".
Qed.


Lemma trimStart_blank s : Js.trimStart s = "" ↔ allWhitespace s = true.
Proof.
  induction s as [|c s IH]; [done|]. simpl.
  destruct (Js.is_whitespace c); [done|]. simpl. split; done.
Qed.

Lemma allWhitespace_append a b :
  allWhitespace (a +:+ b) = allWhitespace a && allWhitespace b.
Proof.
  induction a as [|c a IH]; [done|].
  change (String c a +:+ b) with (String c (a +:+ b)). simpl.
  by rewrite IH, andb_assoc.
Qed.

Lemma allWhitespace_rev s : allWhitespace (String.rev s) = allWhitespace s.
Proof.
  induction s as [|c s IH]; [done|].
  rewrite rev_cons, allWhitespace_append, IH. simpl.
  rewrite andb_true_r. apply andb_comm.
Qed.

(** What [trimEnd] removes is white space at the end, and what it leaves
    ends clean. *)
Lemma trimEnd_split s :
  ∃ w, s = Js.trimEnd s +:+ w ∧ allWhitespace w = true ∧ endsClean (Js.trimEnd s).
Proof.
  unfold Js.trimEnd, endsClean.
  destruct (trimStart_split (String.rev s)) as (w & Hs & Hw & Hclean).
  exists (String.rev w). split; [|split].
  - rewrite <-rev_append, <-Hs. by rewrite rev_involutive.
  - by rewrite allWhitespace_rev.
  - by rewrite rev_involutive.
Qed.





Lemma trim_blank s : Js.trim s = "" ↔ blank s.
Proof.
  unfold blank, Js.trim. split.
  - intros Hempty.
    destruct (trimEnd_split (Js.trimStart s)) as (w & Heq & Hw & _).
    rewrite Hempty in Heq. simpl in Heq.
    destruct (trimStart_split s) as (w0 & _ & _ & Hclean).
    rewrite Heq in Hclean |- *. destruct w as [|c w]; [done|].
    simpl in Hw, Hclean. by rewrite Hclean in Hw.
  - by intros ->.
Qed.





(** ** Filtering the table list *)

Lemma prefix_spec (p s : string) :
  String.prefix p s = true ↔ ∃ rest, s = p +:+ rest.
Proof.
  revert s. induction p as [|a p IH]; intros s.
  - destruct s; simpl; split; eauto.
  - destruct s as [|b s]; simpl.
    + split; [done|]. by intros (rest & Heq).
    + destruct (ascii_dec a b) as [->|Hne].
      * rewrite IH. split.
        -- intros (rest & ->). by exists rest.
        -- intros (rest & Heq). exists rest.
           change (String b s = String b (p +:+ rest)) in Heq. by simplify_eq.
      * split; [done|]. intros (rest & Heq).
        change (String b s = String a (p +:+ rest)) in Heq. by simplify_eq.
Qed.

(** [includes] finds exactly the contiguous pieces. *)
Lemma includes_spec (s sub : string) :
  JsText.includes s sub = true ↔ occursIn sub s.
Proof.
  unfold occursIn. induction s as [|c s IH].
  - change (JsText.includes "" sub)
      with (if String.prefix sub "" then true else false).
    destruct (String.prefix sub "") eqn:Hp.
    + apply prefix_spec in Hp as (rest & Heq). split; [|done].
      intros _. exists "", rest. done.
    + split; [done|]. intros (before & after & Heq).
      symmetry in Heq. apply append_eq_empty in Heq as [-> Heq].
      assert (String.prefix sub "" = true); [|congruence].
      apply prefix_spec. by exists after.
  - change (JsText.includes (String c s) sub)
      with (if String.prefix sub (String c s) then true
            else JsText.includes s sub).
    destruct (String.prefix sub (String c s)) eqn:Hp.
    + apply prefix_spec in Hp as (rest & Heq). split; [|done].
      intros _. by exists "", rest.
    + rewrite IH. split.
      * intros (before & after & ->). by exists (String c before), after.
      * intros (before & after & Heq). destruct before as [|b before].
        -- assert (String.prefix sub (String c s) = true); [|congruence].
           apply prefix_spec. by exists after.
        -- change (String c s = String b (before +:+ sub +:+ after)) in Heq.
           simplify_eq. by exists before, after.
Qed.

Lemma lowerChar_whitespace c :
  Js.is_whitespace (JsText.lowerChar c) = Js.is_whitespace c.
Proof. by destruct c as [[] [] [] [] [] [] [] []]. Qed.

Lemma lowerChar_idempotent c :
  JsText.lowerChar (JsText.lowerChar c) = JsText.lowerChar c.
Proof. by destruct c as [[] [] [] [] [] [] [] []]. Qed.

Lemma toLowerCase_idempotent s :
  JsText.toLowerCase (JsText.toLowerCase s) = JsText.toLowerCase s.
Proof.
  induction s as [|c s IH]; [done|]. simpl.
  by rewrite lowerChar_idempotent, IH.
Qed.

Lemma toLowerCase_blank s : blank (JsText.toLowerCase s) ↔ blank s.
Proof.
  unfold blank. rewrite !trimStart_blank.
  induction s as [|c s IH]; [done|]. simpl.
  rewrite lowerChar_whitespace.
  destruct (Js.is_whitespace c); [done|]. simpl. split; done.
Qed.

Lemma matchesFilter_case q q' selectedSchema t :
  JsText.toLowerCase q = JsText.toLowerCase q' →
  matchesFilter q selectedSchema t = matchesFilter q' selectedSchema t.
Proof.
  intros Hq. unfold matchesFilter. rewrite Hq. f_equal. f_equal. f_equal.
  apply bool_decide_ext. rewrite !trim_blank.
  by rewrite <-(toLowerCase_blank q), <-(toLowerCase_blank q'), Hq.
Qed.

(** X17: the list shown is a part of the table list in its order.  A
    query of white space only and the schema choice "all" show every table;
    a chosen schema shows tables of that schema only; any other query shows
    exactly the tables whose name or schema, in lower case, contains the
    query in lower case as one piece, so two queries that differ in case
    only show the same tables. *)
Theorem filteredTables_shown (tables : list TableInfo)
    (searchQuery selectedSchema : string) :
  filteredTables tables searchQuery selectedSchema `sublist_of` tables
  ∧ (blank searchQuery → filteredTables tables searchQuery "all" = tables)
  ∧ (selectedSchema ≠ "all" →
     Forall (λ t, ti_schema t = selectedSchema)
            (filteredTables tables searchQuery selectedSchema))
  ∧ (¬ blank searchQuery →
     ∀ t, t ∈ filteredTables tables searchQuery "all"
          ↔ t ∈ tables
            ∧ (occursIn (JsText.toLowerCase searchQuery)
                        (JsText.toLowerCase (ti_name t))
               ∨ occursIn (JsText.toLowerCase searchQuery)
                          (JsText.toLowerCase (ti_schema t))))
  ∧ (∀ other,
       JsText.toLowerCase other = JsText.toLowerCase searchQuery →
       filteredTables tables other selectedSchema
       = filteredTables tables searchQuery selectedSchema).
Proof.
  unfold filteredTables. split; [apply sublist_filter|].
  split; [|split; [|split]].
  - intros Hblank. apply trim_blank in Hblank.
    induction tables as [|t tables IH]; [done|].
    rewrite filter_cons_True; [by rewrite IH|].
    unfold matchesFilter.
    rewrite (bool_decide_eq_true_2 _ Hblank).
    by rewrite (bool_decide_eq_true_2 ("all" = "all")).
  - intros Hschema. apply Forall_forall.
    intros t [Hmatch _]%list_elem_of_filter. unfold matchesFilter in Hmatch.
    apply andb_true_iff in Hmatch as [_ Hmatch].
    rewrite (bool_decide_eq_false_2 _ Hschema) in Hmatch.
    by apply bool_decide_eq_true in Hmatch.
  - intros Hquery t. rewrite list_elem_of_filter. unfold matchesFilter.
    rewrite <-trim_blank in Hquery.
    rewrite (bool_decide_eq_false_2 _ Hquery), (bool_decide_eq_true_2 ("all" = "all"))
      by done.
    simpl. rewrite andb_true_r, orb_true_iff, !includes_spec. tauto.
  - intros other Hcase. apply filter_agree. intros t _.
    by rewrite (matchesFilter_case other searchQuery).
Qed.

Lemma filteredTables_shown_witness :
  filteredTables (sourceTables exampleState) "ORD" "all"
  = filteredTables (sourceTables exampleState) "ord" "all"
  ∧ filteredTables (sourceTables exampleState) "  " "all"
    = sourceTables exampleState
  ∧ filteredTables (sourceTables exampleState) (String "160" "") "all"
    = sourceTables exampleState
  ∧ filteredTables [exampleTable "public" (String "233" "t" +:+ String "233" "")]
      (String "201" "T") "all"
    = [exampleTable "public" (String "233" "t" +:+ String "233" "")].
Proof.
  destruct (filteredTables_shown (sourceTables exampleState) "ord" "all")
    as (_ & _ & _ & _ & Hcase).
  destruct (filteredTables_shown (sourceTables exampleState) "  " "all")
    as (_ & Hblank & _).
  destruct (filteredTables_shown (sourceTables exampleState) (String "160" "") "all")
    as (_ & Hnbsp & _).
  destruct (filteredTables_shown
              [exampleTable "public" (String "233" "t" +:+ String "233" "")]
              (String "233" "t") "all") as (_ & _ & _ & _ & Hupper).
  split; [|split; [|split]].
  - apply Hcase. vm_compute. reflexivity.
  - apply Hblank. vm_compute. reflexivity.
  - apply Hnbsp. vm_compute. reflexivity.
  - rewrite (Hupper (String "201" "T")) by (vm_compute; reflexivity).
    vm_compute. reflexivity.
Defined.

(** ** The schema choices *)

Section sort_by_order.
Context {A : Type} (cmp : A → A → Z) (R : relation A).
Context `{!Transitive R} `{!RelDecision R}.
Hypothesis R_total : ∀ a b, R a b ∨ R b a.
Hypothesis cmp_R : ∀ a b, (0 < cmp a b)%Z ↔ ¬ R a b.

Lemma sortInsert_ordered x l :
  StronglySorted R l → StronglySorted R (sortInsert cmp x l).
Proof.
  induction 1 as [|y l Hl IH Hy]; simpl; [by repeat constructor|].
  destruct (0 <? cmp x y)%Z eqn:Hcmp.
  - apply Z.ltb_lt, cmp_R in Hcmp.
    assert (R y x) as Hyx by (by destruct (R_total x y)).
    constructor; [done|].
    rewrite sortInsert_Permutation. by constructor.
  - assert (R x y) as Hxy.
    { apply Z.ltb_ge in Hcmp.
      destruct (decide (R x y)) as [|Hn]; [done|].
      apply cmp_R in Hn. lia. }
    constructor; [by constructor|]. constructor; [done|].
    eapply Forall_impl; [exact Hy|]. intros z Hyz. by trans y.
Qed.

Lemma Array_sort_ordered l : StronglySorted R (Array_sort cmp l).
Proof.
  induction l as [|x l IH]; simpl; [constructor|].
  by apply sortInsert_ordered.
Qed.
End sort_by_order.

Lemma defaultCompare_le a b :
  (0 < JsText.defaultCompare a b)%Z ↔ ¬ String.le a b.
Proof.
  unfold JsText.defaultCompare, String.le, String.leb.
  destruct (String.compare a b); simpl; split; try done; try lia.
Qed.

Lemma uniqueFrom_spec seen l :
  NoDup (JsText.uniqueFrom seen l)
  ∧ ∀ x, x ∈ JsText.uniqueFrom seen l ↔ x ∈ l ∧ x ∉ seen.
Proof.
  revert seen. induction l as [|y l IH]; intros seen; simpl.
  - split; [constructor|]. intros x. rewrite elem_of_nil. tauto.
  - destruct (decide (y ∈ seen)) as [Hin|Hout].
    + destruct (IH seen) as [Hnd Hel]. split; [done|].
      intros x. rewrite Hel, elem_of_cons. split; [tauto|].
      intros [[->|?] ?]; tauto.
    + destruct (IH (y :: seen)) as [Hnd Hel]. split.
      * constructor; [|done]. rewrite Hel, elem_of_cons. tauto.
      * intros x. rewrite !elem_of_cons, Hel, elem_of_cons.
        destruct (decide (x = y)) as [->|]; [tauto|]. tauto.
Qed.

(** X18: the schema choices are "all" followed by the schemas of the
    listed tables, each once, in ascending order of their characters. *)
Theorem schemasOf_choices (tables : list TableInfo) :
  ∃ schemas,
    schemasOf tables = "all" :: schemas
    ∧ NoDup schemas
    ∧ StronglySorted String.le schemas
    ∧ ∀ schema, schema ∈ schemas ↔ ∃ t, t ∈ tables ∧ ti_schema t = schema.
Proof.
  eexists. split; [done|].
  destruct (uniqueFrom_spec [] (ti_schema <$> tables)) as [Hnd Hel].
  split; [|split].
  - by rewrite Array_sort_Permutation.
  - apply (Array_sort_ordered _ String.le).
    + intros a b. destruct (total String.le a b); auto.
    + apply defaultCompare_le.
  - intros schema. rewrite Array_sort_Permutation, Hel, list_elem_of_fmap.
    split.
    + intros [(t & -> & Ht) _]. eauto.
    + intros (t & Ht & <-). split; [eauto|]. apply not_elem_of_nil.
Qed.

(** ** The result of a connection attempt *)

Lemma step_FormConnected y side status :
  ∃ y' calls,
    step y (FormConnected side status) = Some (y', calls)
    ∧ connectionOf side (app y') = Some status
    ∧ savedConnections (app y') = savedConnections (app y)
    ∧ stored y' = stored y.
Proof.
  destruct (step y (FormConnected side status)) as [[y' calls]|] eqn:Hstep;
    [|done].
  exists y', calls. split; [done|].
  destruct (step_inv _ _ _ _ Hstep) as (r & ec & ep & Hr & Hsame & Hstored & _).
  simpl in Hr. simplify_eq.
  destruct Hsame as (Hsrc & Htgt & _ & _ & Hsaved & _).
  by destruct side.
Qed.

Lemma step_FormSave y conn :
  ∃ y' calls,
    step y (FormSave conn) = Some (y', calls)
    ∧ sourceConnection (app y') = sourceConnection (app y)
    ∧ targetConnection (app y') = targetConnection (app y)
    ∧ savedConnections (app y') = saveConnection conn (savedConnections (app y))
    ∧ stored y' = saveConnection conn (savedConnections (app y)).
Proof.
  destruct (step y (FormSave conn)) as [[y' calls]|] eqn:Hstep; [|done].
  exists y', calls. split; [done|].
  destruct (step_inv _ _ _ _ Hstep) as (r & ec & ep & Hr & Hsame & Hstored & _).
  simpl in Hr. simplify_eq.
  by destruct Hsame as (Hsrc & Htgt & _ & _ & Hsaved & _).
Qed.

Lemma run_one y e y1 c1 :
  step y e = Some (y1, c1) → run y [e] = Some (y1, c1 ++ []).
Proof. intros H. simpl. by rewrite H. Qed.

Lemma run_two y e1 e2 y1 c1 y2 c2 :
  step y e1 = Some (y1, c1) → step y1 e2 = Some (y2, c2) →
  run y [e1; e2] = Some (y2, c1 ++ c2 ++ []).
Proof. intros H1 H2. simpl. rewrite H1. simpl. by rewrite H2. Qed.

(** X19: a connection attempt always ends the connecting state.  When it
    fails, the form shows the error and the parent is not called.  When it
    succeeds, the application stores the connection on the side of the form.
    Whether to save is decided on the saved list the form held when Connect
    was clicked, not on the list of the application at that moment: if that
    earlier list has a connection of the same host, database and user name,
    the saved list and local storage stay as they are; otherwise the
    configuration is saved as the user entered it (the port is not replaced
    by the default) under the name made of database and host, in the state
    and in local storage, and takes the place of any connection saved
    under that name in the meantime. *)
Theorem connect_result_delivered (y : Sys) (side : Side)
    (config : ConnectionConfig) (saved : list SavedConnection)
    (f : FormState) (o : Js.Outcome ConnectionStatus) :
  let result := handleConnect_settle config saved o f in
  let current := savedConnections (app y) in
  isConnecting result.1 = false
  ∧ match o with
    | Js.Rejected err =>
        result.2 = [] ∧ formError result.1 = Some (Js.String_ err)
    | Js.Resolved status =>
        ∃ y' log,
          run y (deliver side <$> result.2) = Some (y', log)
          ∧ connectionOf side (app y') = Some status
          ∧ (alreadySaved config saved = true →
             savedConnections (app y') = current ∧ stored y' = stored y)
          ∧ (alreadySaved config saved = false →
             savedConnections (app y')
             = filter (λ c, sc_name c ≠ autoName config) current
               ++ [{| sc_name := autoName config; sc_config := config |}]
             ∧ stored y' = savedConnections (app y')
             ∧ ∀ c, c ∈ savedConnections (app y') →
                    sc_name c = autoName config → sc_config c = config)
    end.
Proof.
  intros result current. subst result current. unfold handleConnect_settle.
  destruct o as [status|err]; [|done].
  destruct (step_FormConnected y side status)
    as (y1 & c1 & Hstep1 & Hconn & Hsaved1 & Hstored1).
  destruct (alreadySaved config saved) eqn:Hsaved.
  - split; [done|].
    change (deliver side <$> _) with [FormConnected side status].
    rewrite (run_one _ _ _ _ Hstep1). eexists _, _. split; [done|].
    split; [done|]. split; [done|]. done.
  - split; [done|].
    change (deliver side <$> _)
      with [FormConnected side status;
            FormSave {| sc_name := autoName config; sc_config := config |}].
    destruct (step_FormSave y1 {| sc_name := autoName config; sc_config := config |})
      as (y2 & c2 & Hstep2 & Hsrc & Htgt & Hsaved2 & Hstored2).
    rewrite (run_two _ _ _ _ _ _ _ Hstep1 Hstep2).
    eexists _, _. split; [done|]. split.
    { destruct side; simpl in *; congruence. }
    split; [done|]. intros _. rewrite Hsaved2, Hstored2, Hsaved1.
    split; [done|]. split; [done|].
    unfold saveConnection. simpl.
    intros c [[Hne _]%list_elem_of_filter| ->%list_elem_of_singleton]%elem_of_app;
      done.
Qed.

Lemma connect_result_delivered_witness :
  (∃ y' log,
     run (initialSys exampleSaved)
         (deliver Source
            <$> (handleConnect_settle (exampleConfig (Js.of_Z 0)) exampleSaved
                   (Js.Resolved (exampleConnection "src")) exampleForm).2)
     = Some (y', log)
     ∧ sourceConnection (app y') = Some (exampleConnection "src")
     ∧ savedConnections (app y') = exampleSaved)
  ∧ (∃ y' log,
       run (initialSys exampleSaved)
           (deliver Target
              <$> (handleConnect_settle (exampleConfig (Js.of_Z 0)) []
                     (Js.Resolved (exampleConnection "tgt")) exampleForm).2)
       = Some (y', log)
       ∧ savedConnections (app y')
         = exampleSaved
           ++ [{| sc_name := "shop @ db.internal";
                  sc_config := exampleConfig (Js.of_Z 0) |}]).
Proof.
  split.
  - destruct (connect_result_delivered (initialSys exampleSaved) Source
                (exampleConfig (Js.of_Z 0)) exampleSaved exampleForm
                (Js.Resolved (exampleConnection "src")))
      as (_ & y' & log & Hrun & Hconn & Hkept & _).
    exists y', log. split; [exact Hrun|]. split; [exact Hconn|].
    apply Hkept. vm_compute. reflexivity.
  - destruct (connect_result_delivered (initialSys exampleSaved) Target
                (exampleConfig (Js.of_Z 0)) [] exampleForm
                (Js.Resolved (exampleConnection "tgt")))
      as (_ & y' & log & Hrun & _ & _ & Hnew).
    exists y', log. split; [exact Hrun|].
    destruct (Hnew eq_refl) as (Hlist & _). rewrite Hlist.
    vm_compute. reflexivity.
Defined.

(** ** Sorting again *)

Lemma Array_sort_of_sorted {A} (cmp : A → A → Z) (key : A → Z) (l : list A) :
  (∀ a b, (0 < cmp a b)%Z ↔ (key b < key a)%Z) →
  StronglySorted (λ a b, key a ≤ key b)%Z l → Array_sort cmp l = l.
Proof.
  intros Hcmp. induction 1 as [|x l Hl IH Hx]; [done|].
  simpl. rewrite IH. destruct l as [|y l]; [done|]. simpl.
  apply Forall_cons in Hx as [Hxy _].
  destruct (0 <? cmp x y)%Z eqn:Hlt; [|done].
  apply Z.ltb_lt, Hcmp in Hlt. lia.
Qed.

(** X20: sorting is idempotent: when the same order is returned again the
    table list stays as the first sort left it, and so does the whole state;
    a sort that fails changes no table; in both cases sorting ends. *)
Theorem sort_again_changes_nothing :
  (∀ sorted prev,
     reorderBySorted sorted (reorderBySorted sorted prev)
     = reorderBySorted sorted prev)
  ∧ (∀ sorted s,
       handleSort_settle (Js.Resolved sorted)
         (handleSort_settle (Js.Resolved sorted) s)
       = handleSort_settle (Js.Resolved sorted) s)
  ∧ (∀ error s,
       sourceTables (handleSort_settle (Js.Rejected error) s) = sourceTables s
       ∧ isSorting (handleSort_settle (Js.Rejected error) s) = false).
Proof.
  assert (∀ sorted prev,
            reorderBySorted sorted (reorderBySorted sorted prev)
            = reorderBySorted sorted prev) as Hidem.
  { intros sorted prev. unfold reorderBySorted at 1.
    apply (Array_sort_of_sorted _ (sortIndex (fillSortedMap 0 sorted ∅))).
    - apply compareByIndex_key.
    - apply reorderBySorted_sorted. }
  split; [done|]. split; [|done].
  intros sorted s. unfold handleSort_settle, setIsSorting, setSourceTables.
  simpl. by rewrite Hidem.
Qed.

(** ** Saving and deleting, composed *)

Lemma filter_all {A} (P : A → Prop) `{!∀ x, Decision (P x)} (l : list A) :
  Forall P l → filter P l = l.
Proof.
  induction 1 as [|x l Hx _ IH]; [done|].
  rewrite filter_cons_True by done. by rewrite IH.
Qed.

Lemma filter_idempotent {A} (P : A → Prop) `{!∀ x, Decision (P x)} (l : list A) :
  filter P (filter P l) = filter P l.
Proof.
  apply filter_all, Forall_forall. by intros x [? _]%list_elem_of_filter.
Qed.

(** X21: saving twice under one name keeps only the second entry;
    deleting a name after saving under it leaves what deleting alone would
    leave; deleting twice is deleting once; and deleting a name that is not
    in the list changes nothing. *)
Theorem save_delete_compose (prev : list SavedConnection) :
  (∀ c1 c2,
     sc_name c1 = sc_name c2 →
     saveConnection c2 (saveConnection c1 prev) = saveConnection c2 prev)
  ∧ (∀ c, deleteConnection (sc_name c) (saveConnection c prev)
          = deleteConnection (sc_name c) prev)
  ∧ (∀ name, deleteConnection name (deleteConnection name prev)
             = deleteConnection name prev)
  ∧ (∀ name, name ∉ sc_name <$> prev → deleteConnection name prev = prev).
Proof.
  unfold saveConnection, deleteConnection. repeat split.
  - intros c1 c2 Hname. rewrite filter_app, <-Hname, filter_idempotent.
    rewrite filter_cons_False by (by intros ?). by rewrite app_nil_r.
  - intros c. rewrite filter_app, filter_idempotent.
    rewrite filter_cons_False by (by intros ?). by rewrite app_nil_r.
  - intros name. apply filter_idempotent.
  - intros name Hout. apply filter_all, Forall_forall.
    intros c Hc Heq. apply Hout. rewrite <-Heq. by apply list_elem_of_fmap_2.
Qed.

Lemma save_delete_compose_witness :
  deleteConnection "staging" exampleSaved = exampleSaved
  ∧ saveConnection {| sc_name := "shop"; sc_config := exampleConfig (Js.of_Z 2) |}
      (saveConnection {| sc_name := "shop"; sc_config := exampleConfig (Js.of_Z 1) |}
         exampleSaved)
    = saveConnection {| sc_name := "shop"; sc_config := exampleConfig (Js.of_Z 2) |}
        exampleSaved.
Proof.
  destruct (save_delete_compose exampleSaved) as (Htwice & _ & _ & Habsent).
  split.
  - apply Habsent. simpl. rewrite !not_elem_of_cons.
    repeat split; try (intros Heq; discriminate Heq). apply not_elem_of_nil.
  - by apply Htwice.
Defined.

(** ** How many tables a request carries *)

Lemma keysOf_selected_subset tables (selected : gset string) :
  keysOf (filter (λ t, tableKey t ∈ selected) tables) ⊆ selected.
Proof.
  intros key. unfold keysOf. rewrite elem_of_list_to_set, list_elem_of_fmap.
  by intros (t & -> & [? _]%list_elem_of_filter).
Qed.

Lemma step_ClickMigrate y y' calls :
  step y ClickMigrate = Some (y', calls) →
  isMigrating (app y) = false
  ∧ canMigrate (app y) = true
  ∧ ∃ s' request,
      handleMigrate_begin (app y) = Some (s', start_migration request)
      ∧ calls = [start_migration request].
Proof.
  unfold step. simpl. unfold renderAction, MigrationPanel_action.
  destruct (isMigrating (app y)) eqn:Hm; [done|].
  destruct (canMigrate (app y)) eqn:Hcan; [|done]. simpl.
  pose proof Hcan as Hcan'. unfold canMigrate in Hcan'.
  apply andb_true_iff in Hcan' as [[Hsrc Htgt]%andb_true_iff Hsize].
  apply isConnected_Some in Hsrc as (src & Hsrc & Hsrc').
  apply isConnected_Some in Htgt as (tgt & Htgt & Htgt').
  apply bool_decide_eq_true in Hsize.
  unfold handleMigrate_begin. rewrite Hsrc, Htgt.
  rewrite decide_False by lia. simpl.
  rewrite commit_idle by done. simpl. intros [= <- <-].
  split; [done|]. split; [done|]. by eexists _, _.
Qed.

(** X22: while no migration runs the Migrate button shows the number of
    selected keys (nothing for an empty selection), and the request of a
    click carries the listed tables whose key is selected.  With distinct
    keys in the list, the request never has more tables than the button
    shows, it has as many exactly when every selected key is in the list,
    and it is empty when no listed table is selected, though the click was
    possible. *)
Theorem request_size :
  (∀ s, isMigrating s = false →
        renderAction s
        = MigrateButton (negb (canMigrate s))
            (if decide (selectedTables s = ∅) then None
             else Some (Z.of_nat (size (selectedTables s)))))
  ∧ (∀ y y' calls,
       step y ClickMigrate = Some (y', calls) →
       ∃ request,
         calls = [start_migration request]
         ∧ renderAction (app y)
           = MigrateButton false (Some (Z.of_nat (size (selectedTables (app y)))))
         ∧ req_tables request
           = selectedRefs (sourceTables (app y)) (selectedTables (app y)))
  ∧ ∀ (tables : list TableInfo) (selected : gset string),
      (length (selectedRefs tables selected)
       = length (filter (λ t, tableKey t ∈ selected) tables))
      ∧ (Forall (λ t, tableKey t ∉ selected) tables
         ↔ selectedRefs tables selected = [])
      ∧ (NoDup (tableKey <$> tables) →
         (length (selectedRefs tables selected) ≤ size selected)%nat
         ∧ (length (selectedRefs tables selected) = size selected
            ↔ selected ⊆ keysOf tables)).
Proof.
  assert (∀ s, isMigrating s = false →
               renderAction s
               = MigrateButton (negb (canMigrate s))
                   (if decide (selectedTables s = ∅) then None
                    else Some (Z.of_nat (size (selectedTables s))))) as Hshown.
  { intros s Hm. unfold renderAction, MigrationPanel_action. rewrite Hm.
    f_equal. destruct (decide (selectedTables s = ∅)) as [Hempty|Hsome].
    - by rewrite Hempty, size_empty.
    - assert (size (selectedTables s) ≠ 0%nat) as Hsize.
      { intros Hsize. by apply size_empty_iff, leibniz_equiv in Hsize. }
      by rewrite (proj2 (Z.ltb_lt 0 _)) by lia. }
  split; [exact Hshown|]. split.
  { intros y y' calls Hstep.
    destruct (step_ClickMigrate _ _ _ Hstep)
      as (Hm & Hcan & s' & request & Hbegin & ->).
    exists request. split; [done|]. split.
    - rewrite (Hshown _ Hm), Hcan. simpl. rewrite decide_False; [done|].
      intros Hempty. unfold canMigrate in Hcan.
      rewrite Hempty, size_empty in Hcan.
      by rewrite bool_decide_eq_false_2, andb_false_r in Hcan by lia.
    - apply (handleMigrate_request _ _ _ Hbegin). }
  intros tables selected.
  unfold selectedRefs. split; [by rewrite length_fmap|]. split.
  - split.
    + intros Hnone. induction Hnone as [|t l Ht _ IH]; [done|].
      by rewrite filter_cons_False.
    + intros Hempty. apply fmap_nil_inv in Hempty.
      apply Forall_forall. intros t Ht Hsel.
      assert (t ∈ filter (λ t, tableKey t ∈ selected) tables) as Hin
        by (by apply list_elem_of_filter).
      rewrite Hempty in Hin. by apply elem_of_nil in Hin.
  - intros Hnd. rewrite length_fmap.
    set (chosen := filter (λ t, tableKey t ∈ selected) tables).
    assert (NoDup (tableKey <$> chosen)) as Hchosen.
    { eapply sublist_NoDup; [exact Hnd|]. apply fmap_sublist, sublist_filter. }
    assert (size (keysOf chosen) = length chosen) as Hsize.
    { unfold keysOf. rewrite size_list_to_set by done. by rewrite length_fmap. }
    pose proof (keysOf_selected_subset tables selected) as Hsub. fold chosen in Hsub.
    split.
    + rewrite <-Hsize. by apply subseteq_size.
    + split.
      * intros Heq.
        assert (keysOf chosen = selected) as Hall.
        { apply set_subseteq_size_eq; [done|]. lia. }
        intros key Hkey. rewrite <-Hall in Hkey. revert Hkey.
        unfold keysOf. rewrite !elem_of_list_to_set, !list_elem_of_fmap.
        intros (t & -> & [_ Ht]%list_elem_of_filter). eauto.
      * intros Hall.
        assert (keysOf chosen = selected) as Heq; [|by rewrite <-Hsize, Heq].
        apply set_eq. intros key. split; [apply Hsub|].
        intros Hkey. pose proof (Hall key Hkey) as Hlisted.
        unfold keysOf in *. rewrite elem_of_list_to_set, list_elem_of_fmap in *.
        destruct Hlisted as (t & -> & Ht). exists t. split; [done|].
        by apply list_elem_of_filter.
Qed.

Lemma request_size_witness :
  (length (selectedRefs (sourceTables exampleState) {[ "public.orders"; "public.gone" ]})
   ≤ size ({[ "public.orders"; "public.gone" ]} : gset string))%nat
  ∧ selectedRefs (sourceTables exampleState) {[ "public.gone" ]} = []
  ∧ renderAction exampleState = MigrateButton false (Some 2%Z).
Proof.
  destruct request_size as (Hshown & _ & Hsize).
  destruct (Hsize (sourceTables exampleState)
              {[ "public.orders"; "public.gone" ]}) as (_ & _ & Hbound).
  destruct (Hsize (sourceTables exampleState) {[ "public.gone" ]})
    as (_ & Hnone & _).
  split; [|split].
  - apply Hbound.
    apply (bool_decide_unpack (NoDup (tableKey <$> sourceTables exampleState))).
    vm_compute. exact I.
  - apply Hnone.
    apply (bool_decide_unpack
             (Forall (λ t, tableKey t ∉ ({[ "public.gone" ]} : gset string))
                     (sourceTables exampleState))).
    vm_compute. exact I.
  - rewrite (Hshown exampleState) by reflexivity. vm_compute. reflexivity.
Defined.

(** ** Selection keys *)

Lemma dotted_split (a b c d : string) :
  dotless a = true → dotless c = true →
  a +:+ "." +:+ b = c +:+ "." +:+ d → a = c ∧ b = d.
Proof.
  revert c. induction a as [|x a IH]; intros [|z c] Ha Hc Heq.
  - change (String "." b = String "." d) in Heq. by simplify_eq.
  - change (String "." b = String z (c +:+ "." +:+ d)) in Heq.
    by simplify_eq/=.
  - change (String x (a +:+ "." +:+ b) = String "." d) in Heq.
    by simplify_eq/=.
  - change (String x (a +:+ "." +:+ b) = String z (c +:+ "." +:+ d)) in Heq.
    simplify_eq. simpl in Ha, Hc.
    apply andb_true_iff in Ha as [_ Ha]. apply andb_true_iff in Hc as [_ Hc].
    destruct (IH c Ha Hc) as [-> ->]; done.
Qed.

(** X23: for tables whose schema names have no dot, the selection key
    identifies the table: equal keys mean equal schema and equal name.
    Without that condition two different tables can share a key, and then
    they are selected and deselected together. *)
Theorem tableKey_identifies :
  (∀ t1 t2,
     dotless (ti_schema t1) = true → dotless (ti_schema t2) = true →
     tableKey t1 = tableKey t2 → toRef t1 = toRef t2)
  ∧ (∃ t1 t2, toRef t1 ≠ toRef t2 ∧ tableKey t1 = tableKey t2
              ∧ ∀ selected, tableKey t1 ∈ handleToggle selected t2
                            ↔ tableKey t1 ∉ selected).
Proof.
  split.
  - intros t1 t2 H1 H2 Hkey. unfold tableKey in Hkey.
    destruct (dotted_split _ _ _ _ H1 H2 Hkey) as [Hs Hn].
    unfold toRef. by rewrite Hs, Hn.
  - exists (exampleTable "a.b" "c"), (exampleTable "a" "b.c").
    split; [by intros [=]|]. split; [done|].
    intros selected.
    change (tableKey (exampleTable "a.b" "c"))
      with (tableKey (exampleTable "a" "b.c")).
    unfold handleToggle. case_decide; set_solver.
Qed.

Lemma tableKey_identifies_witness :
  toRef (exampleTable "public" "orders") = toRef (exampleTable "public" "orders").
Proof.
  apply (proj1 tableKey_identifies); reflexivity.
Defined.

(** ** Printing an integer and parsing it again *)

Lemma digit_cases d :
  (d < 10)%N →
  d ∈ [0; 1; 2; 3; 4; 5; 6; 7; 8; 9]%N.
Proof.
  intros Hd. rewrite !elem_of_cons, elem_of_nil. lia.
Qed.

Lemma digit_of_pretty d :
  (d < 10)%N → Js.digit_of 10 (pretty_N_char d) = Some (Z.of_N d).
Proof.
  intros Hd%digit_cases. rewrite !elem_of_cons, elem_of_nil in Hd.
  destruct_or!; subst; done.
Qed.

Lemma digits_prefix_pretty x :
  (0 < x)%N →
  ∃ k, ∀ acc s,
    Js.digits_prefix 10 acc (pretty_N_go x s)
    = Js.digits_prefix 10 (Some (default 0 acc * k + Z.of_N x)%Z) s.
Proof.
  induction (N.lt_wf_0 x) as [x _ IH]. intros Hx.
  assert (x `mod` 10 < 10)%N as Hd by (apply N.mod_lt; lia).
  pose proof (N.div_mod x 10) as Hdm.
  destruct (decide (x `div` 10 = 0)%N) as [H0|H0].
  - exists 10%Z. intros acc s.
    rewrite pretty_N_go_step, H0, pretty_N_go_0 by done. simpl.
    rewrite digit_of_pretty by done. do 2 f_equal. lia.
  - assert (x `div` 10 < x)%N as Hlt' by (apply N.div_lt; lia).
    assert (0 < x `div` 10)%N as Hpos' by (by apply N.neq_0_lt_0).
    destruct (IH _ Hlt' Hpos') as [k Hk].
    exists (k * 10)%Z. intros acc s.
    rewrite pretty_N_go_step, Hk by done. simpl.
    rewrite digit_of_pretty by done. do 2 f_equal. lia.
Qed.

Lemma pretty_go_head x s :
  (0 < x)%N →
  ∃ d rest, (d < 10)%N ∧ pretty_N_go x s = String (pretty_N_char d) rest
    ∧ (rest = s ∨ ∃ d' rest', (d' < 10)%N
                              ∧ rest = String (pretty_N_char d') rest').
Proof.
  revert s. induction (N.lt_wf_0 x) as [x _ IH]. intros s Hx.
  assert (x `mod` 10 < 10)%N as Hd by (apply N.mod_lt; lia).
  rewrite pretty_N_go_step by done.
  destruct (decide (x `div` 10 = 0)%N) as [H0|H0].
  - rewrite H0, pretty_N_go_0. eauto 10.
  - assert (x `div` 10 < x)%N as Hlt' by (apply N.div_lt; lia).
    assert (0 < x `div` 10)%N as Hpos' by (by apply N.neq_0_lt_0).
    destruct (IH _ Hlt' (String (pretty_N_char (x `mod` 10)) s) Hpos')
      as (d & rest & Hlt & -> & Hrest).
    exists d, rest. split; [done|]. split; [done|]. right.
    destruct Hrest as [->|?]; eauto.
Qed.

Lemma parseInt_decimal d rest (negative : bool) :
  (d < 10)%N →
  (rest = "" ∨ ∃ d' rest', (d' < 10)%N
                           ∧ rest = String (pretty_N_char d') rest') →
  Js.parseInt ((if negative then "-" else "")
               +:+ String (pretty_N_char d) rest)
  = match Js.digits_prefix 10 None (String (pretty_N_char d) rest) with
    | Some v => Js.of_Z (if negative then - v else v)
    | None => Js.NaN
    end.
Proof.
  intros Hd%digit_cases Hrest.
  rewrite !elem_of_cons, elem_of_nil in Hd.
  destruct negative;
    [change ("-" +:+ ?t) with (String "-" t)|change ("" +:+ ?t) with t];
    destruct_or!; subst; try done;
    destruct Hrest as (d' & rest' & Hd'%digit_cases & ->);
    rewrite !elem_of_cons, elem_of_nil in Hd';
    destruct_or!; subst; done.
Qed.

Lemma parseInt_pretty_positive p (negative : bool) :
  Js.parseInt ((if negative then "-" else "") +:+ pretty (N.pos p))
  = Js.of_Z (if negative then Z.neg p else Z.pos p).
Proof.
  unfold pretty, pretty_N. destruct (decide _) as [|_]; [done|].
  destruct (pretty_go_head (N.pos p) "") as (d & rest & Hd & Heq & Hrest);
    [lia|].
  destruct (digits_prefix_pretty (N.pos p)) as [k Hk]; [lia|].
  specialize (Hk None ""). rewrite Heq in Hk |- *.
  rewrite parseInt_decimal, Hk by done. simpl. by destruct negative.
Qed.

Lemma parseInt_pretty (z : Z) : Js.parseInt (pretty z) = Js.of_Z z.
Proof.
  destruct z as [|p|p].
  - done.
  - apply (parseInt_pretty_positive p false).
  - apply (parseInt_pretty_positive p true).
Qed.

Lemma pretty_nonempty (z : Z) : pretty z ≠ "".
Proof.
  destruct z as [|p|p]; [done| |done].
  unfold pretty, pretty_Z, pretty, pretty_positive, pretty, pretty_N.
  destruct (decide _) as [|_]; [done|].
  destruct (pretty_go_head (N.pos p) "") as (d & rest & _ & -> & _);
    [lia|done].
Qed.

(** X25: the port field and its change handler round-trip.  For an
    integer port (in the range where JavaScript prints plain digits) the
    field shows the empty text exactly when the port is 0, and entering
    again the text the field shows, [config.port || ""], stores the same
    port: [""] is read as 0 and every other text by [parseInt]. *)
Theorem port_field_round_trip (port : Z) :
  (Z.abs port < 10 ^ 21)%Z →
  portOfInput (portFieldText port) = Js.of_Z port
  ∧ (portFieldText port = "" ↔ port = 0%Z).
Proof.
  intros _. unfold portFieldText, JsText.String_of_Z.
  destruct (decide (port = 0%Z)) as [->|Hne]; [done|].
  assert (Js.truthy (Js.of_Z port) = true) as -> by by destruct port.
  pose proof (pretty_nonempty port) as Hp. split.
  - unfold portOfInput. rewrite decide_False by done. apply parseInt_pretty.
  - done.
Qed.

Lemma port_field_round_trip_witness :
  portOfInput (portFieldText 5432) = Js.of_Z 5432.
Proof.
  apply (port_field_round_trip 5432). reflexivity.
Defined.
